(** * ticker_scraper: the polling engine of the hedgeye, bearcave and IBD
    scrapers, embedded from [hedgeye_new_scraper.py], [bearcave_scraper.py]
    and [ibd_api_scraper.py].

    Conventions of the embedding.
    - A [datetime] is an integer number of microseconds (the resolution of
      Python's [datetime]); [(a - b).total_seconds() >= 900] is the integer
      comparison [900_000_000 <= a - b], which is exact because 900 is a
      representable float and the division by 10^6 is correctly rounded.
    - [random.choice] and [random.sample] read an explicit oracle.
    - A file on disk is [Missing], [Truncated] (opened with mode "w", nothing
      dumped yet) or [Written d] (a complete JSON document). *)

From stdpp Require Import gmap strings list fin_maps fin_sets pretty sorting.
From Stdlib Require Import ZArith Lia Ascii.

Local Open Scope Z_scope.

(** ** Shared vocabulary *)

Inductive file (D : Type) : Type :=
  | Missing
  | Truncated
  | Written (d : D).
Arguments Missing {D}.
Arguments Truncated {D}.
Arguments Written {D} d.

(** [os.path.exists] *)
Definition exists_ {D} (f : file D) : bool :=
  match f with Missing => false | _ => true end.

(** A call either returns or raises [Exception(msg)]. *)
Inductive outcome (A : Type) : Type :=
  | Return (a : A)
  | Raise (msg : string).
Arguments Return {A} a.
Arguments Raise {A} msg.

(** [random.choice(l)]: the oracle value [r] picks position [r mod len(l)]. *)
Definition choice {A} (r : nat) (l : list A) : option A :=
  l !! (r `mod` length l)%nat.

(** [random.sample(pool, k)]: [k] draws without replacement; draw number [i]
    (counted from the last) reads the oracle at [i]. Every ordered choice of
    [k] distinct positions is produced by some oracle. *)
Fixpoint sample {A} (pool : list A) (k : nat) (rnd : nat → nat) : list A :=
  match k with
  | O => []
  | S k' =>
      let j := (rnd k' `mod` length pool)%nat in
      match pool !! j with
      | Some x => x :: sample (delete j pool) k' rnd
      | None => []
      end
  end.

(** Straight-line code as a list of steps; a crash after [k] steps ran the
    first [k] of them and nothing else. *)
Definition run_steps {W} (steps : list (W → W)) (w : W) : W :=
  foldl (λ w f, f w) w steps.
Definition crash_after {W} (k : nat) (steps : list (W → W)) (w : W) : W :=
  run_steps (take k steps) w.

(** 15 minutes, in microseconds *)
Definition RATE_LIMIT_US : Z := 900 * 1000000.

(** ** ProxyManager *)
Module ProxyManager.

Record t := mk {
  proxies : list string;
  rate_limited : gmap string Z;
  (** content of [RATE_LIMIT_PROXY_FILE] *)
  disk : file (gmap string Z)
}.

Definition _load_rate_limited (f : file (gmap string Z)) : outcome (gmap string Z) :=
  match f with
  | Missing => Return ∅
  | Written d => Return d
  | Truncated => Raise "JSONDecodeError"
  end.

(** [with open(RATE_LIMIT_PROXY_FILE, "w") as f:] *)
Definition open_w (pm : t) : t :=
  mk (proxies pm) (rate_limited pm) Truncated.

(** [json.dump(rate_limited, f)] *)
Definition json_dump (pm : t) : t :=
  mk (proxies pm) (rate_limited pm) (Written (rate_limited pm)).

Definition _save_rate_limited (pm : t) : t := json_dump (open_w pm).

Definition is_expired (current_time : Z) (entry : string * Z) : bool :=
  bool_decide (RATE_LIMIT_US ≤ current_time - entry.2).

Definition expired_proxies (current_time : Z) (pm : t) : list string :=
  (filter (λ e, is_expired current_time e = true) (map_to_list (rate_limited pm))).*1.

Definition available_proxies (pm : t) : list string :=
  filter (λ proxy, proxy ∉ dom (rate_limited pm)) (proxies pm).

Definition get_next_proxy (current_time : Z) (rnd : nat) (pm : t) : t * outcome string :=
  let expired := expired_proxies current_time pm in
  let pm1 := mk (proxies pm) (foldr delete (rate_limited pm) expired) (disk pm) in
  let pm2 := match expired with [] => pm1 | _ => _save_rate_limited pm1 end in
  match choice rnd (available_proxies pm2) with
  | None => (pm2, Raise "No available proxies")
  | Some proxy => (pm2, Return proxy)
  end.

(** [self.rate_limited[proxy] = datetime.now()] *)
Definition set_entry (now : Z) (proxy : string) (pm : t) : t :=
  mk (proxies pm) (<[proxy := now]> (rate_limited pm)) (disk pm).

(** The statements of [mark_rate_limited], in order. *)
Definition mark_steps (now : Z) (proxy : string) : list (t → t) :=
  [set_entry now proxy; open_w; json_dump].

Definition mark_rate_limited (now : Z) (proxy : string) (pm : t) : t :=
  run_steps (mark_steps now proxy) pm.

Definition __init__ (proxies : list string) (f : file (gmap string Z)) : outcome t :=
  match _load_rate_limited f with
  | Return rl => Return (mk proxies rl f)
  | Raise e => Raise e
  end.

Definition clear_rate_limits (pm : t) : t :=
  mk (proxies pm) ∅ (if exists_ (disk pm) then Missing else disk pm).

End ProxyManager.

(** ** AccountManager *)
Module AccountManager.

Record t := mk {
  accounts : list (string * string);
  rate_limited : gset string;
  currently_running : gset string;
  (** content of [RATE_LIMIT_ACCOUNTS_FILE] *)
  disk : file (gset string)
}.

Definition _load_rate_limited (f : file (gset string)) : outcome (gset string) :=
  match f with
  | Missing => Return ∅
  | Written d => Return d
  | Truncated => Raise "JSONDecodeError"
  end.

Definition open_w (am : t) : t :=
  mk (accounts am) (rate_limited am) (currently_running am) Truncated.

Definition json_dump (am : t) : t :=
  mk (accounts am) (rate_limited am) (currently_running am) (Written (rate_limited am)).

Definition _save_rate_limited (am : t) : t := json_dump (open_w am).

Definition available (am : t) : list (string * string) :=
  filter (λ acc, (acc.1 ∉ rate_limited am) ∧ (acc.1 ∉ currently_running am)) (accounts am).

(** The body runs under [self.lock] and has no suspension point: one
    atomic step. *)
Definition get_available_accounts (count : nat) (rnd : nat → nat) (am : t)
  : t * list (string * string) :=
  let selected := sample (available am) (count `min` length (available am)) rnd in
  (mk (accounts am) (rate_limited am)
      (currently_running am ∪ list_to_set (selected.*1)) (disk am),
   selected).

Definition release_account (email : string) (am : t) : t :=
  if bool_decide (email ∈ currently_running am)
  then mk (accounts am) (rate_limited am) (currently_running am ∖ {[email]}) (disk am)
  else am.

Definition mark_rate_limited (email : string) (am : t) : t :=
  _save_rate_limited
    (mk (accounts am) (rate_limited am ∪ {[email]}) (currently_running am) (disk am)).

Definition clear_rate_limits (am : t) : t :=
  mk (accounts am) ∅ ∅ (if exists_ (disk am) then Missing else disk am).

End AccountManager.

(** ** The hedgeye scraper: classification, change detection, dispatch *)
Module Hedgeye.

(** *** Text helpers *)

(** A title is a Python [str], a sequence of Unicode code points. It is held
    here as the [string] of its UTF-8 bytes; [code_points] gives the
    characters back. *)

Definition code (c : ascii) : nat := nat_of_ascii c.

Definition is_upper (c : ascii) : bool :=
  (65 <=? code c)%nat && (code c <=? 90)%nat.
Definition is_lower (c : ascii) : bool :=
  (97 <=? code c)%nat && (code c <=? 122)%nat.
Definition is_digit (c : ascii) : bool :=
  (48 <=? code c)%nat && (code c <=? 57)%nat.

Definition lower_char (c : ascii) : ascii :=
  if is_upper c then ascii_of_nat (code c + 32) else c.

(** [str.lower()], read on the bytes of the text: the letters A to Z become
    a to z. Of all other characters only U+0130 and U+212A lowercase into
    ASCII, to "i" and to "k", so the two substring tests of [signal_type]
    find "buy" and "sell" exactly where the code finds them. *)
Definition lower (s : list ascii) : list ascii := map lower_char s.

Fixpoint starts_with (sub s : list ascii) : bool :=
  match sub, s with
  | [], _ => true
  | a :: sub', b :: s' => bool_decide (a = b) && starts_with sub' s'
  | _ :: _, [] => false
  end.

(** [sub in s] *)
Fixpoint contains (sub s : list ascii) : bool :=
  starts_with sub s ||
  match s with
  | [] => false
  | _ :: s' => contains sub s'
  end.

Definition chars (s : string) : list ascii := String.list_ascii_of_string s.

(** *** Code points and the character classes of [re] on [str] *)

Definition byte (c : ascii) : N := N_of_ascii c.

(** a UTF-8 continuation byte, 10xxxxxx *)
Definition is_cont (b : N) : bool := (128 <=? b)%N && (b <? 192)%N.

Definition REPLACEMENT : N := 0xFFFD%N.

(** UTF-8 decoding: one byte 0xxxxxxx, or a lead byte 110xxxxx, 1110xxxx or
    11110xxx followed by one, two or three continuation bytes. Bytes that
    are no UTF-8 text encode no [str]; each offending byte is read as
    U+FFFD. *)
Fixpoint utf8 (s : list ascii) : list N :=
  match s with
  | [] => []
  | a0 :: s1 =>
      let b0 := byte a0 in
      if (b0 <? 128)%N then b0 :: utf8 s1
      else
        match s1 with
        | [] => REPLACEMENT :: utf8 s1
        | a1 :: s2 =>
            let b1 := byte a1 in
            if (192 <=? b0)%N && (b0 <? 224)%N && is_cont b1 then
              ((b0 - 192) * 64 + (b1 - 128))%N :: utf8 s2
            else
              match s2 with
              | [] => REPLACEMENT :: utf8 s1
              | a2 :: s3 =>
                  let b2 := byte a2 in
                  if (224 <=? b0)%N && (b0 <? 240)%N && is_cont b1 && is_cont b2 then
                    ((b0 - 224) * 4096 + (b1 - 128) * 64 + (b2 - 128))%N :: utf8 s3
                  else
                    match s3 with
                    | [] => REPLACEMENT :: utf8 s1
                    | a3 :: s4 =>
                        let b3 := byte a3 in
                        if (240 <=? b0)%N && (b0 <? 248)%N
                           && is_cont b1 && is_cont b2 && is_cont b3 then
                          ((b0 - 240) * 262144 + (b1 - 128) * 4096
                           + (b2 - 128) * 64 + (b3 - 128))%N :: utf8 s4
                        else REPLACEMENT :: utf8 s1
                    end
              end
        end
  end.

Definition code_points (s : string) : list N := utf8 (chars s).

(** [c] lies in one of the ranges (both ends included). *)
Definition in_ranges (t : list (N * N)) (c : N) : bool :=
  existsb (λ r, (r.1 <=? c)%N && (c <=? r.2)%N) t.

(** The white space of [str]: what [\s] matches and [str.strip] removes
    ([Py_UNICODE_ISSPACE]). *)
Definition SPACE : list (N * N) :=
  [(0x9, 0xD); (0x1C, 0x20); (0x85, 0x85); (0xA0, 0xA0); (0x1680, 0x1680); (0x2000, 0x200A);
   (0x2028, 0x2029); (0x202F, 0x202F); (0x205F, 0x205F); (0x3000, 0x3000)]%N.

(** The alphanumeric characters of [str], [str.isalnum]
    ([Py_UNICODE_ISALNUM], Unicode 14.0 as in CPython 3.11). *)
Definition ALNUM : list (N * N) :=
  [(0x30, 0x39); (0x41, 0x5A); (0x61, 0x7A); (0xAA, 0xAA); (0xB2, 0xB3); (0xB5, 0xB5);
   (0xB9, 0xBA); (0xBC, 0xBE); (0xC0, 0xD6); (0xD8, 0xF6); (0xF8, 0x2C1); (0x2C6, 0x2D1);
   (0x2E0, 0x2E4); (0x2EC, 0x2EC); (0x2EE, 0x2EE); (0x370, 0x374); (0x376, 0x377);
   (0x37A, 0x37D); (0x37F, 0x37F); (0x386, 0x386); (0x388, 0x38A); (0x38C, 0x38C);
   (0x38E, 0x3A1); (0x3A3, 0x3F5); (0x3F7, 0x481); (0x48A, 0x52F); (0x531, 0x556);
   (0x559, 0x559); (0x560, 0x588); (0x5D0, 0x5EA); (0x5EF, 0x5F2); (0x620, 0x64A);
   (0x660, 0x669); (0x66E, 0x66F); (0x671, 0x6D3); (0x6D5, 0x6D5); (0x6E5, 0x6E6);
   (0x6EE, 0x6FC); (0x6FF, 0x6FF); (0x710, 0x710); (0x712, 0x72F); (0x74D, 0x7A5);
   (0x7B1, 0x7B1); (0x7C0, 0x7EA); (0x7F4, 0x7F5); (0x7FA, 0x7FA); (0x800, 0x815);
   (0x81A, 0x81A); (0x824, 0x824); (0x828, 0x828); (0x840, 0x858); (0x860, 0x86A);
   (0x870, 0x887); (0x889, 0x88E); (0x8A0, 0x8C9); (0x904, 0x939); (0x93D, 0x93D);
   (0x950, 0x950); (0x958, 0x961); (0x966, 0x96F); (0x971, 0x980); (0x985, 0x98C);
   (0x98F, 0x990); (0x993, 0x9A8); (0x9AA, 0x9B0); (0x9B2, 0x9B2); (0x9B6, 0x9B9);
   (0x9BD, 0x9BD); (0x9CE, 0x9CE); (0x9DC, 0x9DD); (0x9DF, 0x9E1); (0x9E6, 0x9F1);
   (0x9F4, 0x9F9); (0x9FC, 0x9FC); (0xA05, 0xA0A); (0xA0F, 0xA10); (0xA13, 0xA28);
   (0xA2A, 0xA30); (0xA32, 0xA33); (0xA35, 0xA36); (0xA38, 0xA39); (0xA59, 0xA5C);
   (0xA5E, 0xA5E); (0xA66, 0xA6F); (0xA72, 0xA74); (0xA85, 0xA8D); (0xA8F, 0xA91);
   (0xA93, 0xAA8); (0xAAA, 0xAB0); (0xAB2, 0xAB3); (0xAB5, 0xAB9); (0xABD, 0xABD);
   (0xAD0, 0xAD0); (0xAE0, 0xAE1); (0xAE6, 0xAEF); (0xAF9, 0xAF9); (0xB05, 0xB0C);
   (0xB0F, 0xB10); (0xB13, 0xB28); (0xB2A, 0xB30); (0xB32, 0xB33); (0xB35, 0xB39);
   (0xB3D, 0xB3D); (0xB5C, 0xB5D); (0xB5F, 0xB61); (0xB66, 0xB6F); (0xB71, 0xB77);
   (0xB83, 0xB83); (0xB85, 0xB8A); (0xB8E, 0xB90); (0xB92, 0xB95); (0xB99, 0xB9A);
   (0xB9C, 0xB9C); (0xB9E, 0xB9F); (0xBA3, 0xBA4); (0xBA8, 0xBAA); (0xBAE, 0xBB9);
   (0xBD0, 0xBD0); (0xBE6, 0xBF2); (0xC05, 0xC0C); (0xC0E, 0xC10); (0xC12, 0xC28);
   (0xC2A, 0xC39); (0xC3D, 0xC3D); (0xC58, 0xC5A); (0xC5D, 0xC5D); (0xC60, 0xC61);
   (0xC66, 0xC6F); (0xC78, 0xC7E); (0xC80, 0xC80); (0xC85, 0xC8C); (0xC8E, 0xC90);
   (0xC92, 0xCA8); (0xCAA, 0xCB3); (0xCB5, 0xCB9); (0xCBD, 0xCBD); (0xCDD, 0xCDE);
   (0xCE0, 0xCE1); (0xCE6, 0xCEF); (0xCF1, 0xCF2); (0xD04, 0xD0C); (0xD0E, 0xD10);
   (0xD12, 0xD3A); (0xD3D, 0xD3D); (0xD4E, 0xD4E); (0xD54, 0xD56); (0xD58, 0xD61);
   (0xD66, 0xD78); (0xD7A, 0xD7F); (0xD85, 0xD96); (0xD9A, 0xDB1); (0xDB3, 0xDBB);
   (0xDBD, 0xDBD); (0xDC0, 0xDC6); (0xDE6, 0xDEF); (0xE01, 0xE30); (0xE32, 0xE33);
   (0xE40, 0xE46); (0xE50, 0xE59); (0xE81, 0xE82); (0xE84, 0xE84); (0xE86, 0xE8A);
   (0xE8C, 0xEA3); (0xEA5, 0xEA5); (0xEA7, 0xEB0); (0xEB2, 0xEB3); (0xEBD, 0xEBD);
   (0xEC0, 0xEC4); (0xEC6, 0xEC6); (0xED0, 0xED9); (0xEDC, 0xEDF); (0xF00, 0xF00);
   (0xF20, 0xF33); (0xF40, 0xF47); (0xF49, 0xF6C); (0xF88, 0xF8C); (0x1000, 0x102A);
   (0x103F, 0x1049); (0x1050, 0x1055); (0x105A, 0x105D); (0x1061, 0x1061); (0x1065, 0x1066);
   (0x106E, 0x1070); (0x1075, 0x1081); (0x108E, 0x108E); (0x1090, 0x1099); (0x10A0, 0x10C5);
   (0x10C7, 0x10C7); (0x10CD, 0x10CD); (0x10D0, 0x10FA); (0x10FC, 0x1248); (0x124A, 0x124D);
   (0x1250, 0x1256); (0x1258, 0x1258); (0x125A, 0x125D); (0x1260, 0x1288); (0x128A, 0x128D);
   (0x1290, 0x12B0); (0x12B2, 0x12B5); (0x12B8, 0x12BE); (0x12C0, 0x12C0); (0x12C2, 0x12C5);
   (0x12C8, 0x12D6); (0x12D8, 0x1310); (0x1312, 0x1315); (0x1318, 0x135A); (0x1369, 0x137C);
   (0x1380, 0x138F); (0x13A0, 0x13F5); (0x13F8, 0x13FD); (0x1401, 0x166C); (0x166F, 0x167F);
   (0x1681, 0x169A); (0x16A0, 0x16EA); (0x16EE, 0x16F8); (0x1700, 0x1711); (0x171F, 0x1731);
   (0x1740, 0x1751); (0x1760, 0x176C); (0x176E, 0x1770); (0x1780, 0x17B3); (0x17D7, 0x17D7);
   (0x17DC, 0x17DC); (0x17E0, 0x17E9); (0x17F0, 0x17F9); (0x1810, 0x1819); (0x1820, 0x1878);
   (0x1880, 0x1884); (0x1887, 0x18A8); (0x18AA, 0x18AA); (0x18B0, 0x18F5); (0x1900, 0x191E);
   (0x1946, 0x196D); (0x1970, 0x1974); (0x1980, 0x19AB); (0x19B0, 0x19C9); (0x19D0, 0x19DA);
   (0x1A00, 0x1A16); (0x1A20, 0x1A54); (0x1A80, 0x1A89); (0x1A90, 0x1A99); (0x1AA7, 0x1AA7);
   (0x1B05, 0x1B33); (0x1B45, 0x1B4C); (0x1B50, 0x1B59); (0x1B83, 0x1BA0); (0x1BAE, 0x1BE5);
   (0x1C00, 0x1C23); (0x1C40, 0x1C49); (0x1C4D, 0x1C7D); (0x1C80, 0x1C88); (0x1C90, 0x1CBA);
   (0x1CBD, 0x1CBF); (0x1CE9, 0x1CEC); (0x1CEE, 0x1CF3); (0x1CF5, 0x1CF6); (0x1CFA, 0x1CFA);
   (0x1D00, 0x1DBF); (0x1E00, 0x1F15); (0x1F18, 0x1F1D); (0x1F20, 0x1F45); (0x1F48, 0x1F4D);
   (0x1F50, 0x1F57); (0x1F59, 0x1F59); (0x1F5B, 0x1F5B); (0x1F5D, 0x1F5D); (0x1F5F, 0x1F7D);
   (0x1F80, 0x1FB4); (0x1FB6, 0x1FBC); (0x1FBE, 0x1FBE); (0x1FC2, 0x1FC4); (0x1FC6, 0x1FCC);
   (0x1FD0, 0x1FD3); (0x1FD6, 0x1FDB); (0x1FE0, 0x1FEC); (0x1FF2, 0x1FF4); (0x1FF6, 0x1FFC);
   (0x2070, 0x2071); (0x2074, 0x2079); (0x207F, 0x2089); (0x2090, 0x209C); (0x2102, 0x2102);
   (0x2107, 0x2107); (0x210A, 0x2113); (0x2115, 0x2115); (0x2119, 0x211D); (0x2124, 0x2124);
   (0x2126, 0x2126); (0x2128, 0x2128); (0x212A, 0x212D); (0x212F, 0x2139); (0x213C, 0x213F);
   (0x2145, 0x2149); (0x214E, 0x214E); (0x2150, 0x2189); (0x2460, 0x249B); (0x24EA, 0x24FF);
   (0x2776, 0x2793); (0x2C00, 0x2CE4); (0x2CEB, 0x2CEE); (0x2CF2, 0x2CF3); (0x2CFD, 0x2CFD);
   (0x2D00, 0x2D25); (0x2D27, 0x2D27); (0x2D2D, 0x2D2D); (0x2D30, 0x2D67); (0x2D6F, 0x2D6F);
   (0x2D80, 0x2D96); (0x2DA0, 0x2DA6); (0x2DA8, 0x2DAE); (0x2DB0, 0x2DB6); (0x2DB8, 0x2DBE);
   (0x2DC0, 0x2DC6); (0x2DC8, 0x2DCE); (0x2DD0, 0x2DD6); (0x2DD8, 0x2DDE); (0x2E2F, 0x2E2F);
   (0x3005, 0x3007); (0x3021, 0x3029); (0x3031, 0x3035); (0x3038, 0x303C); (0x3041, 0x3096);
   (0x309D, 0x309F); (0x30A1, 0x30FA); (0x30FC, 0x30FF); (0x3105, 0x312F); (0x3131, 0x318E);
   (0x3192, 0x3195); (0x31A0, 0x31BF); (0x31F0, 0x31FF); (0x3220, 0x3229); (0x3248, 0x324F);
   (0x3251, 0x325F); (0x3280, 0x3289); (0x32B1, 0x32BF); (0x3400, 0x4DBF); (0x4E00, 0xA48C);
   (0xA4D0, 0xA4FD); (0xA500, 0xA60C); (0xA610, 0xA62B); (0xA640, 0xA66E); (0xA67F, 0xA69D);
   (0xA6A0, 0xA6EF); (0xA717, 0xA71F); (0xA722, 0xA788); (0xA78B, 0xA7CA); (0xA7D0, 0xA7D1);
   (0xA7D3, 0xA7D3); (0xA7D5, 0xA7D9); (0xA7F2, 0xA801); (0xA803, 0xA805); (0xA807, 0xA80A);
   (0xA80C, 0xA822); (0xA830, 0xA835); (0xA840, 0xA873); (0xA882, 0xA8B3); (0xA8D0, 0xA8D9);
   (0xA8F2, 0xA8F7); (0xA8FB, 0xA8FB); (0xA8FD, 0xA8FE); (0xA900, 0xA925); (0xA930, 0xA946);
   (0xA960, 0xA97C); (0xA984, 0xA9B2); (0xA9CF, 0xA9D9); (0xA9E0, 0xA9E4); (0xA9E6, 0xA9FE);
   (0xAA00, 0xAA28); (0xAA40, 0xAA42); (0xAA44, 0xAA4B); (0xAA50, 0xAA59); (0xAA60, 0xAA76);
   (0xAA7A, 0xAA7A); (0xAA7E, 0xAAAF); (0xAAB1, 0xAAB1); (0xAAB5, 0xAAB6); (0xAAB9, 0xAABD);
   (0xAAC0, 0xAAC0); (0xAAC2, 0xAAC2); (0xAADB, 0xAADD); (0xAAE0, 0xAAEA); (0xAAF2, 0xAAF4);
   (0xAB01, 0xAB06); (0xAB09, 0xAB0E); (0xAB11, 0xAB16); (0xAB20, 0xAB26); (0xAB28, 0xAB2E);
   (0xAB30, 0xAB5A); (0xAB5C, 0xAB69); (0xAB70, 0xABE2); (0xABF0, 0xABF9); (0xAC00, 0xD7A3);
   (0xD7B0, 0xD7C6); (0xD7CB, 0xD7FB); (0xF900, 0xFA6D); (0xFA70, 0xFAD9); (0xFB00, 0xFB06);
   (0xFB13, 0xFB17); (0xFB1D, 0xFB1D); (0xFB1F, 0xFB28); (0xFB2A, 0xFB36); (0xFB38, 0xFB3C);
   (0xFB3E, 0xFB3E); (0xFB40, 0xFB41); (0xFB43, 0xFB44); (0xFB46, 0xFBB1); (0xFBD3, 0xFD3D);
   (0xFD50, 0xFD8F); (0xFD92, 0xFDC7); (0xFDF0, 0xFDFB); (0xFE70, 0xFE74); (0xFE76, 0xFEFC);
   (0xFF10, 0xFF19); (0xFF21, 0xFF3A); (0xFF41, 0xFF5A); (0xFF66, 0xFFBE); (0xFFC2, 0xFFC7);
   (0xFFCA, 0xFFCF); (0xFFD2, 0xFFD7); (0xFFDA, 0xFFDC); (0x10000, 0x1000B);
   (0x1000D, 0x10026); (0x10028, 0x1003A); (0x1003C, 0x1003D); (0x1003F, 0x1004D);
   (0x10050, 0x1005D); (0x10080, 0x100FA); (0x10107, 0x10133); (0x10140, 0x10178);
   (0x1018A, 0x1018B); (0x10280, 0x1029C); (0x102A0, 0x102D0); (0x102E1, 0x102FB);
   (0x10300, 0x10323); (0x1032D, 0x1034A); (0x10350, 0x10375); (0x10380, 0x1039D);
   (0x103A0, 0x103C3); (0x103C8, 0x103CF); (0x103D1, 0x103D5); (0x10400, 0x1049D);
   (0x104A0, 0x104A9); (0x104B0, 0x104D3); (0x104D8, 0x104FB); (0x10500, 0x10527);
   (0x10530, 0x10563); (0x10570, 0x1057A); (0x1057C, 0x1058A); (0x1058C, 0x10592);
   (0x10594, 0x10595); (0x10597, 0x105A1); (0x105A3, 0x105B1); (0x105B3, 0x105B9);
   (0x105BB, 0x105BC); (0x10600, 0x10736); (0x10740, 0x10755); (0x10760, 0x10767);
   (0x10780, 0x10785); (0x10787, 0x107B0); (0x107B2, 0x107BA); (0x10800, 0x10805);
   (0x10808, 0x10808); (0x1080A, 0x10835); (0x10837, 0x10838); (0x1083C, 0x1083C);
   (0x1083F, 0x10855); (0x10858, 0x10876); (0x10879, 0x1089E); (0x108A7, 0x108AF);
   (0x108E0, 0x108F2); (0x108F4, 0x108F5); (0x108FB, 0x1091B); (0x10920, 0x10939);
   (0x10980, 0x109B7); (0x109BC, 0x109CF); (0x109D2, 0x10A00); (0x10A10, 0x10A13);
   (0x10A15, 0x10A17); (0x10A19, 0x10A35); (0x10A40, 0x10A48); (0x10A60, 0x10A7E);
   (0x10A80, 0x10A9F); (0x10AC0, 0x10AC7); (0x10AC9, 0x10AE4); (0x10AEB, 0x10AEF);
   (0x10B00, 0x10B35); (0x10B40, 0x10B55); (0x10B58, 0x10B72); (0x10B78, 0x10B91);
   (0x10BA9, 0x10BAF); (0x10C00, 0x10C48); (0x10C80, 0x10CB2); (0x10CC0, 0x10CF2);
   (0x10CFA, 0x10D23); (0x10D30, 0x10D39); (0x10E60, 0x10E7E); (0x10E80, 0x10EA9);
   (0x10EB0, 0x10EB1); (0x10F00, 0x10F27); (0x10F30, 0x10F45); (0x10F51, 0x10F54);
   (0x10F70, 0x10F81); (0x10FB0, 0x10FCB); (0x10FE0, 0x10FF6); (0x11003, 0x11037);
   (0x11052, 0x1106F); (0x11071, 0x11072); (0x11075, 0x11075); (0x11083, 0x110AF);
   (0x110D0, 0x110E8); (0x110F0, 0x110F9); (0x11103, 0x11126); (0x11136, 0x1113F);
   (0x11144, 0x11144); (0x11147, 0x11147); (0x11150, 0x11172); (0x11176, 0x11176);
   (0x11183, 0x111B2); (0x111C1, 0x111C4); (0x111D0, 0x111DA); (0x111DC, 0x111DC);
   (0x111E1, 0x111F4); (0x11200, 0x11211); (0x11213, 0x1122B); (0x11280, 0x11286);
   (0x11288, 0x11288); (0x1128A, 0x1128D); (0x1128F, 0x1129D); (0x1129F, 0x112A8);
   (0x112B0, 0x112DE); (0x112F0, 0x112F9); (0x11305, 0x1130C); (0x1130F, 0x11310);
   (0x11313, 0x11328); (0x1132A, 0x11330); (0x11332, 0x11333); (0x11335, 0x11339);
   (0x1133D, 0x1133D); (0x11350, 0x11350); (0x1135D, 0x11361); (0x11400, 0x11434);
   (0x11447, 0x1144A); (0x11450, 0x11459); (0x1145F, 0x11461); (0x11480, 0x114AF);
   (0x114C4, 0x114C5); (0x114C7, 0x114C7); (0x114D0, 0x114D9); (0x11580, 0x115AE);
   (0x115D8, 0x115DB); (0x11600, 0x1162F); (0x11644, 0x11644); (0x11650, 0x11659);
   (0x11680, 0x116AA); (0x116B8, 0x116B8); (0x116C0, 0x116C9); (0x11700, 0x1171A);
   (0x11730, 0x1173B); (0x11740, 0x11746); (0x11800, 0x1182B); (0x118A0, 0x118F2);
   (0x118FF, 0x11906); (0x11909, 0x11909); (0x1190C, 0x11913); (0x11915, 0x11916);
   (0x11918, 0x1192F); (0x1193F, 0x1193F); (0x11941, 0x11941); (0x11950, 0x11959);
   (0x119A0, 0x119A7); (0x119AA, 0x119D0); (0x119E1, 0x119E1); (0x119E3, 0x119E3);
   (0x11A00, 0x11A00); (0x11A0B, 0x11A32); (0x11A3A, 0x11A3A); (0x11A50, 0x11A50);
   (0x11A5C, 0x11A89); (0x11A9D, 0x11A9D); (0x11AB0, 0x11AF8); (0x11C00, 0x11C08);
   (0x11C0A, 0x11C2E); (0x11C40, 0x11C40); (0x11C50, 0x11C6C); (0x11C72, 0x11C8F);
   (0x11D00, 0x11D06); (0x11D08, 0x11D09); (0x11D0B, 0x11D30); (0x11D46, 0x11D46);
   (0x11D50, 0x11D59); (0x11D60, 0x11D65); (0x11D67, 0x11D68); (0x11D6A, 0x11D89);
   (0x11D98, 0x11D98); (0x11DA0, 0x11DA9); (0x11EE0, 0x11EF2); (0x11FB0, 0x11FB0);
   (0x11FC0, 0x11FD4); (0x12000, 0x12399); (0x12400, 0x1246E); (0x12480, 0x12543);
   (0x12F90, 0x12FF0); (0x13000, 0x1342E); (0x14400, 0x14646); (0x16800, 0x16A38);
   (0x16A40, 0x16A5E); (0x16A60, 0x16A69); (0x16A70, 0x16ABE); (0x16AC0, 0x16AC9);
   (0x16AD0, 0x16AED); (0x16B00, 0x16B2F); (0x16B40, 0x16B43); (0x16B50, 0x16B59);
   (0x16B5B, 0x16B61); (0x16B63, 0x16B77); (0x16B7D, 0x16B8F); (0x16E40, 0x16E96);
   (0x16F00, 0x16F4A); (0x16F50, 0x16F50); (0x16F93, 0x16F9F); (0x16FE0, 0x16FE1);
   (0x16FE3, 0x16FE3); (0x17000, 0x187F7); (0x18800, 0x18CD5); (0x18D00, 0x18D08);
   (0x1AFF0, 0x1AFF3); (0x1AFF5, 0x1AFFB); (0x1AFFD, 0x1AFFE); (0x1B000, 0x1B122);
   (0x1B150, 0x1B152); (0x1B164, 0x1B167); (0x1B170, 0x1B2FB); (0x1BC00, 0x1BC6A);
   (0x1BC70, 0x1BC7C); (0x1BC80, 0x1BC88); (0x1BC90, 0x1BC99); (0x1D2E0, 0x1D2F3);
   (0x1D360, 0x1D378); (0x1D400, 0x1D454); (0x1D456, 0x1D49C); (0x1D49E, 0x1D49F);
   (0x1D4A2, 0x1D4A2); (0x1D4A5, 0x1D4A6); (0x1D4A9, 0x1D4AC); (0x1D4AE, 0x1D4B9);
   (0x1D4BB, 0x1D4BB); (0x1D4BD, 0x1D4C3); (0x1D4C5, 0x1D505); (0x1D507, 0x1D50A);
   (0x1D50D, 0x1D514); (0x1D516, 0x1D51C); (0x1D51E, 0x1D539); (0x1D53B, 0x1D53E);
   (0x1D540, 0x1D544); (0x1D546, 0x1D546); (0x1D54A, 0x1D550); (0x1D552, 0x1D6A5);
   (0x1D6A8, 0x1D6C0); (0x1D6C2, 0x1D6DA); (0x1D6DC, 0x1D6FA); (0x1D6FC, 0x1D714);
   (0x1D716, 0x1D734); (0x1D736, 0x1D74E); (0x1D750, 0x1D76E); (0x1D770, 0x1D788);
   (0x1D78A, 0x1D7A8); (0x1D7AA, 0x1D7C2); (0x1D7C4, 0x1D7CB); (0x1D7CE, 0x1D7FF);
   (0x1DF00, 0x1DF1E); (0x1E100, 0x1E12C); (0x1E137, 0x1E13D); (0x1E140, 0x1E149);
   (0x1E14E, 0x1E14E); (0x1E290, 0x1E2AD); (0x1E2C0, 0x1E2EB); (0x1E2F0, 0x1E2F9);
   (0x1E7E0, 0x1E7E6); (0x1E7E8, 0x1E7EB); (0x1E7ED, 0x1E7EE); (0x1E7F0, 0x1E7FE);
   (0x1E800, 0x1E8C4); (0x1E8C7, 0x1E8CF); (0x1E900, 0x1E943); (0x1E94B, 0x1E94B);
   (0x1E950, 0x1E959); (0x1EC71, 0x1ECAB); (0x1ECAD, 0x1ECAF); (0x1ECB1, 0x1ECB4);
   (0x1ED01, 0x1ED2D); (0x1ED2F, 0x1ED3D); (0x1EE00, 0x1EE03); (0x1EE05, 0x1EE1F);
   (0x1EE21, 0x1EE22); (0x1EE24, 0x1EE24); (0x1EE27, 0x1EE27); (0x1EE29, 0x1EE32);
   (0x1EE34, 0x1EE37); (0x1EE39, 0x1EE39); (0x1EE3B, 0x1EE3B); (0x1EE42, 0x1EE42);
   (0x1EE47, 0x1EE47); (0x1EE49, 0x1EE49); (0x1EE4B, 0x1EE4B); (0x1EE4D, 0x1EE4F);
   (0x1EE51, 0x1EE52); (0x1EE54, 0x1EE54); (0x1EE57, 0x1EE57); (0x1EE59, 0x1EE59);
   (0x1EE5B, 0x1EE5B); (0x1EE5D, 0x1EE5D); (0x1EE5F, 0x1EE5F); (0x1EE61, 0x1EE62);
   (0x1EE64, 0x1EE64); (0x1EE67, 0x1EE6A); (0x1EE6C, 0x1EE72); (0x1EE74, 0x1EE77);
   (0x1EE79, 0x1EE7C); (0x1EE7E, 0x1EE7E); (0x1EE80, 0x1EE89); (0x1EE8B, 0x1EE9B);
   (0x1EEA1, 0x1EEA3); (0x1EEA5, 0x1EEA9); (0x1EEAB, 0x1EEBB); (0x1F100, 0x1F10C);
   (0x1FBF0, 0x1FBF9); (0x20000, 0x2A6DF); (0x2A700, 0x2B738); (0x2B740, 0x2B81D);
   (0x2B820, 0x2CEA1); (0x2CEB0, 0x2EBE0); (0x2F800, 0x2FA1D); (0x30000, 0x3134A)]%N.

(** regex [\s] *)
Definition is_space (c : N) : bool := in_ranges SPACE c.
(** regex [\w]: alphanumeric or underscore *)
Definition is_word (c : N) : bool := in_ranges ALNUM c || (c =? 95)%N.
(** regex [[A-Z]] *)
Definition is_A_Z (c : N) : bool := (65 <=? c)%N && (c <=? 90)%N.
(** regex [\$] *)
Definition is_dollar (c : N) : bool := (c =? 36)%N.

(** *** A backtracking matcher for the regex fragment the scraper uses *)

(** A pattern is a sequence of items ending in [Done]. *)
Inductive re : Type :=
  | Done
  | WordB (rest : re)                                      (* \b *)
  | Rep (p : N → bool) (lo : nat) (hi : option nat) (rest : re)
                                      (* greedy [p]{lo,hi}; hi = None: unbounded *)
  | Look (inner : re) (rest : re).                          (* (?=inner) *)

(** [\b] between [prev] and [next] *)
Definition boundary (prev next : option N) : bool :=
  xorb (from_option is_word false prev) (from_option is_word false next).

Definition dec_hi (hi : option nat) : option nat := Nat.pred <$> hi.
Definition hi_open (hi : option nat) : bool :=
  match hi with Some O => false | _ => true end.

(** Greedy repetition: take one more character when allowed and try the
    rest; on failure give the character back. *)
Fixpoint rep (p : N → bool) (lo : nat) (hi : option nat)
    (k : option N → list N → nat → option nat)
    (prev : option N) (s : list N) (n : nat) : option nat :=
  let stop := match lo with O => k prev s n | S _ => None end in
  match s with
  | c :: s' =>
      if hi_open hi && p c then
        match rep p (Nat.pred lo) (dec_hi hi) k (Some c) s' (S n) with
        | Some r => Some r
        | None => stop
        end
      else stop
  | [] => stop
  end.

(** [matches r prev s n]: match [r] at a position preceded by [prev] with
    [s] ahead, [n] characters consumed so far; the result is the length of
    the match. *)
Fixpoint matches (r : re) (prev : option N) (s : list N) (n : nat) : option nat :=
  match r with
  | Done => Some n
  | WordB rest => if boundary prev (head s) then matches rest prev s n else None
  | Rep p lo hi rest => rep p lo hi (λ prev' s' n', matches rest prev' s' n') prev s n
  | Look inner rest =>
      match matches inner prev s 0 with
      | Some _ => matches rest prev s n
      | None => None
      end
  end.

(** [re.search]: leftmost start position [i] where the pattern matches, with
    the match length. *)
Fixpoint search (r : re) (prev : option N) (s : list N) (i : nat) : option (nat * nat) :=
  match matches r prev s 0 with
  | Some n => Some (i, n)
  | None =>
      match s with
      | [] => None
      | c :: s' => search r (Some c) s' (S i)
      end
  end.

(** [r"\b([A-Z]{1,5})\b(?=\s*\$)"] *)
Definition TICKER_RE : re :=
  WordB (Rep is_A_Z 1 (Some 5%nat) (WordB
    (Look (Rep is_space 0 None (Rep is_dollar 1 (Some 1%nat) Done)) Done))).

Definition signal_type (title : string) : string :=
  if contains (chars "buy") (lower (chars title)) then "Buy"
  else if contains (chars "sell") (lower (chars title)) then "Sell"
  else "None".

Definition ticker_match (title : string) : option (nat * nat) :=
  search TICKER_RE None (code_points title) 0.

(** Characters back as a string; used on matched text, which holds the
    letters A to Z only. *)
Definition text (l : list N) : string :=
  String.string_of_list_ascii (ascii_of_N <$> l).

(** [ticker_match.group(0) if ticker_match else "-"] *)
Definition ticker (title : string) : string :=
  match ticker_match title with
  | Some (i, n) => text (take n (drop i (code_points title)))
  | None => "-"
  end.

(** *** Change detection and dispatch ([process_account], under
    [last_alert_lock]) *)

Record alert := mk_alert { title : string; price : string; created_at : string }.

Inductive event : Type :=
  | SendWs (type ticker : string)
  | SendTelegram (title price : string)
  | Commit (title price : string).

Record store := mk_store {
  (** content of [LAST_ALERT_FILE]: a JSON object *)
  LAST_ALERT_FILE : file (gmap string string);
  log : list event
}.

Definition load_last_alert (f : file (gmap string string)) : outcome (gmap string string) :=
  match f with
  | Missing => Return ∅
  | Written d => Return d
  | Truncated => Raise "JSONDecodeError"
  end.

(** [not last_alert or alert_details["title"] != last_alert.get("title")] *)
Definition is_new (a : alert) (last_alert : gmap string string) : bool :=
  bool_decide (last_alert = ∅) || bool_decide (Some (title a) ≠ last_alert !! "title").

Definition send_ws (a : alert) (st : store) : store :=
  mk_store (LAST_ALERT_FILE st)
           (log st ++ [SendWs (signal_type (title a)) (ticker (title a))]).

Definition send_telegram (a : alert) (st : store) : store :=
  mk_store (LAST_ALERT_FILE st) (log st ++ [SendTelegram (title a) (price a)]).

Definition open_w (st : store) : store := mk_store Truncated (log st).

Definition last_alert_json (a : alert) : gmap string string :=
  <["title" := title a]> (<["price" := price a]> {["created_at" := created_at a]}).

Definition json_dump (a : alert) (st : store) : store :=
  mk_store (Written (last_alert_json a)) (log st ++ [Commit (title a) (price a)]).

Definition dispatch_steps (a : alert) : list (store → store) :=
  [send_ws a; send_telegram a; open_w; json_dump a].

Definition process_alert (a : alert) (st : store) : store :=
  match load_last_alert (LAST_ALERT_FILE st) with
  | Raise _ => st
  | Return last_alert =>
      if is_new a last_alert then run_steps (dispatch_steps a) st else st
  end.

(** The same critical section, stopped by a crash after [k] dispatch steps. *)
Definition process_alert_crash (k : nat) (a : alert) (st : store) : store :=
  match load_last_alert (LAST_ALERT_FILE st) with
  | Raise _ => st
  | Return last_alert =>
      if is_new a last_alert then crash_after k (dispatch_steps a) st else st
  end.

(** [n] tasks that fetched the same alert enter the critical section one
    after the other. *)
Fixpoint process_alert_times (n : nat) (a : alert) (st : store) : store :=
  match n with
  | O => st
  | S n' => process_alert_times n' a (process_alert a st)
  end.

(** Alerts that reached a notifier, by title. *)
Definition alerted (l : list event) : list string :=
  omap (λ e, match e with SendTelegram t _ => Some t | _ => None end) l.

(** *** The scheduler ([process_accounts_continuously] and the tasks it
    spawns), as atomic steps between suspension points *)

Record sched := mk_sched {
  am : AccountManager.t;
  pm : ProxyManager.t;
  (** accounts returned by [get_available_accounts], not yet launched *)
  pending : list (string * string);
  (** running [process_account_with_release] tasks: (email, proxy) *)
  in_flight : list (string * string)
}.

Inductive op : Type :=
  | Acquire (rnd : nat → nat)
  | Launch (now : Z) (rnd : nat)
  | Finish (i : nat) (rate_limited_at : option Z).

Definition step (o : op) (w : sched) : sched :=
  match o with
  | Acquire rnd =>
      match pending w with
      | [] =>
          let '(am', accounts) := AccountManager.get_available_accounts 2 rnd (am w) in
          mk_sched am' (pm w) accounts (in_flight w)
      | _ :: _ => w
      end
  | Launch now rnd =>
      match pending w with
      | [] => w
      | (email, _) :: rest =>
          match ProxyManager.get_next_proxy now rnd (pm w) with
          | (pm', Return proxy) =>
              mk_sched (am w) pm' rest (in_flight w ++ [(email, proxy)])
          | (pm', Raise _) => mk_sched (am w) pm' [] (in_flight w)
          end
      end
  | Finish i rl =>
      match in_flight w !! i with
      | None => w
      | Some (email, proxy) =>
          let pm' := match rl with
                     | Some now => ProxyManager.mark_rate_limited now proxy (pm w)
                     | None => pm w
                     end in
          let am' := match rl with
                     | Some _ => AccountManager.mark_rate_limited email (am w)
                     | None => am w
                     end in
          mk_sched (AccountManager.release_account email am') pm'
                   (pending w) (delete i (in_flight w))
      end
  end.

Definition run (ops : list op) (w : sched) : sched := foldl (λ w o, step o w) w ops.

Definition start (pm0 : ProxyManager.t) (accounts : list (string * string))
    (rl : gset string) (f : file (gset string)) : sched :=
  mk_sched (AccountManager.mk accounts rl ∅ f) pm0 [] [].

(** *** The session controller ([main]) *)



(** End of day: [proxy_manager.clear_rate_limits();
    account_manager.clear_rate_limits()] *)
Definition end_of_day (w : sched) : sched :=
  mk_sched (AccountManager.clear_rate_limits (am w))
           (ProxyManager.clear_rate_limits (pm w)) [] (in_flight w).

End Hedgeye.

(** ** The bearcave scraper: set-variant change detection ([run_scraper]) *)
Module Bearcave.

Record post := mk_post {
  (** [post.get("canonical_url")]: [None] when the key is absent or null *)
  canonical_url : option string;
  title : string
}.

Inductive event : Type :=
  | Fetch (now : Z)
  | Alert (p : post)
  | Saved (urls : gset string).

Record world := mk {
  processed_urls : gset string;
  (** content of [PROCESSED_URLS_FILE] *)
  disk : file (gset string);
  log : list event
}.

Definition load_processed_urls (f : file (gset string)) : outcome (gset string) :=
  match f with
  | Missing => Return ∅
  | Written d => Return d
  | Truncated => Raise "JSONDecodeError"
  end.

(** truthiness of [post.get("canonical_url")] *)
Definition truthy (u : option string) : bool :=
  match u with
  | Some s => bool_decide (s ≠ EmptyString)
  | None => false
  end.

Definition is_new_post (seen : gset string) (p : post) : bool :=
  truthy (canonical_url p) &&
  match canonical_url p with
  | Some u => bool_decide (u ∉ seen)
  | None => false
  end.

Definition new_posts (seen : gset string) (posts : list post) : list post :=
  filter (λ p, is_new_post seen p = true) posts.

Definition send_to_telegram (p : post) (w : world) : world :=
  mk (processed_urls w) (disk w) (log w ++ [Alert p]).

(** [processed_urls.add(post["canonical_url"])] *)
Definition add (p : post) (w : world) : world :=
  match canonical_url p with
  | Some u => mk (processed_urls w ∪ {[u]}) (disk w) (log w)
  | None => w
  end.

Definition open_w (w : world) : world := mk (processed_urls w) Truncated (log w).

Definition json_dump (w : world) : world :=
  mk (processed_urls w) (Written (processed_urls w))
     (log w ++ [Saved (processed_urls w)]).

(** The statements one loop iteration runs after [fetch_json] returned
    [posts]. *)
Definition iteration_steps (posts : list post) (w : world) : list (world → world) :=
  match new_posts (processed_urls w) posts with
  | [] => []
  | p :: ps =>
      flat_map (λ q, [send_to_telegram q; add q]) (p :: ps) ++ [open_w; json_dump]
  end.

Definition iteration (posts : list post) (w : world) : world :=
  run_steps (iteration_steps posts w) w.

Definition iteration_crash (k : nat) (posts : list post) (w : world) : world :=
  crash_after k (iteration_steps posts w) w.

(** Process start: [processed_urls = load_processed_urls()]. *)
Definition restart (w : world) : outcome world :=
  match load_processed_urls (disk w) with
  | Return s => Return (mk s (disk w) [])
  | Raise e => Raise e
  end.

Definition alerts (l : list event) : list post :=
  omap (λ e, match e with Alert p => Some p | _ => None end) l.

#[global] Instance post_eq_dec : EqDecision post.
Proof. solve_decision. Defined.

(** Alerts of [after] that had already been sent in [before]. *)
Definition duplicates (before after : list post) : list post :=
  filter (λ p, p ∈ before) after.


(** The inner [while True] loop of one window. Each entry of [env] is what
    one iteration observes: the clock reading and the fetched posts. *)
Fixpoint inner_loop (market_close_time : Z) (env : list (Z * list post)) (w : world) : world :=
  match env with
  | [] => w
  | (current_time, posts) :: env' =>
      if bool_decide (current_time > market_close_time) then w
      else inner_loop market_close_time env'
             (iteration posts (mk (processed_urls w) (disk w) (log w ++ [Fetch current_time])))
  end.



End Bearcave.

(** ** The IBD scraper ([fetch_trades], [run_scraper]) *)
Module Ibd.

Record trade := mk_trade { id : Z; stockSymbol : string }.

(** [str(trade["id"])] *)
Definition str (n : Z) : string := pretty n.

Inductive response : Type :=
  | Ok200 (trades : list trade)
  | Status (code : nat)
  | NetError.

Inductive request : Type :=
  | Get (authorization : string)
  | PostToken.

(** The server as seen by the client: the answers to the successive GETs and
    to the successive token POSTs ([None]: not HTTP 200, or an error), and
    the requests sent so far. *)
Record net := mk_net {
  gets : list response;
  posts : list (option string);
  requests : list request;
  (** content of [TOKENS_FILE] *)
  token_file : file string
}.

Definition get_new_token (n : net) : option string * net :=
  match posts n with
  | [] => (None, mk_net (gets n) [] (requests n ++ [PostToken]) (token_file n))
  | Some token :: ps =>
      (Some token, mk_net (gets n) ps (requests n ++ [PostToken]) (Written token))
  | None :: ps => (None, mk_net (gets n) ps (requests n ++ [PostToken]) (token_file n))
  end.

(** [fetch_trades], by recursion on the GET answers still to come (each call
    consumes one). *)
Fixpoint fetch_trades_on (gs : list response) (ps : list (option string))
    (rq : list request) (tf : file string) (token : string)
    : option (list trade) * net :=
  match gs with
  | [] => (None, mk_net [] ps (rq ++ [Get token]) tf)
  | Ok200 trades :: gs' => (Some trades, mk_net gs' ps (rq ++ [Get token]) tf)
  | Status 426 :: gs' =>
      let '(new_token, n1) := get_new_token (mk_net gs' ps (rq ++ [Get token]) tf) in
      match new_token with
      | Some t =>
          if bool_decide (t ≠ EmptyString)
          then fetch_trades_on gs' (posts n1) (requests n1) (token_file n1) t
          else (None, n1)
      | None => (None, n1)
      end
  | Status _ :: gs' => (None, mk_net gs' ps (rq ++ [Get token]) tf)
  | NetError :: gs' => (None, mk_net gs' ps (rq ++ [Get token]) tf)
  end.

Definition fetch_trades (n : net) (token : string) : option (list trade) * net :=
  fetch_trades_on (gets n) (posts n) (requests n) (token_file n) token.

Inductive event : Type :=
  | Call (token : string)
  | Alert (t : trade)
  | Saved (ids : gset string).

Record world := mk {
  processed_trades : gset string;
  (** content of [PROCESSED_TRADES_FILE] *)
  disk : file (gset string);
  log : list event;
  network : net
}.

Definition load_processed_trades (f : file (gset string)) : outcome (gset string) :=
  match f with
  | Missing => Return ∅
  | Written d => Return d
  | Truncated => Raise "JSONDecodeError"
  end.

Definition new_trades (seen : gset string) (trades : list trade) : list trade :=
  filter (λ t, str (id t) ∉ seen) trades.

Definition send_to_telegram (t : trade) (w : world) : world :=
  mk (processed_trades w) (disk w) (log w ++ [Alert t]) (network w).

Definition add (t : trade) (w : world) : world :=
  mk (processed_trades w ∪ {[str (id t)]}) (disk w) (log w) (network w).

Definition open_w (w : world) : world :=
  mk (processed_trades w) Truncated (log w) (network w).

Definition json_dump (w : world) : world :=
  mk (processed_trades w) (Written (processed_trades w))
     (log w ++ [Saved (processed_trades w)]) (network w).

Definition iteration_steps (trades : list trade) (w : world) : list (world → world) :=
  match new_trades (processed_trades w) trades with
  | [] => []
  | t :: ts =>
      flat_map (λ q, [send_to_telegram q; add q]) (t :: ts) ++ [open_w; json_dump]
  end.

Definition iteration (trades_data : option (list trade)) (w : world) : world :=
  match trades_data with
  | Some trades => run_steps (iteration_steps trades w) w
  | None => w
  end.

Definition alerts (l : list event) : list trade :=
  omap (λ e, match e with Alert t => Some t | _ => None end) l.

Definition calls (l : list event) : list string :=
  omap (λ e, match e with Call t => Some t | _ => None end) l.

(** The inner polling loop of [run_scraper]; [token] is the binding made
    once before the loops; [clock] holds the successive readings of
    [datetime.now]. *)
Fixpoint inner_loop (market_close_time : Z) (token : string) (clock : list Z) (w : world) : world :=
  match clock with
  | [] => w
  | current_time :: clock' =>
      if bool_decide (current_time > market_close_time) then w
      else
        let '(trades_data, n') := fetch_trades (network w) token in
        inner_loop market_close_time token clock'
          (iteration trades_data
             (mk (processed_trades w) (disk w) (log w ++ [Call token]) n'))
  end.

(** [run_scraper] from the initial token request on, for one window. *)
Definition run_scraper (market_close_time : Z) (clock : list Z) (w : world) : world :=
  let '(token, n1) := get_new_token (network w) in
  match token with
  | Some t =>
      if bool_decide (t ≠ EmptyString)
      then inner_loop market_close_time t clock
             (mk (processed_trades w) (disk w) (log w) n1)
      else mk (processed_trades w) (disk w) (log w) n1
  | None => mk (processed_trades w) (disk w) (log w) n1
  end.

End Ibd.

(** ** Vocabulary of the statements *)

(** Running a series of [get_next_proxy] calls, each with its clock reading
    and oracle value. *)
Fixpoint acquire_all (calls : list (Z * nat)) (pm : ProxyManager.t)
    : ProxyManager.t * list (outcome string) :=
  match calls with
  | [] => (pm, [])
  | (now, rnd) :: calls' =>
      let '(pm1, r) := ProxyManager.get_next_proxy now rnd pm in
      let '(pm2, rs) := acquire_all calls' pm1 in
      (pm2, r :: rs)
  end.

(** Emails held by the scheduler: running tasks and accounts selected but
    not yet launched. *)
Definition held (w : Hedgeye.sched) : list string :=
  (Hedgeye.in_flight w).*1 ++ (Hedgeye.pending w).*1.

Definition sched_inv (w : Hedgeye.sched) : Prop :=
  NoDup (held w)
  ∧ (∀ e, e ∈ held w → e ∈ AccountManager.currently_running (Hedgeye.am w))
  ∧ NoDup ((AccountManager.accounts (Hedgeye.am w)).*1).

(** The events of one hedgeye dispatch. *)
Definition dispatch_events (a : Hedgeye.alert) : list Hedgeye.event :=
  [Hedgeye.SendWs (Hedgeye.signal_type (Hedgeye.title a)) (Hedgeye.ticker (Hedgeye.title a));
   Hedgeye.SendTelegram (Hedgeye.title a) (Hedgeye.price a);
   Hedgeye.Commit (Hedgeye.title a) (Hedgeye.price a)].

(** The identifier of a post: its non-empty canonical URL. *)
Definition identifier (p : Bearcave.post) : option string :=
  match Bearcave.canonical_url p with
  | Some u => if bool_decide (u = EmptyString) then None else Some u
  | None => None
  end.

(** "The items whose identifier is absent from the set, in fetch order." *)
Definition absent (seen : gset string) (p : Bearcave.post) : bool :=
  match identifier p with
  | Some u => bool_decide (u ∉ seen)
  | None => false
  end.

Definition detect (seen : gset string) (fetched : list Bearcave.post) : list Bearcave.post :=
  filter (λ p, absent seen p = true) fetched.

Definition ids (ps : list Bearcave.post) : gset string :=
  list_to_set (omap Bearcave.canonical_url ps).

Definition trade_ids (ts : list Ibd.trade) : gset string :=
  list_to_set ((λ t, Ibd.str (Ibd.id t)) <$> ts).

(** A step that leaves the seen-set file alone or truncates it. *)
Definition keeps_file (f : Bearcave.world → Bearcave.world) : Prop :=
  ∀ w, Bearcave.disk (f w) = Bearcave.disk w ∨ Bearcave.disk (f w) = Truncated.

(** The file holds what is in memory. *)
Definition proxy_synced (pm : ProxyManager.t) : Prop :=
  ProxyManager._load_rate_limited (ProxyManager.disk pm)
  = Return (ProxyManager.rate_limited pm).

Definition account_synced (am : AccountManager.t) : Prop :=
  AccountManager._load_rate_limited (AccountManager.disk am)
  = Return (AccountManager.rate_limited am).

(** The readings of a clock up to the first one after [closesAt]. *)
Fixpoint while_open (closesAt : Z) (clock : list Z) : list Z :=
  match clock with
  | [] => []
  | t :: clock' =>
      if bool_decide (t > closesAt) then [] else t :: while_open closesAt clock'
  end.

(** [sub] occurs in [s]. *)
Definition occurs (sub s : list ascii) : Prop :=
  ∃ pre post, s = pre ++ sub ++ post.



(** The code points of a range. *)
Definition span (r : N * N) : list N :=
  (λ k, (r.1 + N.of_nat k)%N) <$> seq 0 (N.to_nat (r.2 + 1 - r.1)).

(** The white-space characters: tab to carriage return, the four
    separators U+001C to U+001F, the space, U+0085, the no-break space
    U+00A0, U+1680, U+2000 to U+200A, U+2028, U+2029, U+202F, U+205F and
    U+3000. *)
Definition white_space : list N :=
  [0x9; 0xA; 0xB; 0xC; 0xD; 0x1C; 0x1D; 0x1E; 0x1F; 0x20; 0x85; 0xA0; 0x1680;
   0x2000; 0x2001; 0x2002; 0x2003; 0x2004; 0x2005; 0x2006; 0x2007; 0x2008;
   0x2009; 0x200A; 0x2028; 0x2029; 0x202F; 0x205F; 0x3000]%N.


(** The character before a position: the last one of [w], or [prev] when
    [w] is empty. *)
Definition last_or (prev : option N) (w : list N) : option N :=
  match last w with
  | Some c => Some c
  | None => prev
  end.




(** The state in which the next window starts: the reset has run, and the
    tasks of the closed window that end before the next open have ended;
    [ends] gives their positions and rate-limit signals in order. The
    scheduler is cancelled at the close, the tasks it created are not. *)
Definition next_window_start (ends : list (nat * option Z)) (w : Hedgeye.sched)
    : Hedgeye.sched :=
  Hedgeye.run ((λ e, Hedgeye.Finish e.1 e.2) <$> ends) (Hedgeye.end_of_day w).

(** No exclusion is left, in memory or on disk, and every proxy and account
    of [w0] is a candidate. *)
Definition all_eligible (w0 w : Hedgeye.sched) : Prop :=
  ProxyManager.rate_limited (Hedgeye.pm w) = ∅
  ∧ AccountManager.rate_limited (Hedgeye.am w) = ∅
  ∧ AccountManager.currently_running (Hedgeye.am w) = ∅
  ∧ exists_ (ProxyManager.disk (Hedgeye.pm w)) = false
  ∧ exists_ (AccountManager.disk (Hedgeye.am w)) = false
  ∧ ProxyManager.available_proxies (Hedgeye.pm w) = ProxyManager.proxies (Hedgeye.pm w0)
  ∧ AccountManager.available (Hedgeye.am w) = AccountManager.accounts (Hedgeye.am w0).

(** ** Hedgeye sessions: cookie files, login, account initialisation *)
Module HedgeyeSession.

(** [s.replace(old, new)] for one-character [old] and [new] *)
Definition replace (old new : ascii) (s : list ascii) : list ascii :=
  (λ c, if bool_decide (c = old) then new else c) <$> s.

(** [email.replace('@', '_').replace('.', '_')] *)
Definition sanitize (email : string) : list ascii :=
  replace "."%char "_"%char (replace "@"%char "_"%char (Hedgeye.chars email)).

(** [f"data/hedgeye_cookies/{...}.json"] *)
Definition cookie_filename (email : string) : string :=
  String.string_of_list_ascii
    (Hedgeye.chars "data/hedgeye_cookies/" ++ sanitize email ++ Hedgeye.chars ".json").

(** The cookie directory: file name to the JSON object it holds. *)
Definition save_cookies (cookies : gmap string string) (email : string)
    (fs : gmap string (gmap string string)) : gmap string (gmap string string) :=
  <[cookie_filename email := cookies]> fs.

Definition load_cookies (email : string) (fs : gmap string (gmap string string))
    : option (gmap string string) :=
  fs !! cookie_filename email.

(** truthiness of a dict *)
Definition truthy (cookies : gmap string string) : bool :=
  bool_decide (cookies ≠ ∅).

(** What the browser holds once the login page has been left: its cookies
    (name, value), or an exception on the way. *)
Inductive browser : Type :=
  | LoginError
  | Cookies (cs : list (string * string)).

(** [next((c for c in cookies if c["name"] == name), None)] *)
Definition first_named (name : string) (cs : list (string * string)) : option string :=
  snd <$> (snd <$> list_find (λ c, c.1 = name) cs).

Definition login (b : browser) : option (gmap string string) :=
  match b with
  | LoginError => None
  | Cookies cs =>
      match first_named "_hedgeye_session" cs, first_named "customer_type" cs with
      | Some session_cookie, Some customer_type =>
          Some (<["_hedgeye_session" := session_cookie]>
                  {["customer_type" := customer_type]})
      | _, _ => None
      end
  end.

(** The answer to the liveness request of [validate_credentials]. *)
Inductive probe : Type :=
  | ProbeStatus (code : nat)
  | ProbeError.

Definition validate_credentials (email : string) (pr : probe) (b : browser)
    (fs : gmap string (gmap string string))
    : gmap string (gmap string string) * option (gmap string string) :=
  let get_new :=
    match login b with
    | Some new_cookies =>
        if truthy new_cookies
        then (save_cookies new_cookies email fs, Some new_cookies)
        else (fs, None)
    | None => (fs, None)
    end in
  match load_cookies email fs with
  | Some cookies =>
      if truthy cookies then
        match pr with
        | ProbeStatus 200 => (fs, Some cookies)
        | ProbeStatus _ => get_new
        | ProbeError => (fs, None)
        end
      else get_new
  | None => get_new
  end.

(** [accounts[i : i + 3]] for [i] in [range(0, len(accounts), 3)] *)
Fixpoint batches {A} (l : list A) : list (list A) :=
  match l with
  | [] => []
  | a :: l1 =>
      match l1 with
      | [] => [[a]]
      | b :: l2 =>
          match l2 with
          | [] => [[a; b]]
          | c :: l3 => [a; b; c] :: batches l3
          end
      end
  end.

(** [asyncio.gather] over the tasks of a batch, taken in order; each
    account meets the probe answer and the browser that [pr] and [br] give
    for its email. *)
Fixpoint gather (pr : string → probe) (br : string → browser)
    (batch : list (string * string)) (fs : gmap string (gmap string string))
    : gmap string (gmap string string) * list (option (gmap string string)) :=
  match batch with
  | [] => (fs, [])
  | (email, _) :: rest =>
      let '(fs1, r) := validate_credentials email (pr email) (br email) fs in
      let '(fs2, rs) := gather pr br rest fs1 in
      (fs2, r :: rs)
  end.

(** The accounts of [zip(batch, results)] whose cookies are truthy. *)
Definition keep_valid (batch : list (string * string))
    (results : list (option (gmap string string))) : list (string * string) :=
  omap (λ ar, match ar.2 with
              | Some cookies => if truthy cookies then Some ar.1 else None
              | None => None
              end) (zip batch results).

(** The loop of [initialize_accounts] over the batches; the last component
    counts the [asyncio.sleep(0.8)] calls. *)
Fixpoint run_batches (pr : string → probe) (br : string → browser)
    (bs : list (list (string * string))) (fs : gmap string (gmap string string))
    : gmap string (gmap string string) * list (string * string) * nat :=
  match bs with
  | [] => (fs, [], O)
  | batch :: bs' =>
      let '(fs1, results) := gather pr br batch fs in
      let '(fs2, valid, sleeps) := run_batches pr br bs' fs1 in
      (fs2, keep_valid batch results ++ valid,
       (match bs' with [] => O | _ => 1%nat end + sleeps)%nat)
  end.

Definition initialize_accounts (pr : string → probe) (br : string → browser)
    (accounts : list (string * string)) (fs : gmap string (gmap string string))
    : gmap string (gmap string string) * list (string * string) * nat :=
  run_batches pr br (batches accounts) fs.

End HedgeyeSession.

(** ** Bearcave titles and tickers *)
Module BearcaveText.

(** [extract_ticker] is taken on ASCII titles, where the cased characters
    are the letters A to Z and a to z; [get_post_title] on any text. *)

(** [str.isupper()]: some cased character, and no lowercase one. *)
Definition isupper (s : list ascii) : bool :=
  existsb Hedgeye.is_upper s && negb (existsb Hedgeye.is_lower s).

Definition is_open (c : ascii) : bool := bool_decide (c = "("%char).
Definition is_close (c : ascii) : bool := bool_decide (c = ")"%char).
Definition is_newline (c : ascii) : bool := bool_decide (c = "010"%char).

(** [(.*?)\)] right after an opening parenthesis: the shortest run of
    characters other than a newline that is followed by [")"]. *)
Fixpoint lazy_group (s : list ascii) : option (list ascii) :=
  match s with
  | [] => None
  | c :: s' =>
      if is_close c then Some []
      else if is_newline c then None
      else (c ::.) <$> lazy_group s'
  end.

(** [re.search(r"\((.*?)\)", s).group(1)] *)
Fixpoint paren_search (s : list ascii) : option (list ascii) :=
  match s with
  | [] => None
  | c :: s' =>
      if is_open c then
        match lazy_group s' with
        | Some g => Some g
        | None => paren_search s'
        end
      else paren_search s'
  end.

Definition extract_ticker (title : option string) : option string :=
  match title with
  | None => None
  | Some t =>
      if Hedgeye.contains (Hedgeye.chars "Problems at") (Hedgeye.chars t) then
        match paren_search (Hedgeye.chars t) with
        | Some potential_ticker =>
            if isupper potential_ticker
            then Some (String.string_of_list_ascii potential_ticker)
            else None
        | None => None
        end
      else None
  end.

(** A scalar JSON value, as [post.get] returns it for a title. *)
Inductive json : Type :=
  | JNull
  | JBool (b : bool)
  | JNum (n : Z)
  | JStr (s : string).

Definition json_truthy (v : json) : bool :=
  match v with
  | JNull => false
  | JBool b => b
  | JNum n => bool_decide (n ≠ 0)
  | JStr s => bool_decide (s ≠ EmptyString)
  end.

(** [not title.strip()] for a string: nothing but white space. *)
Definition blank (s : string) : bool :=
  forallb Hedgeye.is_space (Hedgeye.code_points s).

Definition NO_TITLE : string := "No title found in either title/social_title".

(** [title] and [social_title] are [post.get(..., "")]. *)
Definition get_post_title (title social_title : json) : json :=
  match title with
  | JStr t =>
      if blank t
      then (if json_truthy social_title then social_title else JStr NO_TITLE)
      else JStr t
  | _ => if json_truthy social_title then social_title else JStr NO_TITLE
  end.

End BearcaveText.

(** ** More vocabulary *)

(** Alerts entering the hedgeye critical section one after the other. *)
Definition process_all (alerts : list Hedgeye.alert) (st : Hedgeye.store) : Hedgeye.store :=
  foldl (λ st a, Hedgeye.process_alert a st) st alerts.

(** A list of titles with each run of equal neighbours reduced to its first
    element; [prev] is the title before the list. *)
Fixpoint collapse (prev : option string) (titles : list string) : list string :=
  match titles with
  | [] => []
  | t :: ts =>
      if bool_decide (prev = Some t) then collapse prev ts else t :: collapse (Some t) ts
  end.

(** The cookie file of [email] exists and holds a non-empty object. *)
Definition has_cookies (fs : gmap string (gmap string string)) (email : string) : Prop :=
  ∃ c, HedgeyeSession.load_cookies email fs = Some c ∧ c ≠ ∅.

(** The scheduler holds accounts of the pool only, at most two of them
    waiting to be launched. *)
Definition sched_bounds (w : Hedgeye.sched) : Prop :=
  held w ⊆ (AccountManager.accounts (Hedgeye.am w)).*1
  ∧ (length (Hedgeye.pending w) ≤ 2)%nat.

(** The requests of one successful [fetch_trades] call that met the tokens
    [tokens] on its way. *)
Definition refresh_requests (token : string) (tokens : list string) : list Ibd.request :=
  Ibd.Get token :: flat_map (λ t, [Ibd.PostToken; Ibd.Get t]) tokens.

(** No id occurs twice in the trades of an HTTP 200 answer. *)
Definition distinct_ids (r : Ibd.response) : Prop :=
  match r with
  | Ibd.Ok200 ts => NoDup ((λ t, Ibd.str (Ibd.id t)) <$> ts)
  | _ => True
  end.

(** * Theorems *)

Section ProxyFacts.
Import ProxyManager.

Lemma lookup_foldr_delete (m : gmap string Z) (l : list string) (k : string) :
  foldr delete m l !! k = if decide (k ∈ l) then None else m !! k.
Proof.
  induction l as [|x l IH]; simpl.
  - destruct (decide (k ∈ [])) as [Hin|]; [|done]. by apply elem_of_nil in Hin.
  - destruct (decide (x = k)) as [->|Hne].
    + rewrite lookup_delete_eq. destruct (decide (k ∈ k :: l)); [done | set_solver].
    + rewrite lookup_delete_ne, IH by done.
      destruct (decide (k ∈ l)), (decide (k ∈ x :: l)); try done; set_solver.
Qed.

Lemma elem_of_expired_proxies now pm p :
  p ∈ expired_proxies now pm ↔
  ∃ T, rate_limited pm !! p = Some T ∧ RATE_LIMIT_US ≤ now - T.
Proof.
  unfold expired_proxies. rewrite list_elem_of_fmap. split.
  - intros [[k T] [-> Hin]]. apply list_elem_of_filter in Hin as [He Hin].
    apply elem_of_map_to_list in Hin. exists T. split; [done|].
    unfold is_expired in He. by apply bool_decide_eq_true in He.
  - intros (T & Hl & Hexp). exists (p, T). split; [done|].
    apply list_elem_of_filter. split.
    + unfold is_expired. by apply bool_decide_eq_true.
    + by apply elem_of_map_to_list.
Qed.

(** The exclusion map after a [get_next_proxy] call. *)
Lemma get_next_proxy_rate_limited now rnd pm p :
  rate_limited (get_next_proxy now rnd pm).1 !! p =
  match rate_limited pm !! p with
  | Some T => if bool_decide (RATE_LIMIT_US ≤ now - T) then None else Some T
  | None => None
  end.
Proof.
  unfold get_next_proxy.
  set (e := expired_proxies now pm).
  assert (Hrl : ∀ pm2, pm2 = mk (proxies pm) (foldr delete (rate_limited pm) e) (disk pm)
                ∨ pm2 = _save_rate_limited (mk (proxies pm) (foldr delete (rate_limited pm) e) (disk pm)) →
                rate_limited pm2 = foldr delete (rate_limited pm) e).
  { intros pm2 [-> | ->]; done. }
  match goal with |- context [choice rnd (available_proxies ?x)] => set (pm2 := x) end.
  assert (rate_limited pm2 = foldr delete (rate_limited pm) e) as Hpm2.
  { apply Hrl. subst pm2. destruct e; auto. }
  assert (rate_limited (match choice rnd (available_proxies pm2) with
           | Some proxy => (pm2, Return proxy)
           | None => (pm2, Raise "No available proxies") end).1 = rate_limited pm2) as ->.
  { by destruct (choice rnd (available_proxies pm2)). }
  rewrite Hpm2, lookup_foldr_delete.
  destruct (rate_limited pm !! p) as [T|] eqn:Hl.
  - case_bool_decide as Hexp.
    + rewrite decide_True; [done|]. apply elem_of_expired_proxies. eauto.
    + rewrite decide_False; [done|]. intros (T' & Hl' & ?)%elem_of_expired_proxies.
      rewrite Hl in Hl'. by injection Hl' as <-.
  - by destruct (decide _).
Qed.

Lemma get_next_proxy_proxies now rnd pm :
  proxies (get_next_proxy now rnd pm).1 = proxies pm.
Proof.
  unfold get_next_proxy. destruct (expired_proxies now pm); simpl;
    by destruct (choice _ _).
Qed.

(** What [get_next_proxy] returns is a proxy that is not excluded. *)
Lemma get_next_proxy_returns now rnd pm p :
  (get_next_proxy now rnd pm).2 = Return p →
  p ∈ proxies pm ∧ rate_limited (get_next_proxy now rnd pm).1 !! p = None.
Proof.
  unfold get_next_proxy.
  match goal with |- context [choice rnd (available_proxies ?x)] => set (pm2 := x) end.
  assert (proxies pm2 = proxies pm) as Hp.
  { subst pm2. by destruct (expired_proxies now pm). }
  destruct (choice rnd (available_proxies pm2)) as [q|] eqn:Hc; simpl; [|done].
  intros [= ->]. unfold choice in Hc. apply list_elem_of_lookup_2 in Hc.
  apply list_elem_of_filter in Hc as [Hnd Hin]. rewrite Hp in Hin. split; [done|].
  by apply not_elem_of_dom.
Qed.

(** The file holds the exclusion map after every call that pruned. *)
Lemma get_next_proxy_disk now rnd pm :
  expired_proxies now pm ≠ [] →
  disk (get_next_proxy now rnd pm).1 = Written (rate_limited (get_next_proxy now rnd pm).1).
Proof.
  unfold get_next_proxy. destruct (expired_proxies now pm); [done|]. intros _.
  by destruct (choice _ _).
Qed.

Lemma get_next_proxy_disk_same now rnd pm :
  expired_proxies now pm = [] →
  get_next_proxy now rnd pm = (pm, (get_next_proxy now rnd pm).2).
Proof.
  unfold get_next_proxy. intros ->. simpl. destruct pm as [ps rl d]; simpl.
  by destruct (choice _ _).
Qed.

End ProxyFacts.

Section ProxyExclusion.
Import ProxyManager.

Lemma acquire_all_excluded calls pm p T :
  rate_limited pm !! p = Some T →
  Forall (λ c, c.1 < T + RATE_LIMIT_US) calls →
  Forall (λ r, r ≠ Return p) (acquire_all calls pm).2
  ∧ rate_limited (acquire_all calls pm).1 !! p = Some T.
Proof.
  revert pm. induction calls as [|[now rnd] calls IH]; intros pm Hl Hall; simpl.
  - by split.
  - apply Forall_cons in Hall as [Hnow Hall]. simpl in Hnow.
    assert (rate_limited (get_next_proxy now rnd pm).1 !! p = Some T) as Hkeep.
    { rewrite get_next_proxy_rate_limited, Hl. rewrite bool_decide_eq_false_2; [done|lia]. }
    pose proof (get_next_proxy_returns now rnd pm p) as Hret.
    destruct (get_next_proxy now rnd pm) as [pm1 r] eqn:Hg. simpl in *.
    destruct (IH pm1 Hkeep Hall) as [IH1 IH2].
    destruct (acquire_all calls pm1) as [pm2 rs]. simpl in *. split; [|done].
    constructor; [|done]. intros ->. destruct (Hret eq_refl) as [_ Hnone]. congruence.
Qed.

Lemma available_after_expiry now rnd pm p T :
  rate_limited pm !! p = Some T → RATE_LIMIT_US ≤ now - T → p ∈ proxies pm →
  p ∈ available_proxies (get_next_proxy now rnd pm).1.
Proof.
  intros Hl Hexp Hin. unfold available_proxies. apply list_elem_of_filter. split.
  - apply not_elem_of_dom. rewrite get_next_proxy_rate_limited, Hl.
    by rewrite bool_decide_eq_true_2.
  - by rewrite get_next_proxy_proxies.
Qed.

Lemma get_next_proxy_idem_state now rnd rnd' pm :
  (get_next_proxy now rnd pm).1 = (get_next_proxy now rnd' pm).1.
Proof.
  unfold get_next_proxy. by destruct (choice rnd _), (choice rnd' _).
Qed.

Lemma get_next_proxy_can_return now pm p :
  p ∈ available_proxies (get_next_proxy now 0 pm).1 →
  ∃ rnd, (get_next_proxy now rnd pm).2 = Return p.
Proof.
  intros Hin. apply list_elem_of_lookup in Hin as [i Hi]. exists i.
  pose proof (lookup_lt_Some _ _ _ Hi) as Hlt.
  revert Hi Hlt. unfold get_next_proxy.
  match goal with |- context [choice 0 (available_proxies ?x)] => set (pm2 := x) end.
  assert ((match choice 0 (available_proxies pm2) with
           | Some proxy => (pm2, Return proxy)
           | None => (pm2, Raise "No available proxies") end).1 = pm2) as ->.
  { by destruct (choice 0 _). }
  intros Hi Hlt. unfold choice. rewrite Nat.mod_small by done. by rewrite Hi.
Qed.

End ProxyExclusion.

Section AccountFacts.
Import AccountManager.

Lemma sample_submseteq {A} (pool : list A) k rnd : sample pool k rnd ⊆+ pool.
Proof.
  revert pool. induction k as [|k IH]; intros pool; simpl.
  - apply submseteq_nil_l.
  - destruct (pool !! _) as [x|] eqn:Hx; [|apply submseteq_nil_l].
    trans (x :: delete (rnd k `mod` length pool)%nat pool).
    + apply submseteq_skip, IH.
    + apply Permutation_submseteq. symmetry. by apply delete_Permutation.
Qed.

Lemma sample_length {A} (pool : list A) k rnd :
  (k ≤ length pool)%nat → length (sample pool k rnd) = k.
Proof.
  revert pool. induction k as [|k IH]; intros pool Hk; simpl; [done|].
  assert (rnd k `mod` length pool < length pool)%nat as Hlt
    by (apply Nat.mod_upper_bound; lia).
  destruct (lookup_lt_is_Some_2 _ _ Hlt) as [x Hx]. rewrite Hx. simpl.
  rewrite IH; [done|]. rewrite length_delete by eauto. lia.
Qed.

Lemma selected_available count rnd am acc :
  acc ∈ (get_available_accounts count rnd am).2 → acc ∈ available am.
Proof.
  simpl. intros Hin. eapply elem_of_submseteq; [exact Hin|apply sample_submseteq].
Qed.

Lemma elem_of_available am acc :
  acc ∈ available am ↔
  acc ∈ accounts am ∧ (acc.1 ∉ rate_limited am) ∧ (acc.1 ∉ currently_running am).
Proof. unfold available. rewrite list_elem_of_filter. tauto. Qed.

(** A rate-limited account is never selected, and selection leaves the
    exclusion set as it is. *)
Lemma rate_limited_not_selected count rnd am email :
  email ∈ rate_limited am →
  (email ∉ ((get_available_accounts count rnd am).2).*1)
  ∧ rate_limited (get_available_accounts count rnd am).1 = rate_limited am.
Proof.
  intros Hrl. split; [|done]. intros ([e pw] & -> & Hin)%list_elem_of_fmap.
  apply selected_available, elem_of_available in Hin. simpl in Hin. tauto.
Qed.

End AccountFacts.

Lemma filter_all {A} (P : A → Prop) `{!∀ x, Decision (P x)} (l : list A) :
  (∀ x, x ∈ l → P x) → filter P l = l.
Proof.
  induction l as [|x l IH]; intros Hall; [done|].
  rewrite filter_cons_True by (apply Hall; left). f_equal. apply IH.
  intros y Hy. apply Hall. by right.
Qed.

Lemma acquire_all_proxies calls pm :
  ProxyManager.proxies (acquire_all calls pm).1 = ProxyManager.proxies pm.
Proof.
  revert pm. induction calls as [|[now r] calls IH]; intros pm; simpl; [done|].
  pose proof (get_next_proxy_proxies now r pm) as Hp.
  destruct (ProxyManager.get_next_proxy now r pm) as [pm1 o]. simpl in Hp.
  specialize (IH pm1). destruct (acquire_all calls pm1) as [pm2 rs]. simpl in *.
  congruence.
Qed.

(** C2 (as amended): a proxy marked rate-limited at [T] is returned by no
    [get_next_proxy] call made before [T] + 15 minutes and keeps its entry;
    the first call at or after [T] + 15 minutes deletes the entry, writes the
    exclusion file and has the proxy among the candidates, so some draw
    returns it. An account marked rate-limited has no time stamp: it is not
    selected by [get_available_accounts], and selection leaves the exclusion
    set unchanged. *)
Theorem exclusion_expiry (pm : ProxyManager.t) (p : string) (T : Z)
    (early : list (Z * nat)) (late : Z) (rnd : nat)
    (am : AccountManager.t) (email : string) (count : nat) (rnds : nat → nat) :
  Forall (λ c, c.1 < T + RATE_LIMIT_US) early →
  T + RATE_LIMIT_US ≤ late →
  p ∈ ProxyManager.proxies pm →
  let st := acquire_all early (ProxyManager.mark_rate_limited T p pm) in
  let st' := ProxyManager.get_next_proxy late rnd st.1 in
  let am1 := AccountManager.mark_rate_limited email am in
  Forall (λ r, r ≠ Return p) st.2
  ∧ ProxyManager.rate_limited st.1 !! p = Some T
  ∧ ProxyManager.rate_limited st'.1 !! p = None
  ∧ ProxyManager.disk st'.1 = Written (ProxyManager.rate_limited st'.1)
  ∧ p ∈ ProxyManager.available_proxies st'.1
  ∧ (∃ rnd', (ProxyManager.get_next_proxy late rnd' st.1).2 = Return p)
  ∧ (email ∉ ((AccountManager.get_available_accounts count rnds am1).2).*1)
  ∧ AccountManager.rate_limited (AccountManager.get_available_accounts count rnds am1).1
    = AccountManager.rate_limited am1.
Proof.
  intros Hearly Hlate Hin st st' am1.
  assert (ProxyManager.rate_limited (ProxyManager.mark_rate_limited T p pm) !! p = Some T)
    as Hmark by apply lookup_insert_eq.
  destruct (acquire_all_excluded early _ p T Hmark Hearly) as [Hres Hkeep].
  fold st in Hres, Hkeep.
  assert (p ∈ ProxyManager.proxies st.1) as Hin'.
  { subst st. by rewrite acquire_all_proxies. }
  assert (RATE_LIMIT_US ≤ late - T) as Hexp by lia.
  assert (p ∈ ProxyManager.available_proxies st'.1) as Hav
    by (by eapply available_after_expiry).
  split_and!; try done.
  - subst st'. rewrite get_next_proxy_rate_limited, Hkeep.
    by rewrite bool_decide_eq_true_2.
  - apply get_next_proxy_disk. intros Hnil.
    assert (p ∈ ProxyManager.expired_proxies late st.1) as Hp
      by (apply elem_of_expired_proxies; eauto).
    rewrite Hnil in Hp. by apply elem_of_nil in Hp.
  - apply get_next_proxy_can_return.
    subst st'. by rewrite (get_next_proxy_idem_state late 0 rnd).
  - apply rate_limited_not_selected. simpl. set_solver.
Qed.

(** A witness for [exclusion_expiry]: one proxy marked at time 0, probed one
    second before and exactly at the 15-minute mark. *)
Lemma exclusion_expiry_witness :
  let pm := ProxyManager.mk ["p1"; "p2"] ∅ Missing in
  let st := acquire_all [(899000000, 0%nat); (5, 1%nat)] (ProxyManager.mark_rate_limited 0 "p1" pm) in
  Forall (λ r, r ≠ Return "p1") st.2
  ∧ ProxyManager.rate_limited (ProxyManager.get_next_proxy 900000000 0 st.1).1 !! "p1" = None.
Proof.
  pose proof (exclusion_expiry (ProxyManager.mk ["p1"; "p2"] ∅ Missing) "p1" 0
                [(899000000, 0%nat); (5, 1%nat)] 900000000 0
                (AccountManager.mk [] ∅ ∅ Missing) "a" 1 (λ _, 0%nat)) as H.
  simpl in H. destruct H as (H1 & _ & H3 & _).
  - repeat constructor; simpl; unfold RATE_LIMIT_US; lia.
  - unfold RATE_LIMIT_US; lia.
  - set_solver.
  - split; [exact H1 | exact H3].
Defined.

(** C2, counterexample: the claim includes accounts. [mark_rate_limited] and
    [get_available_accounts] of the account manager read no clock, so the
    state below is what an acquire call sees at every time, also 15 minutes
    after the mark and later: the account is never a candidate again. *)
Lemma account_exclusion_never_expires :
  let am := AccountManager.mark_rate_limited "a@x.y"
              (AccountManager.mk [("a@x.y", "pw")] ∅ ∅ Missing) in
  ¬ (∀ T now : Z, T + RATE_LIMIT_US ≤ now →
       ∃ count rnd,
         "a@x.y" ∈ ((AccountManager.get_available_accounts count rnd am).2).*1).
Proof.
  intros am Hclaim. destruct (Hclaim 0 RATE_LIMIT_US) as (count & rnd & Hin); [lia|].
  revert Hin. apply rate_limited_not_selected. subst am. simpl. set_solver.
Qed.

(** ** The scheduler never runs one account twice *)
Section Scheduler.
Import Hedgeye.

Lemma selected_NoDup count rnd a :
  NoDup ((AccountManager.accounts a).*1) →
  NoDup (((AccountManager.get_available_accounts count rnd a).2).*1).
Proof.
  intros Hnd. simpl.
  assert (sample (AccountManager.available a)
            (count `min` length (AccountManager.available a)) rnd
          ⊆+ AccountManager.accounts a) as Hsub.
  { etrans; [apply sample_submseteq|]. apply sublist_submseteq, sublist_filter. }
  apply submseteq_Permutation in Hsub as [k Hk].
  assert ((AccountManager.accounts a).*1 ≡ₚ
          (sample (AccountManager.available a)
             (count `min` length (AccountManager.available a)) rnd).*1 ++ k.*1) as Hp.
  { by rewrite Hk, fmap_app. }
  rewrite Hp in Hnd. by apply NoDup_app in Hnd as [? _].
Qed.

Lemma step_inv o w : sched_inv w → sched_inv (step o w).
Proof.
  unfold sched_inv, held.
  intros (Hnd & Hrun & Hacc). destruct o as [rnd | now rnd | i rl]; [unfold step|simpl..].
  - destruct (pending w) as [|x xs] eqn:Hp; [|rewrite Hp; by split_and!].
    pose proof (selected_NoDup 2 rnd (am w) Hacc) as Hsel.
    pose proof (selected_available 2 rnd (am w)) as Hav.
    assert (AccountManager.currently_running (AccountManager.get_available_accounts 2 rnd (am w)).1
            = AccountManager.currently_running (am w)
              ∪ list_to_set (((AccountManager.get_available_accounts 2 rnd (am w)).2).*1))
      as Hcr by done.
    assert (AccountManager.accounts (AccountManager.get_available_accounts 2 rnd (am w)).1
            = AccountManager.accounts (am w)) as Hac by done.
    destruct (AccountManager.get_available_accounts 2 rnd (am w)) as [am' sel].
    simpl in *. rewrite app_nil_r in *. rewrite Hcr, Hac.
    split_and!; [| |done].
    + apply NoDup_app. split_and!; [done| |done].
      intros e He ([e' pw] & -> & Hin)%list_elem_of_fmap.
      apply Hav, elem_of_available in Hin. simpl in Hin.
      destruct Hin as (_ & _ & Hnr). by apply Hnr, Hrun.
    + intros e [He | He]%elem_of_app.
      * apply elem_of_union_l. by apply Hrun.
      * apply elem_of_union_r. by apply elem_of_list_to_set.
  - destruct (pending w) as [|[email pw] rest] eqn:Hp; [rewrite Hp; by split_and!|].
    simpl in *.
    destruct (ProxyManager.get_next_proxy now rnd (pm w)) as [pm' [proxy | msg]]; simpl.
    + rewrite fmap_app. simpl. rewrite <- app_assoc. simpl. by split_and!.
    + rewrite app_nil_r. split_and!; [|intros e He; apply Hrun; set_solver|done].
      by apply NoDup_app in Hnd as [? _].
  - destruct (in_flight w !! i) as [[email proxy]|] eqn:Hi; [|by split_and!].
    simpl.
    assert ((in_flight w).*1 ++ (pending w).*1
            ≡ₚ email :: (delete i (in_flight w)).*1 ++ (pending w).*1) as Hperm.
    { rewrite (delete_Permutation (in_flight w) i (email, proxy) Hi) at 1. done. }
    rewrite Hperm in Hnd. apply NoDup_cons in Hnd as [Hfresh Hnd].
    assert (∀ e, e ∈ (delete i (in_flight w)).*1 ++ (pending w).*1 →
                 e ∈ AccountManager.currently_running (am w)) as Hrun'.
    { intros e He. apply Hrun. rewrite Hperm. by right. }
    split_and!; [done| |].
    2: { unfold AccountManager.release_account.
         destruct rl; simpl; case_bool_decide; done. }
    intros e He. pose proof (Hrun' e He) as Hcr.
    assert (e ≠ email) as Hne by (intros ->; done).
    unfold AccountManager.release_account.
    destruct rl; simpl; case_bool_decide; simpl; set_solver.
Qed.

Lemma run_inv ops w : sched_inv w → sched_inv (run ops w).
Proof.
  revert w. induction ops as [|o ops IH]; intros w Hw; [done|].
  simpl. apply IH. by apply step_inv.
Qed.

End Scheduler.

Lemma choice_None {A} (r : nat) (l : list A) : choice r l = None ↔ l = [].
Proof.
  unfold choice. destruct l as [|x l]; [done|]. split; [|done].
  intros Hn. apply lookup_ge_None in Hn.
  pose proof (Nat.mod_upper_bound r (length (x :: l))) as Hlt. simpl in *. lia.
Qed.

(** C4 (as amended): in every interleaving of acquisitions, launches and task
    completions, no account is held by two running tasks; a request for more
    accounts than are free returns the free ones (possibly none) and no
    error; [get_next_proxy] raises exactly when every proxy is excluded. Proxies
    are not checked out. *)
Theorem no_double_checkout_accounts (pm0 : ProxyManager.t) (accounts : list (string * string))
    (rl : gset string) (f : file (gset string)) (ops : list Hedgeye.op)
    (count : nat) (rnd : nat → nat) (now : Z) (r : nat) :
  NoDup (accounts.*1) →
  let w := Hedgeye.run ops (Hedgeye.start pm0 accounts rl f) in
  NoDup ((Hedgeye.in_flight w).*1)
  ∧ length (AccountManager.get_available_accounts count rnd (Hedgeye.am w)).2
    = (count `min` length (AccountManager.available (Hedgeye.am w)))%nat
  ∧ NoDup (((AccountManager.get_available_accounts count rnd (Hedgeye.am w)).2).*1)
  ∧ ((∃ msg, (ProxyManager.get_next_proxy now r (Hedgeye.pm w)).2 = Raise msg)
     ↔ ProxyManager.available_proxies (ProxyManager.get_next_proxy now r (Hedgeye.pm w)).1 = []).
Proof.
  intros Hnd w.
  assert (sched_inv w) as (Hheld & _ & Hacc).
  { apply run_inv. unfold sched_inv, held. simpl. split_and!; [constructor|set_solver|done]. }
  split_and!.
  - unfold held in Hheld. by apply NoDup_app in Hheld as [? _].
  - simpl. apply sample_length, Nat.le_min_r.
  - by apply selected_NoDup.
  - unfold ProxyManager.get_next_proxy.
    match goal with |- context [choice r (ProxyManager.available_proxies ?x)] => set (pm2 := x) end.
    pose proof (choice_None r (ProxyManager.available_proxies pm2)) as Hc.
    destruct (choice r (ProxyManager.available_proxies pm2)) as [q|]; simpl.
    + split; [by intros [? ?]|]. intros Hnil. by apply Hc in Hnil.
    + split; [intros _; by apply Hc|]. intros _. by eexists.
Qed.

(** A witness for [no_double_checkout_accounts]: two accounts, one round. *)
Lemma no_double_checkout_accounts_witness :
  let w := Hedgeye.run [Hedgeye.Acquire (λ _, 0%nat); Hedgeye.Launch 0 0; Hedgeye.Launch 0 0]
             (Hedgeye.start (ProxyManager.mk ["p1"] ∅ Missing)
                [("a@x.y", "pa"); ("b@x.y", "pb")] ∅ Missing) in
  NoDup ((Hedgeye.in_flight w).*1).
Proof.
  refine (proj1 (no_double_checkout_accounts (ProxyManager.mk ["p1"] ∅ Missing)
            [("a@x.y", "pa"); ("b@x.y", "pb")] ∅ Missing
            [Hedgeye.Acquire (λ _, 0%nat); Hedgeye.Launch 0 0; Hedgeye.Launch 0 0]
            2 (λ _, 0%nat) 0 0 _)).
  simpl. repeat constructor; set_solver.
Defined.

(** C4, counterexample: with one proxy and two accounts, one scheduler round
    launches two tasks that run at the same time on the same proxy. *)
Lemma proxy_double_checkout :
  let w := Hedgeye.run [Hedgeye.Acquire (λ _, 0%nat); Hedgeye.Launch 0 0; Hedgeye.Launch 0 0]
             (Hedgeye.start (ProxyManager.mk ["p1"] ∅ Missing)
                [("a@x.y", "pa"); ("b@x.y", "pb")] ∅ Missing) in
  Hedgeye.in_flight w = [("a@x.y", "p1"); ("b@x.y", "p1")]
  ∧ ¬ NoDup ((Hedgeye.in_flight w).*2).
Proof.
  intros w.
  assert (Hedgeye.in_flight w = [("a@x.y", "p1"); ("b@x.y", "p1")]) as Heq
    by (vm_compute; reflexivity).
  rewrite Heq. split; [done|]. simpl. intros Hnd.
  apply NoDup_cons in Hnd as [Hnin _]. apply Hnin. left.
Qed.

(** ** Fingerprint-variant change detection (hedgeye) *)
Section Fingerprint.
Import Hedgeye.

Lemma is_new_spec a last :
  is_new a last = true ↔ last = ∅ ∨ last !! "title" ≠ Some (title a).
Proof.
  unfold is_new. rewrite orb_true_iff, !bool_decide_eq_true. naive_solver.
Qed.

Lemma last_alert_json_title a : last_alert_json a !! "title" = Some (title a).
Proof. apply lookup_insert_eq. Qed.

Lemma last_alert_json_price a : last_alert_json a !! "price" = Some (price a).
Proof.
  unfold last_alert_json. rewrite lookup_insert_ne by done. apply lookup_insert_eq.
Qed.

Lemma last_alert_json_nonempty a : last_alert_json a ≠ ∅.
Proof. apply insert_non_empty. Qed.

Lemma process_alert_dispatch a st last :
  load_last_alert (LAST_ALERT_FILE st) = Return last →
  process_alert a st =
    if is_new a last
    then mk_store (Written (last_alert_json a)) (log st ++ dispatch_events a)
    else st.
Proof.
  intros Hl. unfold process_alert. rewrite Hl. destruct (is_new a last); [|done].
  unfold run_steps, dispatch_steps, dispatch_events. simpl.
  unfold json_dump, open_w, send_telegram, send_ws. simpl.
  by rewrite <- !app_assoc.
Qed.

Lemma process_alert_idem a st :
  process_alert a (process_alert a st) = process_alert a st.
Proof.
  destruct (load_last_alert (LAST_ALERT_FILE st)) as [last|msg] eqn:Hl.
  - rewrite (process_alert_dispatch a st last Hl).
    destruct (is_new a last) eqn:Hn.
    + erewrite process_alert_dispatch; [|done].
      assert (is_new a (last_alert_json a) = false) as ->; [|done].
      apply not_true_iff_false. rewrite is_new_spec.
      intros [He | Ht]; [by apply last_alert_json_nonempty in He|].
      by rewrite last_alert_json_title in Ht.
    + rewrite (process_alert_dispatch a st last Hl). by rewrite Hn.
  - unfold process_alert. by rewrite Hl, Hl.
Qed.

Lemma process_alert_times_S n a st :
  process_alert_times (S n) a st = process_alert a st.
Proof.
  revert st. induction n as [|n IH]; intros st; [done|].
  change (process_alert_times (S (S n)) a st)
    with (process_alert_times (S n) a (process_alert a st)).
  by rewrite IH, process_alert_idem.
Qed.

Lemma alerted_app l1 l2 : alerted (l1 ++ l2) = alerted l1 ++ alerted l2.
Proof. apply omap_app. Qed.

Lemma alerted_process_alert a st :
  (length (alerted (log (process_alert a st))) ≤ length (alerted (log st)) + 1)%nat.
Proof.
  destruct (load_last_alert (LAST_ALERT_FILE st)) as [last|msg] eqn:Hl.
  - rewrite (process_alert_dispatch a st last Hl). destruct (is_new a last); [|lia].
    simpl. rewrite alerted_app, length_app. simpl. lia.
  - unfold process_alert. rewrite Hl. lia.
Qed.

(** Before its last step ran, a dispatch has left the file as it was or
    truncated. *)
Lemma crash_before_commit (k : nat) a st :
  (k < length (dispatch_steps a))%nat →
  LAST_ALERT_FILE (crash_after k (dispatch_steps a) st) = LAST_ALERT_FILE st
  ∨ LAST_ALERT_FILE (crash_after k (dispatch_steps a) st) = Truncated.
Proof.
  simpl. intros Hk.
  destruct k as [|[|[|[|k]]]]; [by left|by left|by left|by right|lia].
Qed.

Lemma process_alert_decide a st last :
  load_last_alert (LAST_ALERT_FILE st) = Return last →
  process_alert a st =
    if bool_decide (last = ∅ ∨ last !! "title" ≠ Some (title a))
    then mk_store (Written (last_alert_json a)) (log st ++ dispatch_events a)
    else st.
Proof.
  intros Hl. rewrite (process_alert_dispatch a st last Hl).
  pose proof (is_new_spec a last) as Hs.
  destruct (is_new a last); case_bool_decide; naive_solver.
Qed.

End Fingerprint.

(** C1 (as amended): under the lock, a fetched alert is dispatched (web-socket
    message, telegram message, then the file rewritten with its title, price
    and creation time) exactly when no alert is stored or the stored title
    differs from the fetched title; otherwise nothing happens. The price is
    stored but takes no part in the comparison. *)
Theorem fingerprint_detection (a : Hedgeye.alert) (st : Hedgeye.store)
    (last : gmap string string) :
  Hedgeye.load_last_alert (Hedgeye.LAST_ALERT_FILE st) = Return last →
  Hedgeye.process_alert a st =
    if bool_decide (last = ∅ ∨ last !! "title" ≠ Some (Hedgeye.title a))
    then Hedgeye.mk_store (Written (Hedgeye.last_alert_json a))
           (Hedgeye.log st ++ dispatch_events a)
    else st.
Proof. apply process_alert_decide. Qed.

(** A witness for [fingerprint_detection]: the spec's example, stored
    ("Buy AAPL", "150") and fetched ("Sell AAPL", "149"). *)
Lemma fingerprint_detection_witness :
  let stored := Hedgeye.last_alert_json (Hedgeye.mk_alert "Buy AAPL" "150" "t0") in
  let a := Hedgeye.mk_alert "Sell AAPL" "149" "t1" in
  Hedgeye.process_alert a (Hedgeye.mk_store (Written stored) []) =
    if bool_decide (stored = ∅ ∨ stored !! "title" ≠ Some "Sell AAPL")
    then Hedgeye.mk_store (Written (Hedgeye.last_alert_json a)) (dispatch_events a)
    else Hedgeye.mk_store (Written stored) [].
Proof.
  exact (fingerprint_detection (Hedgeye.mk_alert "Sell AAPL" "149" "t1")
           (Hedgeye.mk_store
              (Written (Hedgeye.last_alert_json (Hedgeye.mk_alert "Buy AAPL" "150" "t0"))) [])
           _ eq_refl).
Defined.

(** The spec's two examples, evaluated. *)
Example fingerprint_same_alert :
  let st := Hedgeye.mk_store
              (Written (Hedgeye.last_alert_json (Hedgeye.mk_alert "Buy AAPL" "150" "t0"))) [] in
  Hedgeye.process_alert (Hedgeye.mk_alert "Buy AAPL" "150" "t1") st = st.
Proof.
  intros st. erewrite process_alert_decide; [|done].
  rewrite bool_decide_eq_false_2; [done|].
  intros [He | Ht]; [by apply last_alert_json_nonempty in He|].
  by rewrite last_alert_json_title in Ht.
Qed.

Example fingerprint_new_alert :
  let st := Hedgeye.mk_store
              (Written (Hedgeye.last_alert_json (Hedgeye.mk_alert "Buy AAPL" "150" "t0"))) [] in
  Hedgeye.alerted (Hedgeye.log (Hedgeye.process_alert (Hedgeye.mk_alert "Sell AAPL" "149" "t1") st))
  = ["Sell AAPL"].
Proof.
  intros st. erewrite process_alert_decide; [|done].
  rewrite bool_decide_eq_true_2; [done|].
  right. by rewrite last_alert_json_title.
Qed.

(** C1, counterexample: stored ("Buy AAPL", "150"), fetched ("Buy AAPL",
    "151"). The (title, price) pairs differ, yet nothing is dispatched and the
    stored alert keeps the old price. *)
Lemma price_change_not_detected :
  let stored := Hedgeye.last_alert_json (Hedgeye.mk_alert "Buy AAPL" "150" "t0") in
  let a := Hedgeye.mk_alert "Buy AAPL" "151" "t1" in
  let st := Hedgeye.mk_store (Written stored) [] in
  (Some (Hedgeye.title a), Some (Hedgeye.price a)) ≠ (stored !! "title", stored !! "price")
  ∧ Hedgeye.process_alert a st = st.
Proof.
  intros stored a st. split.
  - subst stored. rewrite last_alert_json_title, last_alert_json_price. by intros [=].
  - erewrite process_alert_decide; [|done].
    rewrite bool_decide_eq_false_2; [done|].
    intros [He | Ht]; [by apply last_alert_json_nonempty in He|].
    subst stored. by rewrite last_alert_json_title in Ht.
Qed.

Lemma run_steps_app {W} (l1 l2 : list (W → W)) (w : W) :
  run_steps (l1 ++ l2) w = run_steps l2 (run_steps l1 w).
Proof. apply foldl_app. Qed.

(** ** Set-variant change detection (bearcave, IBD) *)
Section BearcaveFacts.
Import Bearcave.

Lemma new_posts_detect seen posts : new_posts seen posts = detect seen posts.
Proof.
  unfold new_posts, detect. apply list_filter_iff. intros p.
  unfold is_new_post, absent, identifier, truthy.
  destruct (canonical_url p) as [u|]; [|done].
  repeat case_bool_decide; simpl; naive_solver.
Qed.

Lemma run_pairs ps w :
  run_steps (flat_map (λ q, [send_to_telegram q; add q]) ps) w
  = mk (processed_urls w ∪ ids ps) (disk w) (log w ++ (Alert <$> ps)).
Proof.
  revert w. induction ps as [|p ps IH]; intros w.
  - destruct w as [s d l]. unfold run_steps, ids. simpl.
    by rewrite app_nil_r, (right_id_L ∅ (∪)).
  - change (run_steps (flat_map (λ q, [send_to_telegram q; add q]) (p :: ps)) w)
      with (run_steps (flat_map (λ q, [send_to_telegram q; add q]) ps)
              (add p (send_to_telegram p w))).
    rewrite IH. unfold add, send_to_telegram, ids. simpl.
    destruct (canonical_url p) as [u|]; simpl.
    + rewrite <- app_assoc. simpl. f_equal. set_solver.
    + rewrite <- app_assoc. done.
Qed.

Lemma iteration_complete posts w :
  iteration posts w =
    match new_posts (processed_urls w) posts with
    | [] => w
    | new =>
        let s := processed_urls w ∪ ids new in
        mk s (Written s) (log w ++ (Alert <$> new) ++ [Saved s])
    end.
Proof.
  unfold iteration, iteration_steps.
  destruct (new_posts (processed_urls w) posts) as [|p ps]; [done|].
  rewrite run_steps_app, run_pairs. unfold run_steps. simpl.
  unfold json_dump, open_w. simpl. by rewrite <- app_assoc.
Qed.

Lemma alerts_app l1 l2 : alerts (l1 ++ l2) = alerts l1 ++ alerts l2.
Proof. apply omap_app. Qed.

Lemma alerts_Alert ps : alerts (Alert <$> ps) = ps.
Proof. induction ps as [|p ps IH]; [done|]. simpl. by rewrite <- IH at 2. Qed.

Lemma iteration_alerts posts w :
  alerts (log (iteration posts w))
  = alerts (log w) ++ new_posts (processed_urls w) posts.
Proof.
  rewrite iteration_complete.
  destruct (new_posts (processed_urls w) posts) as [|p ps]; [by rewrite app_nil_r|].
  cbv beta iota zeta. cbn [log].
  rewrite !alerts_app, alerts_Alert. simpl. by rewrite app_nil_r.
Qed.

Lemma iteration_processed posts w :
  processed_urls (iteration posts w)
  = processed_urls w ∪ ids (new_posts (processed_urls w) posts).
Proof.
  rewrite iteration_complete.
  destruct (new_posts (processed_urls w) posts) as [|p ps]; [|done].
  unfold ids. simpl. set_solver.
Qed.

(** After an iteration the file agrees with the set in memory, provided it
    did before. *)
Lemma iteration_synced posts w :
  load_processed_urls (disk w) = Return (processed_urls w) →
  load_processed_urls (disk (iteration posts w))
  = Return (processed_urls (iteration posts w)).
Proof.
  intros Hs. rewrite iteration_complete.
  by destruct (new_posts (processed_urls w) posts).
Qed.

End BearcaveFacts.

Section IbdFacts.
Import Ibd.

Lemma run_trade_pairs ts w :
  run_steps (flat_map (λ q, [send_to_telegram q; add q]) ts) w
  = mk (processed_trades w ∪ trade_ids ts) (disk w) (log w ++ (Alert <$> ts)) (network w).
Proof.
  revert w. induction ts as [|t ts IH]; intros w.
  - destruct w as [s d l n]. unfold run_steps, trade_ids. simpl.
    by rewrite app_nil_r, (right_id_L ∅ (∪)).
  - change (run_steps (flat_map (λ q, [send_to_telegram q; add q]) (t :: ts)) w)
      with (run_steps (flat_map (λ q, [send_to_telegram q; add q]) ts)
              (add t (send_to_telegram t w))).
    rewrite IH. unfold add, send_to_telegram, trade_ids. simpl.
    rewrite <- app_assoc. simpl. f_equal. set_solver.
Qed.

Lemma trades_iteration_complete trades w :
  iteration (Some trades) w =
    match new_trades (processed_trades w) trades with
    | [] => w
    | new =>
        let s := processed_trades w ∪ trade_ids new in
        mk s (Written s) (log w ++ (Alert <$> new) ++ [Saved s]) (network w)
    end.
Proof.
  unfold iteration, iteration_steps.
  destruct (new_trades (processed_trades w) trades) as [|p ps]; [done|].
  rewrite run_steps_app, run_trade_pairs. unfold run_steps. simpl.
  unfold json_dump, open_w. simpl. by rewrite <- app_assoc.
Qed.

Lemma trade_alerts_app l1 l2 : alerts (l1 ++ l2) = alerts l1 ++ alerts l2.
Proof. apply omap_app. Qed.

Lemma trade_alerts_Alert ts : alerts (Alert <$> ts) = ts.
Proof. induction ts as [|t ts IH]; [done|]. simpl. by rewrite <- IH at 2. Qed.

End IbdFacts.

(** C3: in both set-variant scrapers, what one iteration dispatches is exactly
    the fetched items whose identifier is not in the seen-set, in fetch order
    (detection only reads the set); afterwards the set in memory, and the
    file, hold the old set united with the dispatched identifiers. *)
Theorem set_detection (posts : list Bearcave.post) (w : Bearcave.world)
    (trades : list Ibd.trade) (v : Ibd.world) :
  Bearcave.load_processed_urls (Bearcave.disk w) = Return (Bearcave.processed_urls w) →
  Ibd.load_processed_trades (Ibd.disk v) = Return (Ibd.processed_trades v) →
  let S := Bearcave.processed_urls w in
  let w' := Bearcave.iteration posts w in
  let T := Ibd.processed_trades v in
  let new := filter (λ t, Ibd.str (Ibd.id t) ∉ T) trades in
  let v' := Ibd.iteration (Some trades) v in
  Bearcave.new_posts S posts = detect S posts
  ∧ Bearcave.alerts (Bearcave.log w') = Bearcave.alerts (Bearcave.log w) ++ detect S posts
  ∧ Bearcave.processed_urls w' = S ∪ ids (detect S posts)
  ∧ Bearcave.load_processed_urls (Bearcave.disk w') = Return (S ∪ ids (detect S posts))
  ∧ Ibd.alerts (Ibd.log v') = Ibd.alerts (Ibd.log v) ++ new
  ∧ Ibd.processed_trades v' = T ∪ trade_ids new
  ∧ Ibd.load_processed_trades (Ibd.disk v') = Return (T ∪ trade_ids new).
Proof.
  intros Hw Hv S w' T new v'.
  pose proof (iteration_synced posts w Hw) as Hsync. fold w' in Hsync.
  assert (Bearcave.processed_urls w' = S ∪ ids (detect S posts)) as Hp.
  { subst w' S. by rewrite iteration_processed, new_posts_detect. }
  split_and!.
  - apply new_posts_detect.
  - subst w' S. by rewrite iteration_alerts, new_posts_detect.
  - done.
  - by rewrite Hsync, Hp.
  - subst v'. rewrite trades_iteration_complete. fold T. unfold Ibd.new_trades. fold new.
    destruct new as [|t ts]; [by rewrite app_nil_r|].
    cbv beta iota zeta. cbn [Ibd.log].
    rewrite !trade_alerts_app, trade_alerts_Alert. simpl. by rewrite app_nil_r.
  - subst v'. rewrite trades_iteration_complete. fold T. unfold Ibd.new_trades. fold new.
    destruct new as [|t ts]; [|done]. unfold trade_ids. simpl. set_solver.
  - subst v'. rewrite trades_iteration_complete. fold T. unfold Ibd.new_trades. fold new.
    destruct new as [|t ts]; [|done].
    unfold trade_ids. simpl. rewrite (right_id_L ∅ (∪)). done.
Qed.

(** A witness for [set_detection]: the spec's example, seen-set {a, b} and
    fetched [a; b; c]. *)
Lemma set_detection_witness :
  let post u := Bearcave.mk_post (Some u) "t" in
  let w := Bearcave.mk {["a"; "b"]} (Written {["a"; "b"]}) [] in
  let w' := Bearcave.iteration [post "a"; post "b"; post "c"] w in
  Bearcave.alerts (Bearcave.log w') = [post "c"]
  ∧ Bearcave.processed_urls w' = {["a"; "b"; "c"]}
  ∧ Bearcave.load_processed_urls (Bearcave.disk w') = Return {["a"; "b"; "c"]}.
Proof.
  intros post w w'.
  destruct (set_detection [post "a"; post "b"; post "c"] w
              [] (Ibd.mk ∅ Missing [] (Ibd.mk_net [] [] [] Missing)) eq_refl eq_refl)
    as (_ & Ha & Hp & Hd & _).
  assert (detect {["a"; "b"]} [post "a"; post "b"; post "c"] = [post "c"]) as Hdet
    by (vm_compute; reflexivity).
  fold w' in Ha, Hp, Hd. simpl in Ha, Hp, Hd. rewrite Hdet in Ha, Hp, Hd.
  assert ({["a"; "b"]} ∪ ids [post "c"] = ({["a"; "b"; "c"]} : gset string)) as Hu.
  { unfold ids. simpl. set_solver. }
  rewrite Hu in Hp, Hd. by split_and!.
Defined.

(** ** Commit after send, and crashes before the commit *)
Section CrashFacts.
Import Bearcave.

Lemma run_keeps_file steps w :
  Forall keeps_file steps →
  disk (run_steps steps w) = disk w ∨ disk (run_steps steps w) = Truncated.
Proof.
  intros Hall. revert w. induction Hall as [|f steps Hf _ IH]; intros w; [by left|].
  change (run_steps (f :: steps) w) with (run_steps steps (f w)).
  destruct (IH (f w)) as [-> | ->]; [apply Hf | by right].
Qed.

Lemma pairs_keep_file ps :
  Forall keeps_file (flat_map (λ q, [send_to_telegram q; add q]) ps).
Proof.
  induction ps as [|p ps IH]; [constructor|]. simpl.
  constructor; [by left|]. constructor; [|done].
  intros w. unfold add. destruct (canonical_url p); by left.
Qed.

Lemma iteration_crash_disk k posts w :
  (k < length (iteration_steps posts w))%nat →
  disk (iteration_crash k posts w) = disk w
  ∨ disk (iteration_crash k posts w) = Truncated.
Proof.
  unfold iteration_crash, crash_after, iteration_steps.
  destruct (new_posts (processed_urls w) posts) as [|p ps]; [simpl; lia|].
  set (pairs := flat_map (λ q, [send_to_telegram q; add q]) (p :: ps)).
  intros Hk. rewrite length_app in Hk. simpl in Hk.
  change [open_w; json_dump] with ([open_w] ++ [json_dump]).
  rewrite app_assoc, take_app_le by (rewrite length_app; simpl; lia).
  apply run_keeps_file, Forall_take, Forall_app. split; [apply pairs_keep_file|].
  constructor; [by right | constructor].
Qed.

Lemma restart_after_crash k posts w :
  (k < length (iteration_steps posts w))%nat →
  load_processed_urls (disk w) = Return (processed_urls w) →
  match restart (iteration_crash k posts w) with
  | Return w' =>
      alerts (log (iteration posts w')) = new_posts (processed_urls w) posts
  | Raise _ => disk (iteration_crash k posts w) = Truncated
  end.
Proof.
  intros Hk Hs. unfold restart.
  destruct (iteration_crash_disk k posts w Hk) as [-> | ->]; [|done].
  rewrite Hs. by rewrite iteration_alerts.
Qed.

End CrashFacts.

(** C5 (as amended): in both variants the file is rewritten only as the last
    step of a dispatch, after the notifier sends; a crash before that step
    leaves the old file or a truncated one. After such a crash the hedgeye
    scraper dispatches at most one alert again, however many tasks fetch it;
    the bearcave scraper commits once per batch, so on restart it dispatches
    the whole batch of new posts again. *)
Theorem commit_after_send (a : Hedgeye.alert) (st : Hedgeye.store) (n k1 : nat)
    (posts : list Bearcave.post) (w : Bearcave.world) (k2 : nat) :
  (k1 < length (Hedgeye.dispatch_steps a))%nat →
  (k2 < length (Bearcave.iteration_steps posts w))%nat →
  Bearcave.load_processed_urls (Bearcave.disk w) = Return (Bearcave.processed_urls w) →
  let crashed := crash_after k1 (Hedgeye.dispatch_steps a) st in
  let new := Bearcave.new_posts (Bearcave.processed_urls w) posts in
  (Hedgeye.log (Hedgeye.process_alert a st) = Hedgeye.log st
   ∨ Hedgeye.log (Hedgeye.process_alert a st) = Hedgeye.log st ++ dispatch_events a)
  ∧ (Hedgeye.LAST_ALERT_FILE crashed = Hedgeye.LAST_ALERT_FILE st
     ∨ Hedgeye.LAST_ALERT_FILE crashed = Truncated)
  ∧ (length (Hedgeye.alerted (Hedgeye.log
       (Hedgeye.process_alert_times n a
          (Hedgeye.mk_store (Hedgeye.LAST_ALERT_FILE crashed) [])))) ≤ 1)%nat
  ∧ Bearcave.log (Bearcave.iteration posts w)
    = Bearcave.log w ++ (Bearcave.Alert <$> new)
      ++ [Bearcave.Saved (Bearcave.processed_urls w ∪ ids new)]
  ∧ (Bearcave.disk (Bearcave.iteration_crash k2 posts w) = Bearcave.disk w
     ∨ Bearcave.disk (Bearcave.iteration_crash k2 posts w) = Truncated)
  ∧ match Bearcave.restart (Bearcave.iteration_crash k2 posts w) with
    | Return w' => Bearcave.alerts (Bearcave.log (Bearcave.iteration posts w')) = new
    | Raise _ => Bearcave.disk (Bearcave.iteration_crash k2 posts w) = Truncated
    end.
Proof.
  intros Hk1 Hk2 Hs crashed new. split_and!.
  - unfold Hedgeye.process_alert.
    destruct (Hedgeye.load_last_alert _) as [last|msg] eqn:Hl; [|by left].
    pose proof (process_alert_dispatch a st last Hl) as Hd.
    unfold Hedgeye.process_alert in Hd. rewrite Hl in Hd. rewrite Hd.
    destruct (Hedgeye.is_new a last); [by right | by left].
  - by apply crash_before_commit.
  - destruct n as [|n]; [simpl; lia|]. rewrite process_alert_times_S.
    etrans; [apply alerted_process_alert|]. simpl. lia.
  - rewrite iteration_complete. fold new.
    unfold Bearcave.iteration_steps in Hk2. fold new in Hk2.
    destruct new; [simpl in Hk2; lia | done].
  - by apply iteration_crash_disk.
  - by apply restart_after_crash.
Qed.

(** A witness for [commit_after_send]: a first alert, and a batch of two new
    posts; both crashes happen after every notifier send and before the
    file is written. *)
Lemma commit_after_send_witness :
  let a := Hedgeye.mk_alert "Buy AAPL $150" "150" "t0" in
  let post u := Bearcave.mk_post (Some u) "t" in
  let w := Bearcave.mk ∅ Missing [] in
  Bearcave.disk (Bearcave.iteration_crash 4 [post "u1"; post "u2"] w) = Missing
  ∨ Bearcave.disk (Bearcave.iteration_crash 4 [post "u1"; post "u2"] w) = Truncated.
Proof.
  intros a post w.
  refine (proj1 (proj2 (proj2 (proj2 (proj2
    (commit_after_send a (Hedgeye.mk_store Missing []) 3 2
       [post "u1"; post "u2"] w 4 _ _ _)))))).
  - simpl. lia.
  - vm_compute. lia.
  - reflexivity.
Defined.

(** C5, counterexample: two new posts are alerted, the process stops before
    [save_processed_urls]; after the restart the same two posts are fetched
    and both are alerted a second time. *)
Lemma batch_crash_two_duplicates :
  let post u := Bearcave.mk_post (Some u) "t" in
  let posts := [post "u1"; post "u2"] in
  let crashed := Bearcave.iteration_crash 4 posts (Bearcave.mk ∅ Missing []) in
  ∃ w', Bearcave.restart crashed = Return w'
    ∧ Bearcave.duplicates (Bearcave.alerts (Bearcave.log crashed))
        (Bearcave.alerts (Bearcave.log (Bearcave.iteration posts w')))
      = [post "u1"; post "u2"]
    ∧ ¬ (length (Bearcave.duplicates (Bearcave.alerts (Bearcave.log crashed))
           (Bearcave.alerts (Bearcave.log (Bearcave.iteration posts w')))) ≤ 1)%nat.
Proof.
  intros post posts crashed. exists (Bearcave.mk ∅ Missing []).
  assert (Bearcave.duplicates (Bearcave.alerts (Bearcave.log crashed))
            (Bearcave.alerts (Bearcave.log (Bearcave.iteration posts (Bearcave.mk ∅ Missing []))))
          = [post "u1"; post "u2"]) as Hd by (vm_compute; reflexivity).
  split_and!; [by vm_compute | done |]. rewrite Hd. simpl. lia.
Qed.

(** ** Persistence of the exclusion collections *)
Section Persistence.

Lemma get_next_proxy_synced now rnd pm :
  proxy_synced pm → proxy_synced (ProxyManager.get_next_proxy now rnd pm).1.
Proof.
  intros Hs. destruct (ProxyManager.expired_proxies now pm) as [|p ps] eqn:He.
  - by rewrite (get_next_proxy_disk_same now rnd pm He).
  - unfold proxy_synced. by rewrite get_next_proxy_disk by (by rewrite He).
Qed.

Lemma step_synced o w :
  proxy_synced (Hedgeye.pm w) ∧ account_synced (Hedgeye.am w) →
  proxy_synced (Hedgeye.pm (Hedgeye.step o w))
  ∧ account_synced (Hedgeye.am (Hedgeye.step o w)).
Proof.
  intros [Hp Ha]. destruct o as [rnd | now rnd | i rl]; simpl.
  - by destruct (Hedgeye.pending w).
  - destruct (Hedgeye.pending w) as [|[email pw] rest]; [done|].
    pose proof (get_next_proxy_synced now rnd _ Hp) as Hp'.
    by destruct (ProxyManager.get_next_proxy now rnd (Hedgeye.pm w)) as [pm' [proxy|msg]].
  - destruct (Hedgeye.in_flight w !! i) as [[email proxy]|]; [|done].
    unfold AccountManager.release_account.
    destruct rl; simpl; case_bool_decide; done.
Qed.

Lemma run_synced ops w :
  proxy_synced (Hedgeye.pm w) ∧ account_synced (Hedgeye.am w) →
  proxy_synced (Hedgeye.pm (Hedgeye.run ops w))
  ∧ account_synced (Hedgeye.am (Hedgeye.run ops w)).
Proof.
  revert w. induction ops as [|o ops IH]; intros w Hw; [done|].
  simpl. apply IH. by apply step_synced.
Qed.

End Persistence.

(** C8 (as amended): whenever an operation on the proxy or account exclusion
    collection has completed (mark, expiry pruning, daily clear), the file
    holds the collection in memory or, after a clear, is absent with the
    collection empty; the seen-set file agrees with the set in memory after
    each completed iteration (one write per batch of new posts). A write opens
    the file in place and then dumps the document. *)
Theorem persistence_after_mutation (proxies : list string) (pf : file (gmap string Z))
    (prl : gmap string Z) (accounts : list (string * string)) (af : file (gset string))
    (arl : gset string) (ops : list Hedgeye.op) (now : Z) (proxy email : string)
    (posts : list Bearcave.post) (b : Bearcave.world) :
  ProxyManager._load_rate_limited pf = Return prl →
  AccountManager._load_rate_limited af = Return arl →
  Bearcave.load_processed_urls (Bearcave.disk b) = Return (Bearcave.processed_urls b) →
  let w := Hedgeye.run ops (Hedgeye.start (ProxyManager.mk proxies prl pf) accounts arl af) in
  proxy_synced (Hedgeye.pm w)
  ∧ account_synced (Hedgeye.am w)
  ∧ ProxyManager.disk (ProxyManager.mark_rate_limited now proxy (Hedgeye.pm w))
    = Written (<[proxy := now]> (ProxyManager.rate_limited (Hedgeye.pm w)))
  ∧ AccountManager.disk (AccountManager.mark_rate_limited email (Hedgeye.am w))
    = Written (AccountManager.rate_limited (Hedgeye.am w) ∪ {[email]})
  ∧ proxy_synced (Hedgeye.pm (Hedgeye.end_of_day w))
  ∧ account_synced (Hedgeye.am (Hedgeye.end_of_day w))
  ∧ Bearcave.load_processed_urls (Bearcave.disk (Bearcave.iteration posts b))
    = Return (Bearcave.processed_urls (Bearcave.iteration posts b))
  ∧ ProxyManager.mark_rate_limited now proxy (Hedgeye.pm w)
    = ProxyManager.json_dump
        (ProxyManager.open_w (ProxyManager.set_entry now proxy (Hedgeye.pm w))).
Proof.
  intros Hp Ha Hb w.
  destruct (run_synced ops (Hedgeye.start (ProxyManager.mk proxies prl pf) accounts arl af))
    as [Hpw Haw]; [by split|]. fold w in Hpw, Haw.
  split_and!; try done.
  - unfold proxy_synced. simpl. by destruct (ProxyManager.disk (Hedgeye.pm w)).
  - unfold account_synced. simpl. by destruct (AccountManager.disk (Hedgeye.am w)).
  - by apply iteration_synced.
Qed.

(** A witness for [persistence_after_mutation]: the managers are built from
    existing files, one task reports a rate limit, the next round prunes. *)
Lemma persistence_after_mutation_witness :
  let w := Hedgeye.run
             [Hedgeye.Acquire (λ _, 0%nat); Hedgeye.Launch 10 0; Hedgeye.Finish 0 (Some 20);
              Hedgeye.Acquire (λ _, 0%nat); Hedgeye.Launch 2000000000 0]
             (Hedgeye.start (ProxyManager.mk ["p1"; "p2"] {["p2" := 5]} (Written {["p2" := 5]}))
                [("a@x.y", "pa"); ("b@x.y", "pb")] ∅ Missing) in
  proxy_synced (Hedgeye.pm w) ∧ account_synced (Hedgeye.am w).
Proof.
  intros w.
  destruct (persistence_after_mutation ["p1"; "p2"] (Written {["p2" := 5]}) {["p2" := 5]}
              [("a@x.y", "pa"); ("b@x.y", "pb")] Missing ∅
              [Hedgeye.Acquire (λ _, 0%nat); Hedgeye.Launch 10 0; Hedgeye.Finish 0 (Some 20);
               Hedgeye.Acquire (λ _, 0%nat); Hedgeye.Launch 2000000000 0]
              0 "p1" "a@x.y" [] (Bearcave.mk ∅ Missing [])
              eq_refl eq_refl eq_refl) as (H1 & H2 & _).
  split; [exact H1 | exact H2].
Defined.

(** C8, counterexample: [mark_rate_limited] stopped between [open(..., "w")]
    and [json.dump]. The file is neither the old document nor the new one: it
    is truncated, the entry for "p2" is gone from disk, and the next start
    fails to read it. *)
Lemma write_not_atomic :
  let pm := ProxyManager.mk ["p1"; "p2"] {["p2" := 5]} (Written {["p2" := 5]}) in
  let crashed := crash_after 2 (ProxyManager.mark_steps 10 "p1") pm in
  ProxyManager.disk crashed = Truncated
  ∧ ProxyManager.disk crashed ≠ ProxyManager.disk pm
  ∧ ProxyManager.disk crashed ≠ ProxyManager.disk (ProxyManager.mark_rate_limited 10 "p1" pm)
  ∧ ProxyManager.__init__ ["p1"; "p2"] (ProxyManager.disk crashed) = Raise "JSONDecodeError".
Proof. intros pm crashed. by split_and!. Qed.

(** ** Window gating *)
Section Gating.







Lemma ibd_calls_app l1 l2 : Ibd.calls (l1 ++ l2) = Ibd.calls l1 ++ Ibd.calls l2.
Proof. apply omap_app. Qed.

Lemma ibd_calls_Alert ts : Ibd.calls (Ibd.Alert <$> ts) = [].
Proof. by induction ts. Qed.

Lemma ibd_iteration_calls data w :
  Ibd.calls (Ibd.log (Ibd.iteration data w)) = Ibd.calls (Ibd.log w).
Proof.
  destruct data as [trades|]; [|done]. rewrite trades_iteration_complete.
  destruct (Ibd.new_trades (Ibd.processed_trades w) trades) as [|p ps]; [done|].
  cbv beta iota zeta. cbn [Ibd.log].
  rewrite !ibd_calls_app, ibd_calls_Alert. simpl. by rewrite app_nil_r.
Qed.

(** Every call the polling loop makes passes the token it was started
    with, one call per reading inside the window. *)
Lemma inner_loop_calls closesAt token clock w :
  Ibd.calls (Ibd.log (Ibd.inner_loop closesAt token clock w))
  = Ibd.calls (Ibd.log w) ++ replicate (length (while_open closesAt clock)) token.
Proof.
  revert w. induction clock as [|now clock IH]; intros w; simpl.
  - by rewrite app_nil_r.
  - case_bool_decide; [by rewrite app_nil_r|].
    destruct (Ibd.fetch_trades (Ibd.network w) token) as [data n'].
    rewrite IH, ibd_iteration_calls. simpl. rewrite ibd_calls_app. simpl.
    by rewrite <- app_assoc.
Qed.


End Gating.




(** ** Token refresh in the IBD scraper *)

(** C9: when [fetch_trades] receives HTTP 426 and the token request yields a
    non-empty token, the token is saved and the fetch is made again, once,
    with the new token, whose answer is returned; [fetch_trades] hands back
    trades only, so the polling loop goes on with its own [token] binding: the
    rest of the loop runs with the startup token while the token file holds
    the new one, and every call the loop makes, before or after a refresh,
    passes the startup token. *)
Theorem token_refresh_not_propagated (closesAt : Z) (token new_token : string)
    (now : Z) (clock : list Z) (w : Ibd.world)
    (trades : list Ibd.trade) (gs : list Ibd.response) (ps : list (option string)) :
  new_token ≠ EmptyString →
  ¬ now > closesAt →
  Ibd.gets (Ibd.network w) = Ibd.Status 426 :: Ibd.Ok200 trades :: gs →
  Ibd.posts (Ibd.network w) = Some new_token :: ps →
  let refreshed :=
    Ibd.mk_net gs ps
      (Ibd.requests (Ibd.network w) ++ [Ibd.Get token; Ibd.PostToken; Ibd.Get new_token])
      (Written new_token) in
  Ibd.fetch_trades (Ibd.network w) token = (Some trades, refreshed)
  ∧ Ibd.inner_loop closesAt token (now :: clock) w
    = Ibd.inner_loop closesAt token clock
        (Ibd.iteration (Some trades)
           (Ibd.mk (Ibd.processed_trades w) (Ibd.disk w)
              (Ibd.log w ++ [Ibd.Call token]) refreshed))
  ∧ Ibd.calls (Ibd.log (Ibd.inner_loop closesAt token (now :: clock) w))
    = Ibd.calls (Ibd.log w)
      ++ replicate (length (while_open closesAt (now :: clock))) token.
Proof.
  intros Hnt Hnow Hg Hp refreshed.
  assert (Ibd.fetch_trades (Ibd.network w) token = (Some trades, refreshed)) as Hf.
  { unfold Ibd.fetch_trades. rewrite Hg, Hp. simpl.
    rewrite bool_decide_eq_true_2 by done. subst refreshed.
    by rewrite <- !app_assoc. }
  split_and!.
  - done.
  - simpl. rewrite bool_decide_eq_false_2 by done. by rewrite Hf.
  - apply inner_loop_calls.
Qed.

(** A witness for [token_refresh_not_propagated]: the first poll meets an
    expired token, the second poll is made with the startup token again. *)
Lemma token_refresh_not_propagated_witness :
  let n := Ibd.mk_net [Ibd.Status 426; Ibd.Ok200 []; Ibd.Ok200 []] [Some "T1"] [] (Written "T0") in
  let w := Ibd.mk ∅ Missing [] n in
  Ibd.requests (Ibd.network (Ibd.inner_loop 100 "T0" [1; 2] w))
  = [Ibd.Get "T0"; Ibd.PostToken; Ibd.Get "T1"; Ibd.Get "T0"]
  ∧ Ibd.calls (Ibd.log (Ibd.inner_loop 100 "T0" [1; 2] w)) = ["T0"; "T0"].
Proof.
  intros n w.
  destruct (token_refresh_not_propagated 100 "T0" "T1" 1 [2] w [] [Ibd.Ok200 []] [])
    as (_ & Hloop & Hcalls); [done | lia | done | done |].
  split; [rewrite Hloop; by vm_compute | exact Hcalls].
Defined.

(** The same for the whole of [run_scraper]: the token every call passes is
    the one obtained before the loops. *)
Lemma run_scraper_calls (closesAt : Z) (clock : list Z) (w : Ibd.world) (t : string) :
  (Ibd.get_new_token (Ibd.network w)).1 = Some t →
  t ≠ EmptyString →
  Ibd.calls (Ibd.log (Ibd.run_scraper closesAt clock w))
  = Ibd.calls (Ibd.log w) ++ replicate (length (while_open closesAt clock)) t.
Proof.
  intros Ht Hne. unfold Ibd.run_scraper.
  destruct (Ibd.get_new_token (Ibd.network w)) as [tok n1]. simpl in Ht. subst tok.
  rewrite bool_decide_eq_true_2 by done. by rewrite inner_loop_calls.
Qed.

(** ** Signal classification and ticker extraction (hedgeye) *)
Section Classification.
Import Hedgeye.

(** *** Character classes *)

Lemma elem_of_span r c : (r.1 ≤ c ≤ r.2)%N → c ∈ span r.
Proof.
  intros [H1 H2]. unfold span. apply list_elem_of_fmap.
  exists (N.to_nat (c - r.1)). split; [lia|]. apply elem_of_seq. lia.
Qed.

Lemma in_ranges_span t c : in_ranges t c = true → c ∈ t ≫= span.
Proof.
  unfold in_ranges. rewrite existsb_exists. intros (r & Hr & Hc).
  apply list_elem_of_bind. exists r. split; [|by apply list_elem_of_In].
  apply elem_of_span. apply andb_true_iff in Hc as [?%N.leb_le ?%N.leb_le]. done.
Qed.

Lemma forallb_elem_of (p : N → bool) l c : forallb p l = true → c ∈ l → p c = true.
Proof. rewrite forallb_forall. intros H ?%list_elem_of_In. by apply H. Qed.

(** [\s] matches exactly the white-space characters. *)
Lemma is_space_white c : is_space c = true ↔ c ∈ white_space.
Proof.
  split.
  - intros H%in_ranges_span. exact H.
  - apply (forallb_elem_of is_space). by vm_compute.
Qed.







(** [sub in s] holds exactly when [sub] occurs in [s]. *)
Lemma starts_with_spec sub s : starts_with sub s = true ↔ ∃ post, s = sub ++ post.
Proof.
  revert s. induction sub as [|a sub IH]; intros s; simpl.
  - split; [eauto|done].
  - destruct s as [|b s]; [split; [done|by intros [? ?]]|].
    rewrite andb_true_iff, bool_decide_eq_true, IH. split.
    + intros [-> [post ->]]. eauto.
    + intros [post [= -> ->]]. eauto.
Qed.

Lemma contains_spec sub s : contains sub s = true ↔ occurs sub s.
Proof.
  unfold occurs. induction s as [|c s IH]; simpl.
  - rewrite orb_false_r, starts_with_spec. split.
    + intros [post ->]. by exists [], post.
    + intros (pre & post & Heq). symmetry in Heq.
      apply app_eq_nil in Heq as [-> Heq]. eauto.
  - rewrite orb_true_iff, starts_with_spec, IH. split.
    + intros [[post ->] | (pre & post & ->)]; [by exists [], post|].
      by exists (c :: pre), post.
    + intros ([|x pre] & post & Heq); [left; eauto|].
      injection Heq as -> ->. right. eauto.
Qed.

(** *** The repetition operator *)






(** *** The ticker pattern at one position *)






(** *** Leftmost search *)

Lemma last_or_snoc prev pre c : last_or prev (pre ++ [c]) = Some c.
Proof. unfold last_or. by rewrite last_snoc. Qed.



End Classification.



(** *** Lowercasing *)








(** The classification of some titles, evaluated. *)
Example classify_both : Hedgeye.signal_type "Do not sell; BUY" = "Buy".
Proof. reflexivity. Qed.

Example classify_sell : Hedgeye.signal_type "Selling TSLA $200" = "Sell".
Proof. reflexivity. Qed.

Example ticker_found : Hedgeye.ticker "Buy AAPL  $150" = "AAPL".
Proof. reflexivity. Qed.

Example ticker_too_long : Hedgeye.ticker "Buy GOOGLE $150" = "-".
Proof. reflexivity. Qed.

Example ticker_leftmost : Hedgeye.ticker "xAB $1, CD_ $2, E$ and F $" = "E".
Proof. reflexivity. Qed.

(** Characters outside ASCII. The bytes 195 169 are U+00E9, 226 130 172 are
    U+20AC and 240 159 152 128 are U+1F600. *)
Example code_points_beyond_ascii :
  Hedgeye.utf8 (ascii_of_nat <$> [65; 195; 169; 226; 130; 172; 240; 159; 152; 128; 36]%nat)
  = [0x41; 0xE9; 0x20AC; 0x1F600; 0x24]%N.
Proof. reflexivity. Qed.

(** The no-break space U+00A0 (bytes 194 160) is white space: the ticker
    before it is found. *)
Example ticker_no_break_space :
  Hedgeye.ticker ("Buy AAPL" +:+ String.string_of_list_ascii (ascii_of_nat <$> [194; 160]%nat)
                  +:+ "$150") = "AAPL".
Proof. reflexivity. Qed.

(** U+00E9 (bytes 195 169) is a letter: no word starts between it and the
    capitals that follow. *)
Example ticker_after_letter :
  Hedgeye.ticker (String.string_of_list_ascii (ascii_of_nat <$> [195; 169]%nat) +:+ "AAPL $1")
  = "-".
Proof. reflexivity. Qed.

(** The ideographic space U+3000 (bytes 227 128 128) and the Cyrillic capital
    U+0411 (bytes 208 145). *)
Example ticker_wide_space :
  Hedgeye.ticker ("TSLA" +:+ String.string_of_list_ascii (ascii_of_nat <$> [227; 128; 128]%nat)
                  +:+ "$9") = "TSLA"
  ∧ Hedgeye.ticker (String.string_of_list_ascii (ascii_of_nat <$> [208; 145]%nat) +:+ "TSLA $9")
    = "-".
Proof. split; reflexivity. Qed.

(** On text that is all ASCII the characters are the bytes. *)
Lemma code_points_ascii (t : string) :
  Forall (λ a, (nat_of_ascii a < 128)%nat) (Hedgeye.chars t) →
  Hedgeye.code_points t = Hedgeye.byte <$> Hedgeye.chars t.
Proof.
  unfold Hedgeye.code_points. induction 1 as [|a l Ha _ IH]; [done|].
  cbn [Hedgeye.utf8 fmap list_fmap].
  assert ((Hedgeye.byte a <? 128)%N = true) as ->.
  { apply N.ltb_lt. unfold Hedgeye.byte. unfold nat_of_ascii in Ha. lia. }
  by rewrite IH.
Qed.

(** * Further properties of the code *)

(** ** Cookie files and account initialisation (hedgeye) *)
Section Sessions.
Import HedgeyeSession.

Lemma string_of_list_ascii_inj l1 l2 :
  String.string_of_list_ascii l1 = String.string_of_list_ascii l2 → l1 = l2.
Proof.
  intros Heq. rewrite <- (String.list_ascii_of_string_of_list_ascii l1),
    <- (String.list_ascii_of_string_of_list_ascii l2). by rewrite Heq.
Qed.

Lemma cookie_filename_eq e e' :
  cookie_filename e = cookie_filename e' ↔ sanitize e = sanitize e'.
Proof.
  unfold cookie_filename. split; [|by intros ->].
  intros Heq%string_of_list_ascii_inj.
  apply app_inv_head in Heq. by apply app_inv_tail in Heq.
Qed.

Lemma replace_not_old old new s :
  old ≠ new → Forall (λ c, c ≠ old) (replace old new s).
Proof.
  intros Hne. unfold replace. apply Forall_fmap, Forall_true. intros c. simpl.
  case_bool_decide; congruence.
Qed.

Lemma replace_keeps_absent old new x s :
  x ≠ new → Forall (λ c, c ≠ x) s → Forall (λ c, c ≠ x) (replace old new s).
Proof.
  intros Hne Hall. unfold replace. apply Forall_fmap.
  eapply Forall_impl; [exact Hall|]. intros c Hc. simpl. case_bool_decide; congruence.
Qed.

Lemma load_save_cookies c e e' fs :
  load_cookies e' (save_cookies c e fs)
  = if decide (sanitize e = sanitize e') then Some c else load_cookies e' fs.
Proof.
  unfold load_cookies, save_cookies. destruct (decide (sanitize e = sanitize e')) as [Heq|Hne].
  - apply cookie_filename_eq in Heq. rewrite Heq. apply lookup_insert_eq.
  - apply lookup_insert_ne. by rewrite cookie_filename_eq.
Qed.

Lemma login_truthy b c : login b = Some c → c ≠ ∅.
Proof.
  destruct b as [|cs]; [done|]. simpl.
  destruct (first_named "_hedgeye_session" cs), (first_named "customer_type" cs);
    try done.
  intros [= <-]. apply insert_non_empty.
Qed.

Lemma status_200_cases {T} (P : T → Prop) (x y : T) (code : nat) :
  P x → P y → P (match code with 200%nat => x | _ => y end).
Proof. intros Hx Hy. do 201 (destruct code as [|code]; [done|]). done. Qed.

Lemma validate_credentials_spec email pr b fs :
  match (validate_credentials email pr b fs).2 with
  | Some c => c ≠ ∅ ∧ load_cookies email (validate_credentials email pr b fs).1 = Some c
  | None => (validate_credentials email pr b fs).1 = fs
  end
  ∧ (∀ e', sanitize e' ≠ sanitize email →
        load_cookies e' (validate_credentials email pr b fs).1 = load_cookies e' fs)
  ∧ (∀ e', has_cookies fs e' → has_cookies (validate_credentials email pr b fs).1 e').
Proof.
  unfold validate_credentials.
  set (get_new := match login b with
                  | Some nc => if truthy nc then (save_cookies nc email fs, Some nc)
                               else (fs, None)
                  | None => (fs, None) end).
  assert (match get_new.2 with
          | Some c => c ≠ ∅ ∧ load_cookies email get_new.1 = Some c
          | None => get_new.1 = fs end
          ∧ (∀ e', sanitize e' ≠ sanitize email → load_cookies e' get_new.1 = load_cookies e' fs)
          ∧ (∀ e', has_cookies fs e' → has_cookies get_new.1 e')) as Hnew.
  { subst get_new. destruct (login b) as [nc|] eqn:Hl; [|done].
    unfold truthy. case_bool_decide as Ht; [|done]. simpl. split; [|split].
    - split; [done|]. rewrite load_save_cookies. by rewrite decide_True.
    - intros e' Hne. rewrite load_save_cookies. by rewrite decide_False.
    - intros e' (c & Hc & Hne). unfold has_cookies. rewrite load_save_cookies.
      destruct (decide _); eauto. }
  destruct (load_cookies email fs) as [c|] eqn:Hload; [|done].
  destruct (truthy c) eqn:Ht; [|done].
  destruct pr as [code|]; [|done].
  apply (status_200_cases (λ out,
    match out.2 with
    | Some c0 => c0 ≠ ∅ ∧ load_cookies email out.1 = Some c0
    | None => out.1 = fs
    end
    ∧ (∀ e', sanitize e' ≠ sanitize email → load_cookies e' out.1 = load_cookies e' fs)
    ∧ (∀ e', has_cookies fs e' → has_cookies out.1 e'))); [|done].
  simpl. split_and!; try done. unfold truthy in Ht. by apply bool_decide_eq_true in Ht.
Qed.

(** A three-at-a-time induction principle, as [batches] recurses. *)
Lemma batches_ind {A} (P : list A → Prop) :
  P [] → (∀ a, P [a]) → (∀ a b, P [a; b]) →
  (∀ a b c l, P l → P (a :: b :: c :: l)) → ∀ l, P l.
Proof.
  intros H0 H1 H2 H3.
  assert (∀ l, P l ∧ (∀ a, P (a :: l)) ∧ (∀ a b, P (a :: b :: l))) as Hall.
  { induction l as [|x l (IH0 & IH1 & IH2)]; [by split_and!|].
    split_and!; [apply IH1 | intros; apply IH2 | intros; by apply H3]. }
  intros l. apply Hall.
Qed.

Lemma batches_length {A} (l : list A) :
  length (batches l) = ((length l + 2) / 3)%nat.
Proof.
  induction l as [| | |a b c l IH] using batches_ind; try done.
  change (length (batches (a :: b :: c :: l))) with (S (length (batches l))).
  change (length (a :: b :: c :: l)) with (3 + length l)%nat. rewrite IH.
  replace (3 + length l + 2)%nat with (1 * 3 + (length l + 2))%nat by lia.
  rewrite Nat.div_add_l by done. lia.
Qed.

Lemma gather_length pr br batch fs :
  length (gather pr br batch fs).2 = length batch.
Proof.
  revert fs. induction batch as [|[email pw] rest IH]; intros fs; [done|]. simpl.
  destruct (validate_credentials email (pr email) (br email) fs) as [fs1 r].
  specialize (IH fs1). destruct (gather pr br rest fs1) as [fs2 rs]. simpl in *.
  by rewrite IH.
Qed.

Lemma gather_app pr br l1 l2 fs :
  gather pr br (l1 ++ l2) fs
  = ((gather pr br l2 (gather pr br l1 fs).1).1,
     (gather pr br l1 fs).2 ++ (gather pr br l2 (gather pr br l1 fs).1).2).
Proof.
  revert fs. induction l1 as [|[email pw] l1 IH]; intros fs; simpl.
  - by destruct (gather pr br l2 fs).
  - destruct (validate_credentials email (pr email) (br email) fs) as [fs1 r].
    rewrite IH. destruct (gather pr br l1 fs1) as [fs2 rs]. simpl.
    by destruct (gather pr br l2 fs2).
Qed.

Lemma keep_valid_app b1 b2 r1 r2 :
  length r1 = length b1 →
  keep_valid (b1 ++ b2) (r1 ++ r2) = keep_valid b1 r1 ++ keep_valid b2 r2.
Proof.
  intros Hlen. unfold keep_valid.
  rewrite zip_with_app by done. apply omap_app.
Qed.

Lemma keep_valid_sublist batch results : keep_valid batch results `sublist_of` batch.
Proof.
  revert results. induction batch as [|a batch IH]; intros [|r results]; simpl;
    try apply sublist_nil_l.
  unfold keep_valid. simpl. destruct r as [c|]; simpl.
  - destruct (truthy c); simpl; [apply sublist_skip|apply sublist_cons]; apply IH.
  - apply sublist_cons, IH.
Qed.

Lemma run_batches_gather pr br l fs :
  run_batches pr br (batches l) fs
  = ((gather pr br l fs).1, keep_valid l (gather pr br l fs).2,
     Nat.pred (length (batches l))).
Proof.
  revert fs. induction l as [|a|a b|a b c l IH] using batches_ind; intros fs.
  - done.
  - cbn [batches run_batches length Nat.pred].
    destruct (gather pr br [a] fs) as [fs1 rs]. cbn [fst snd]. by rewrite app_nil_r.
  - cbn [batches run_batches length Nat.pred].
    destruct (gather pr br [a; b] fs) as [fs1 rs]. cbn [fst snd]. by rewrite app_nil_r.
  - change (batches (a :: b :: c :: l)) with ([a; b; c] :: batches l).
    change (a :: b :: c :: l) with ([a; b; c] ++ l). rewrite gather_app.
    cbn [run_batches].
    pose proof (gather_length pr br [a; b; c] fs) as Hlen.
    destruct (gather pr br [a; b; c] fs) as [fs1 rs]. cbn [fst snd] in *.
    rewrite IH, keep_valid_app by done. f_equal.
    simpl. destruct (batches l); simpl; lia.
Qed.

Lemma gather_has_cookies pr br batch fs e :
  has_cookies fs e → has_cookies (gather pr br batch fs).1 e.
Proof.
  revert fs. induction batch as [|[email pw] rest IH]; intros fs He; [done|]. simpl.
  destruct (validate_credentials_spec email (pr email) (br email) fs) as (_ & _ & Hmono).
  destruct (validate_credentials email (pr email) (br email) fs) as [fs1 r].
  specialize (IH fs1 (Hmono e He)). by destruct (gather pr br rest fs1).
Qed.

Lemma keep_valid_has_cookies pr br batch fs acc :
  acc ∈ keep_valid batch (gather pr br batch fs).2 →
  has_cookies (gather pr br batch fs).1 acc.1.
Proof.
  revert fs. induction batch as [|[email pw] rest IH]; intros fs; simpl.
  - by intros ?%elem_of_nil.
  - destruct (validate_credentials_spec email (pr email) (br email) fs) as (Hr & _ & _).
    destruct (validate_credentials email (pr email) (br email) fs) as [fs1 r].
    pose proof (gather_has_cookies pr br rest fs1 email) as Hmono.
    specialize (IH fs1). destruct (gather pr br rest fs1) as [fs2 rs].
    unfold keep_valid in *. simpl in *. destruct r as [c|]; simpl; [|done].
    destruct (truthy c); simpl; [|done].
    intros [-> | Hin]%elem_of_cons; [|by apply IH].
    simpl. apply Hmono. destruct Hr as [Hne Hload]. by exists c.
Qed.

End Sessions.

(** X1: a cookie file is named after the email with "@" and "." replaced by
    "_". Reading the cookies of [e'] after saving [c] for [e] gives [c] when
    the two emails have the same replaced form (the same email, or two emails
    that share a file), and what was there before otherwise; the replaced form
    holds no "@" and no ".". *)
Theorem cookie_round_trip (c : gmap string string) (e e' : string)
    (fs : gmap string (gmap string string)) :
  HedgeyeSession.load_cookies e' (HedgeyeSession.save_cookies c e fs)
  = (if decide (HedgeyeSession.sanitize e = HedgeyeSession.sanitize e')
     then Some c else HedgeyeSession.load_cookies e' fs)
  ∧ HedgeyeSession.load_cookies e (HedgeyeSession.save_cookies c e fs) = Some c
  ∧ Forall (λ x, x ≠ "@"%char ∧ x ≠ "."%char) (HedgeyeSession.sanitize e).
Proof.
  split_and!.
  - apply load_save_cookies.
  - rewrite load_save_cookies. by rewrite decide_True.
  - unfold HedgeyeSession.sanitize. apply Forall_and. split.
    + apply replace_keeps_absent; [done|]. by apply replace_not_old.
    + by apply replace_not_old.
Qed.

(** Two accounts that share a cookie file. *)
Example cookie_file_shared :
  HedgeyeSession.cookie_filename "a.b@x.com" = HedgeyeSession.cookie_filename "a_b@x.com".
Proof. reflexivity. Qed.


(** X3: [initialize_accounts] validates the accounts in list order, three per
    batch; the batches do not show in the result: the valid accounts are those
    of the whole list whose validation returned cookies, in list order. It
    sleeps once between consecutive batches, that is ceil(n/3) - 1 times, and
    every valid account ends with a non-empty cookie file. *)
Theorem initialize_accounts_result (pr : string → HedgeyeSession.probe)
    (br : string → HedgeyeSession.browser) (accounts : list (string * string))
    (fs : gmap string (gmap string string)) :
  let out := HedgeyeSession.initialize_accounts pr br accounts fs in
  let all := HedgeyeSession.gather pr br accounts fs in
  out.1.1 = all.1
  ∧ out.1.2 = HedgeyeSession.keep_valid accounts all.2
  ∧ out.2 = ((length accounts + 2) / 3 - 1)%nat
  ∧ out.1.2 `sublist_of` accounts
  ∧ ∀ acc, acc ∈ out.1.2 → has_cookies out.1.1 acc.1.
Proof.
  intros out all. subst out. unfold HedgeyeSession.initialize_accounts.
  rewrite run_batches_gather. fold all. cbn [fst snd]. split_and!; try done.
  - rewrite batches_length. symmetry. apply Nat.sub_1_r.
  - apply keep_valid_sublist.
  - intros acc. apply keep_valid_has_cookies.
Qed.

(** ** More on the resource pool and the scheduler (hedgeye) *)
Section PoolFacts.
Import Hedgeye.

Lemma held_step_subset o w e :
  (∀ rnd, o ≠ Acquire rnd) → e ∈ held (step o w) → e ∈ held w.
Proof.
  unfold held. intros Hna. destruct o as [rnd | now rnd | i rl]; simpl.
  - by destruct (Hna rnd).
  - destruct (pending w) as [|[email pw] rest] eqn:Hp; [by rewrite Hp|].
    destruct (ProxyManager.get_next_proxy now rnd (pm w)) as [pm' [proxy|msg]]; simpl.
    + rewrite fmap_app. simpl. set_solver.
    + set_solver.
  - destruct (in_flight w !! i) as [[email proxy]|] eqn:Hi; [|done]. simpl.
    rewrite !elem_of_app. intros [Hin | Hin]; [left|by right].
    eapply list_elem_of_fmap in Hin as (x & -> & Hx).
    apply list_elem_of_fmap. exists x. split; [done|].
    eapply elem_of_sublist; [done|apply sublist_delete].
Qed.

Lemma acquire_step rnd w :
  pending w = [] →
  step (Acquire rnd) w
  = mk_sched (AccountManager.get_available_accounts 2 rnd (am w)).1 (pm w)
      (AccountManager.get_available_accounts 2 rnd (am w)).2 (in_flight w).
Proof. intros Hp. unfold step. rewrite Hp. done. Qed.

Lemma step_rate_limited_mono o w e :
  e ∈ AccountManager.rate_limited (am w) →
  e ∈ AccountManager.rate_limited (am (step o w)).
Proof.
  intros He. destruct o as [rnd | now rnd | i rl]; simpl.
  - by destruct (pending w).
  - destruct (pending w) as [|[email pw] rest]; [done|].
    by destruct (ProxyManager.get_next_proxy now rnd (pm w)) as [pm' [proxy|msg]].
  - destruct (in_flight w !! i) as [[email proxy]|]; [|done].
    unfold AccountManager.release_account.
    destruct rl; simpl; case_bool_decide; simpl; set_solver.
Qed.

(** An excluded account that the scheduler does not hold is not picked up
    by any step. *)
Lemma step_rate_limited_out o w e :
  e ∈ AccountManager.rate_limited (am w) → e ∉ held w → e ∉ held (step o w).
Proof.
  intros Hrl Hh. destruct o as [rnd | now rnd | i rl].
  - destruct (pending w) as [|x xs] eqn:Hp; [|unfold step; by rewrite Hp].
    rewrite acquire_step by done. unfold held in *. cbn [in_flight pending].
    rewrite Hp in Hh. simpl in Hh. rewrite app_nil_r in Hh.
    rewrite elem_of_app. intros [Hin | Hin]; [done|].
    revert Hin. by apply rate_limited_not_selected.
  - intros Hin. apply Hh. eapply held_step_subset; [|done]. done.
  - intros Hin. apply Hh. eapply held_step_subset; [|done]. done.
Qed.

Lemma run_rate_limited_out ops w e :
  e ∈ AccountManager.rate_limited (am w) → e ∉ held w →
  e ∈ AccountManager.rate_limited (am (run ops w)) ∧ e ∉ held (run ops w).
Proof.
  revert w. induction ops as [|o ops IH]; intros w Hrl Hh; [done|].
  simpl. apply IH; [by apply step_rate_limited_mono|by apply step_rate_limited_out].
Qed.

(** An account that counts as running while the scheduler does not hold it
    stays so under every step. *)
Lemma step_leaked o w e :
  e ∈ AccountManager.currently_running (am w) → e ∉ held w →
  e ∈ AccountManager.currently_running (am (step o w)) ∧ e ∉ held (step o w).
Proof.
  intros Hrun Hh. destruct o as [rnd | now rnd | i rl].
  - destruct (pending w) as [|x xs] eqn:Hp; [|unfold step; by rewrite Hp].
    rewrite acquire_step by done. unfold held in *. cbn [in_flight pending am].
    rewrite Hp in Hh. simpl in Hh. rewrite app_nil_r in Hh. split.
    + simpl. set_solver.
    + rewrite elem_of_app. intros [Hin | Hin]; [done|].
      apply list_elem_of_fmap in Hin as ([e' pw] & -> & Hin).
      apply selected_available, elem_of_available in Hin. simpl in Hin. tauto.
  - split; [|intros Hin; apply Hh; eapply held_step_subset; [|exact Hin]; done].
    simpl. destruct (pending w) as [|[email pw] rest]; [done|].
    by destruct (ProxyManager.get_next_proxy now rnd (pm w)) as [pm' [proxy|msg]].
  - split; [|intros Hin; apply Hh; eapply held_step_subset; [|exact Hin]; done].
    simpl. destruct (in_flight w !! i) as [[email proxy]|] eqn:Hi; [|done]. simpl.
    assert (e ≠ email) as Hne.
    { intros ->. apply Hh. unfold held. apply elem_of_app. left.
      apply list_elem_of_fmap. exists (email, proxy). split; [done|].
      by eapply list_elem_of_lookup_2. }
    unfold AccountManager.release_account.
    destruct rl; simpl; case_bool_decide; simpl; set_solver.
Qed.

Lemma run_leaked ops w e :
  e ∈ AccountManager.currently_running (am w) → e ∉ held w →
  e ∈ AccountManager.currently_running (am (run ops w)) ∧ e ∉ held (run ops w).
Proof.
  revert w. induction ops as [|o ops IH]; intros w Hrun Hh; [done|].
  simpl. destruct (step_leaked o w e Hrun Hh). by apply IH.
Qed.

Lemma step_accounts o w :
  AccountManager.accounts (am (step o w)) = AccountManager.accounts (am w).
Proof.
  destruct o as [rnd | now rnd | i rl]; simpl.
  - by destruct (pending w).
  - destruct (pending w) as [|[email pw] rest]; [done|].
    by destruct (ProxyManager.get_next_proxy now rnd (pm w)) as [pm' [proxy|msg]].
  - destruct (in_flight w !! i) as [[email proxy]|]; [|done].
    unfold AccountManager.release_account.
    destruct rl; simpl; case_bool_decide; done.
Qed.

Lemma run_accounts ops w :
  AccountManager.accounts (am (run ops w)) = AccountManager.accounts (am w).
Proof.
  revert w. induction ops as [|o ops IH]; intros w; [done|].
  simpl. by rewrite IH, step_accounts.
Qed.

Lemma step_bounds o w : sched_bounds w → sched_bounds (step o w).
Proof.
  intros [Hsub Hlen]. unfold sched_bounds. rewrite step_accounts.
  destruct o as [rnd | now rnd | i rl].
  - destruct (pending w) as [|x xs] eqn:Hp;
      [|unfold step; rewrite Hp; split; [done|]; rewrite ?Hp; done].
    rewrite acquire_step by done. unfold held in *. cbn [in_flight pending].
    rewrite Hp in Hsub. simpl in Hsub. rewrite app_nil_r in Hsub. split.
    + intros e [Hin | Hin]%elem_of_app; [by apply Hsub|].
      apply list_elem_of_fmap in Hin as (acc & -> & Hin).
      apply selected_available, elem_of_available in Hin as [Hin _].
      apply list_elem_of_fmap. eauto.
    + cbn [snd AccountManager.get_available_accounts].
      rewrite sample_length by apply Nat.le_min_r. apply Nat.le_min_l.
  - split; [intros e He; apply Hsub; eapply held_step_subset; [|exact He]; done|].
    simpl. destruct (pending w) as [|[email pw] rest] eqn:Hp; [rewrite Hp; simpl; lia|].
    destruct (ProxyManager.get_next_proxy now rnd (pm w)) as [pm' [proxy|msg]];
      simpl in *; lia.
  - split; [intros e He; apply Hsub; eapply held_step_subset; [|exact He]; done|].
    simpl. by destruct (in_flight w !! i) as [[email proxy]|].
Qed.

Lemma run_bounds ops w : sched_bounds w → sched_bounds (run ops w).
Proof.
  revert w. induction ops as [|o ops IH]; intros w Hw; [done|].
  simpl. by apply IH, step_bounds.
Qed.

Lemma release_all l am0 :
  AccountManager.accounts (foldr AccountManager.release_account am0 l)
    = AccountManager.accounts am0
  ∧ AccountManager.rate_limited (foldr AccountManager.release_account am0 l)
    = AccountManager.rate_limited am0
  ∧ AccountManager.disk (foldr AccountManager.release_account am0 l)
    = AccountManager.disk am0
  ∧ AccountManager.currently_running (foldr AccountManager.release_account am0 l)
    = AccountManager.currently_running am0 ∖ list_to_set l.
Proof.
  induction l as [|e l (IH1 & IH2 & IH3 & IH4)]; simpl.
  - split_and!; try done. set_solver.
  - unfold AccountManager.release_account at 1 3 5 7.
    case_bool_decide as He; simpl; rewrite ?IH1, ?IH2, ?IH3, ?IH4;
      split_and!; try done; set_solver.
Qed.

End PoolFacts.

(** X4: once a task has ended on a rate-limit signal, its account is in the
    exclusion set, its proxy carries the time of the signal, and whatever the
    scheduler does next (acquisitions, launches, task ends) the account is
    never selected or run again; only the end-of-day clear readmits it. *)
Theorem rate_limited_account_stays_out (w : Hedgeye.sched) (i : nat)
    (email proxy : string) (now : Z) (ops : list Hedgeye.op) :
  sched_inv w →
  Hedgeye.in_flight w !! i = Some (email, proxy) →
  let w1 := Hedgeye.step (Hedgeye.Finish i (Some now)) w in
  let w' := Hedgeye.run ops w1 in
  ProxyManager.rate_limited (Hedgeye.pm w1) !! proxy = Some now
  ∧ email ∈ AccountManager.rate_limited (Hedgeye.am w')
  ∧ (email ∉ held w')
  ∧ (email ∉ (AccountManager.available (Hedgeye.am w')).*1).
Proof.
  intros Hinv Hi w1 w'.
  assert (email ∈ AccountManager.rate_limited (Hedgeye.am w1)) as Hrl.
  { subst w1. simpl. rewrite Hi. unfold AccountManager.release_account.
    simpl. case_bool_decide; simpl; set_solver. }
  assert (email ∉ held w1) as Hh.
  { destruct Hinv as (Hnd & _ & _). subst w1. unfold held in *. simpl. rewrite Hi. simpl.
    assert ((Hedgeye.in_flight w).*1 ++ (Hedgeye.pending w).*1
            ≡ₚ email :: (delete i (Hedgeye.in_flight w)).*1 ++ (Hedgeye.pending w).*1) as Hperm.
    { rewrite (delete_Permutation (Hedgeye.in_flight w) i (email, proxy) Hi) at 1. done. }
    rewrite Hperm in Hnd. by apply NoDup_cons in Hnd as [? _]. }
  destruct (run_rate_limited_out ops w1 email Hrl Hh) as [Hrl' Hh']. fold w' in Hrl', Hh'.
  split_and!; try done.
  - subst w1. simpl. rewrite Hi. simpl. apply lookup_insert_eq.
  - intros (acc & -> & Hin)%list_elem_of_fmap. apply elem_of_available in Hin. tauto.
Qed.

(** A witness for [rate_limited_account_stays_out]. *)
Lemma rate_limited_account_stays_out_witness :
  let w := Hedgeye.run [Hedgeye.Acquire (λ _, 0%nat); Hedgeye.Launch 0 0]
             (Hedgeye.start (ProxyManager.mk ["p1"] ∅ Missing)
                [("a@x.y", "pa"); ("b@x.y", "pb")] ∅ Missing) in
  "a@x.y" ∉ held (Hedgeye.run [Hedgeye.Acquire (λ _, 0%nat)]
                    (Hedgeye.step (Hedgeye.Finish 0 (Some 7)) w)).
Proof.
  intros w.
  refine (proj1 (proj2 (proj2 (rate_limited_account_stays_out w 0 "a@x.y" "p1" 7
            [Hedgeye.Acquire (λ _, 0%nat)] _ _)))).
  - subst w. apply run_inv. unfold sched_inv, held. simpl.
    split_and!; [constructor | set_solver | repeat constructor; set_solver].
  - by vm_compute.
Defined.

(** X5: when [get_next_proxy] raises in the middle of a round, the accounts
    of the round that were not yet launched are dropped by the scheduler but
    keep counting as running: whatever the scheduler does next they are never
    released and never selected again. *)
Theorem accounts_leak_when_proxies_run_out (w : Hedgeye.sched) (email pw : string)
    (rest : list (string * string)) (now : Z) (rnd : nat) (msg : string)
    (ops : list Hedgeye.op) (x : string) :
  sched_inv w →
  Hedgeye.pending w = (email, pw) :: rest →
  (ProxyManager.get_next_proxy now rnd (Hedgeye.pm w)).2 = Raise msg →
  x ∈ email :: rest.*1 →
  let w1 := Hedgeye.step (Hedgeye.Launch now rnd) w in
  let w' := Hedgeye.run ops w1 in
  Hedgeye.pending w1 = []
  ∧ Hedgeye.in_flight w1 = Hedgeye.in_flight w
  ∧ x ∈ AccountManager.currently_running (Hedgeye.am w')
  ∧ (x ∉ held w')
  ∧ (x ∉ (AccountManager.available (Hedgeye.am w')).*1).
Proof.
  intros (Hnd & Hrun & _) Hp Hraise Hx w1 w'.
  assert (w1 = Hedgeye.mk_sched (Hedgeye.am w)
                 (ProxyManager.get_next_proxy now rnd (Hedgeye.pm w)).1 []
                 (Hedgeye.in_flight w)) as Hw1.
  { subst w1. simpl. rewrite Hp.
    by destruct (ProxyManager.get_next_proxy now rnd (Hedgeye.pm w)) as [pm' [proxy|m]]. }
  unfold held in Hnd, Hrun. rewrite Hp in Hnd, Hrun. simpl in Hnd, Hrun.
  assert (x ∈ AccountManager.currently_running (Hedgeye.am w1)) as Hxr.
  { rewrite Hw1. simpl. apply Hrun. apply elem_of_app. by right. }
  assert (x ∉ held w1) as Hxh.
  { rewrite Hw1. unfold held. simpl. rewrite app_nil_r.
    apply NoDup_app in Hnd as (_ & Hdisj & _). intros Hin. by apply (Hdisj x). }
  destruct (run_leaked ops w1 x Hxr Hxh) as [Hr' Hh']. fold w' in Hr', Hh'.
  split_and!; try done.
  - by rewrite Hw1.
  - by rewrite Hw1.
  - intros (acc & -> & Hin)%list_elem_of_fmap. apply elem_of_available in Hin. tauto.
Qed.

(** A witness for [accounts_leak_when_proxies_run_out]: the only proxy is
    rate-limited when the round starts. *)
Lemma accounts_leak_when_proxies_run_out_witness :
  let w := Hedgeye.run [Hedgeye.Acquire (λ _, 0%nat)]
             (Hedgeye.start (ProxyManager.mk ["p1"] {["p1" := 0]} (Written {["p1" := 0]}))
                [("a@x.y", "pa"); ("b@x.y", "pb")] ∅ Missing) in
  "b@x.y" ∈ AccountManager.currently_running
              (Hedgeye.am (Hedgeye.run [Hedgeye.Acquire (λ _, 0%nat)]
                             (Hedgeye.step (Hedgeye.Launch 5 0) w))).
Proof.
  intros w.
  refine (proj1 (proj2 (proj2 (accounts_leak_when_proxies_run_out w "a@x.y" "pa"
            [("b@x.y", "pb")] 5 0 "No available proxies" [Hedgeye.Acquire (λ _, 0%nat)]
            "b@x.y" _ _ _ _)))).
  - subst w. apply run_inv. unfold sched_inv, held. simpl.
    split_and!; [constructor | set_solver | repeat constructor; set_solver].
  - by vm_compute.
  - by vm_compute.
  - set_solver.
Defined.

(** X6: in every state the scheduler reaches, the accounts it holds (running
    tasks and accounts waiting to be launched) are distinct accounts of the
    pool, so there are never more tasks in flight than accounts, and a round
    never has more than two accounts waiting. *)
Theorem in_flight_bounded (pm0 : ProxyManager.t) (accounts : list (string * string))
    (rl : gset string) (f : file (gset string)) (ops : list Hedgeye.op) :
  NoDup (accounts.*1) →
  let w := Hedgeye.run ops (Hedgeye.start pm0 accounts rl f) in
  (length (Hedgeye.in_flight w) + length (Hedgeye.pending w) ≤ length accounts)%nat
  ∧ (length (Hedgeye.pending w) ≤ 2)%nat
  ∧ ∀ e, e ∈ held w → e ∈ accounts.*1.
Proof.
  intros Hnd w.
  assert (sched_inv w) as (Hheld & _ & _).
  { apply run_inv. unfold sched_inv, held. simpl. split_and!; [constructor|set_solver|done]. }
  assert (sched_bounds w) as [Hsub Hlen].
  { apply run_bounds. unfold sched_bounds, held. simpl. split; [set_solver|lia]. }
  assert (AccountManager.accounts (Hedgeye.am w) = accounts) as Hacc
    by apply run_accounts.
  rewrite Hacc in Hsub.
  assert (length (held w) ≤ length (accounts.*1))%nat as Hle.
  { apply submseteq_length, NoDup_submseteq; [done|]. intros e He. by apply Hsub. }
  unfold held in Hle. rewrite length_app, !length_fmap in Hle.
  split_and!; [lia | done | done].
Qed.

(** A witness for [in_flight_bounded]: three rounds over two accounts. *)
Lemma in_flight_bounded_witness :
  let w := Hedgeye.run
             [Hedgeye.Acquire (λ _, 0%nat); Hedgeye.Launch 0 0; Hedgeye.Launch 0 0;
              Hedgeye.Acquire (λ _, 0%nat); Hedgeye.Finish 0 None;
              Hedgeye.Acquire (λ _, 0%nat); Hedgeye.Launch 1 0]
             (Hedgeye.start (ProxyManager.mk ["p1"] ∅ Missing)
                [("a@x.y", "pa"); ("b@x.y", "pb")] ∅ Missing) in
  (length (Hedgeye.in_flight w) + length (Hedgeye.pending w) ≤ 2)%nat.
Proof.
  refine (proj1 (in_flight_bounded (ProxyManager.mk ["p1"] ∅ Missing)
            [("a@x.y", "pa"); ("b@x.y", "pb")] ∅ Missing
            [Hedgeye.Acquire (λ _, 0%nat); Hedgeye.Launch 0 0; Hedgeye.Launch 0 0;
             Hedgeye.Acquire (λ _, 0%nat); Hedgeye.Finish 0 None;
             Hedgeye.Acquire (λ _, 0%nat); Hedgeye.Launch 1 0] _)).
  simpl. repeat constructor; set_solver.
Defined.

(** X7: releasing every account that [get_available_accounts] has just
    handed out, in any order of the returned list, puts the account manager
    back in the state before the acquisition. *)
Theorem acquire_release_round_trip (count : nat) (rnd : nat → nat) (am : AccountManager.t) :
  let out := AccountManager.get_available_accounts count rnd am in
  foldr AccountManager.release_account out.1 (out.2.*1) = am.
Proof.
  intros out.
  destruct (release_all (out.2.*1) out.1) as (H1 & H2 & H3 & H4).
  assert (∀ e, e ∈ out.2.*1 → e ∉ AccountManager.currently_running am) as Hfresh.
  { intros e (acc & -> & Hin)%list_elem_of_fmap.
    apply selected_available, elem_of_available in Hin. tauto. }
  destruct (foldr AccountManager.release_account out.1 (out.2.*1)) as [a r c d].
  destruct am as [a0 r0 c0 d0]. simpl in *. subst a r d. f_equal.
  rewrite H4. apply set_eq. intros e. rewrite elem_of_difference, elem_of_union,
    elem_of_list_to_set. split; [|intros He; split; [by left|by intros ?%Hfresh]].
  intros [[He | He] Hn]; done.
Qed.

(** X8: after a [get_next_proxy] call the exclusion map holds exactly the
    former entries that are younger than 15 minutes; a returned proxy belongs
    to the pool and is not among them; the call raises only when every proxy
    of the pool has an entry younger than 15 minutes. *)
Theorem get_next_proxy_post (now : Z) (rnd : nat) (pm : ProxyManager.t) :
  let out := ProxyManager.get_next_proxy now rnd pm in
  (∀ p T, ProxyManager.rate_limited out.1 !! p = Some T
          ↔ ProxyManager.rate_limited pm !! p = Some T ∧ now - T < RATE_LIMIT_US)
  ∧ ProxyManager.proxies out.1 = ProxyManager.proxies pm
  ∧ match out.2 with
    | Return p =>
        p ∈ ProxyManager.proxies pm ∧ ProxyManager.rate_limited out.1 !! p = None
    | Raise _ =>
        ∀ p, p ∈ ProxyManager.proxies pm →
             ∃ T, ProxyManager.rate_limited pm !! p = Some T ∧ now - T < RATE_LIMIT_US
    end.
Proof.
  intros out.
  assert (∀ p T, ProxyManager.rate_limited out.1 !! p = Some T
          ↔ ProxyManager.rate_limited pm !! p = Some T ∧ now - T < RATE_LIMIT_US) as Hrl.
  { intros p T. subst out. rewrite get_next_proxy_rate_limited.
    destruct (ProxyManager.rate_limited pm !! p) as [T'|]; [|naive_solver].
    case_bool_decide; split; [done| |intros [= ->]; split; [done|lia]|].
    - intros [[= ->] ?]. lia.
    - by intros [[= ->] ?]. }
  split_and!; [done | apply get_next_proxy_proxies |].
  pose proof (get_next_proxy_returns now rnd pm) as Hret. fold out in Hret.
  destruct (out.2) as [p|msg] eqn:Hout; [by apply Hret|].
  intros p Hin.
  assert (ProxyManager.available_proxies out.1 = []) as Hnil.
  { subst out. revert Hout. unfold ProxyManager.get_next_proxy.
    match goal with |- context [choice rnd (ProxyManager.available_proxies ?x)] =>
      set (pm2 := x) end.
    pose proof (choice_None rnd (ProxyManager.available_proxies pm2)) as Hc.
    destruct (choice rnd (ProxyManager.available_proxies pm2)); [done|].
    intros _. simpl. by apply Hc. }
  destruct (ProxyManager.rate_limited out.1 !! p) as [T|] eqn:Hp.
  - exists T. by apply Hrl.
  - exfalso. assert (p ∈ ProxyManager.available_proxies out.1) as Hav.
    { apply list_elem_of_filter. split; [by apply not_elem_of_dom|].
      subst out. by rewrite get_next_proxy_proxies. }
    rewrite Hnil in Hav. by apply elem_of_nil in Hav.
Qed.

(** ** Serial dispatch of alerts (hedgeye) *)
Section SerialDispatch.
Import Hedgeye.

Lemma process_all_alerted alerts st last :
  load_last_alert (LAST_ALERT_FILE st) = Return last →
  alerted (log (process_all alerts st))
  = alerted (log st) ++ collapse (last !! "title") (title <$> alerts).
Proof.
  revert st last. induction alerts as [|a alerts IH]; intros st last Hl; simpl.
  - by rewrite app_nil_r.
  - change (process_all (a :: alerts) st) with (process_all alerts (process_alert a st)).
    rewrite (process_alert_decide a st last Hl).
    case_bool_decide as Hnew.
    + rewrite (IH _ (last_alert_json a)) by done. cbn [log].
      rewrite last_alert_json_title.
      rewrite bool_decide_eq_false_2.
      2: { intros Heq. destruct Hnew as [-> | Hne]; [by rewrite lookup_empty in Heq|done]. }
      rewrite alerted_app. unfold dispatch_events. simpl. by rewrite <- app_assoc.
    + rewrite (IH _ last) by done.
      rewrite bool_decide_eq_true_2; [done|].
      destruct (decide (last !! "title" = Some (title a))) as [|Hne]; [done|].
      destruct Hnew. by right.
Qed.

End SerialDispatch.

(** X9: when alerts enter the critical section one after the other, starting
    from a readable last-alert file, the alerts sent to the notifiers are
    their titles with every run of equal neighbouring titles reduced to one
    (the stored title counting as the title before the first); so tasks that
    fetched the same alert dispatch it once, and a title that comes back
    after a different one is dispatched again. *)
Theorem serial_dispatch_collapses (alerts : list Hedgeye.alert) (st : Hedgeye.store)
    (last : gmap string string) :
  Hedgeye.load_last_alert (Hedgeye.LAST_ALERT_FILE st) = Return last →
  Hedgeye.alerted (Hedgeye.log (process_all alerts st))
  = Hedgeye.alerted (Hedgeye.log st)
    ++ collapse (last !! "title") (Hedgeye.title <$> alerts).
Proof. intros Hl. revert Hl. apply process_all_alerted. Qed.

(** A witness for [serial_dispatch_collapses]: A, A, B, A after a stored A. *)
Lemma serial_dispatch_collapses_witness :
  let a := Hedgeye.mk_alert "A" "1" "t" in
  let b := Hedgeye.mk_alert "B" "1" "t" in
  Hedgeye.alerted (Hedgeye.log
    (process_all [a; a; b; a] (Hedgeye.mk_store (Written (Hedgeye.last_alert_json a)) [])))
  = ["B"; "A"].
Proof.
  intros a b.
  rewrite (serial_dispatch_collapses [a; a; b; a]
             (Hedgeye.mk_store (Written (Hedgeye.last_alert_json a)) [])
             (Hedgeye.last_alert_json a) eq_refl).
  rewrite last_alert_json_title. reflexivity.
Defined.

(** ** Titles and tickers (bearcave) *)
Section BearcaveTitles.
Import BearcaveText.

Lemma lazy_group_spec s g :
  lazy_group s = Some g →
  ∃ rest, s = g ++ ")"%char :: rest
    ∧ Forall (λ c, c ≠ ")"%char ∧ c ≠ "010"%char) g.
Proof.
  revert g. induction s as [|c s IH]; intros g; simpl; [done|].
  unfold is_close, is_newline. case_bool_decide as Hc.
  - intros [= <-]. subst c. by exists s.
  - case_bool_decide as Hn; [done|].
    destruct (lazy_group s) as [g'|]; [|done]. simpl. intros [= <-].
    destruct (IH g' eq_refl) as (rest & -> & Hall). exists rest. split; [done|].
    by constructor.
Qed.

Lemma paren_search_spec s g :
  paren_search s = Some g →
  ∃ pre rest, s = pre ++ "("%char :: g ++ ")"%char :: rest
    ∧ Forall (λ c, c ≠ ")"%char ∧ c ≠ "010"%char) g.
Proof.
  induction s as [|c s IH]; simpl; [done|].
  assert (paren_search s = Some g →
          ∃ pre rest, c :: s = pre ++ "("%char :: g ++ ")"%char :: rest
            ∧ Forall (λ c, c ≠ ")"%char ∧ c ≠ "010"%char) g) as Hrec.
  { intros (pre & rest & -> & Hall)%IH. by exists (c :: pre), rest. }
  unfold is_open. case_bool_decide as Hc; [|done].
  destruct (lazy_group s) as [g'|] eqn:Hl; [|done].
  intros [= <-]. apply lazy_group_spec in Hl as (rest & -> & Hall).
  subst c. by exists [], rest.
Qed.

Lemma isupper_spec s :
  isupper s = true →
  Exists (λ c, Hedgeye.is_upper c = true) s
  ∧ Forall (λ c, Hedgeye.is_lower c = false) s.
Proof.
  unfold isupper. rewrite andb_true_iff, negb_true_iff. intros [Hu Hl]. split.
  - apply List.existsb_exists in Hu as (c & Hin & Hc).
    apply Exists_exists. exists c. split; [by apply list_elem_of_In|done].
  - apply Forall_forall. intros c Hin.
    destruct (Hedgeye.is_lower c) eqn:Hc; [|done].
    assert (existsb Hedgeye.is_lower s = true) as Hex; [|congruence].
    apply List.existsb_exists. exists c. split; [by apply list_elem_of_In|done].
Qed.

End BearcaveTitles.

(** X10: a ticker that [extract_ticker] returns comes from a title that
    contains "Problems at": it is the text between an opening parenthesis of
    the title and the first closing parenthesis after it, holds at least one
    uppercase letter, and holds no lowercase letter, no closing parenthesis
    and no newline. *)
Theorem extract_ticker_sound (title t : string) :
  BearcaveText.extract_ticker (Some title) = Some t →
  occurs (Hedgeye.chars "Problems at") (Hedgeye.chars title)
  ∧ occurs ("("%char :: Hedgeye.chars t ++ [")"%char]) (Hedgeye.chars title)
  ∧ Exists (λ c, Hedgeye.is_upper c = true) (Hedgeye.chars t)
  ∧ Forall (λ c, Hedgeye.is_lower c = false ∧ c ≠ ")"%char ∧ c ≠ "010"%char)
      (Hedgeye.chars t).
Proof.
  unfold BearcaveText.extract_ticker.
  destruct (Hedgeye.contains _ _) eqn:Hc; [|done].
  destruct (BearcaveText.paren_search (Hedgeye.chars title)) as [g|] eqn:Hs; [|done].
  destruct (BearcaveText.isupper g) eqn:Hu; [|done].
  intros [= <-].
  assert (Hedgeye.chars (String.string_of_list_ascii g) = g) as ->
    by apply String.list_ascii_of_string_of_list_ascii.
  apply contains_spec in Hc.
  apply paren_search_spec in Hs as (pre & rest & Heq & Hg).
  apply isupper_spec in Hu as [Hex Hlow].
  split_and!; [done | | done |].
  - exists pre, rest. rewrite Heq. simpl. by rewrite <- app_assoc.
  - apply Forall_forall. intros c Hin.
    rewrite Forall_forall in Hlow, Hg. destruct (Hg c Hin). by split_and!; [apply Hlow|..].
Qed.

(** A witness for [extract_ticker_sound]. *)
Lemma extract_ticker_sound_witness :
  occurs (Hedgeye.chars "Problems at") (Hedgeye.chars "Problems at Acme (ACME)").
Proof.
  exact (proj1 (extract_ticker_sound "Problems at Acme (ACME)" "ACME" eq_refl)).
Defined.

(** Tickers of some titles, evaluated: only the first parenthesised text of
    the title is looked at. *)
Example extract_ticker_first_group :
  BearcaveText.extract_ticker (Some "Problems at Acme (formerly Ajax) (ACME)") = None.
Proof. reflexivity. Qed.

Example extract_ticker_exchange :
  BearcaveText.extract_ticker (Some "Problems at Acme (NYSE: ACME)") = Some "NYSE: ACME".
Proof. reflexivity. Qed.

(** A string is blank exactly when all its characters are white space. *)
Lemma blank_spec (t : string) :
  BearcaveText.blank t = true ↔ Forall (λ c, c ∈ white_space) (Hedgeye.code_points t).
Proof.
  unfold BearcaveText.blank. rewrite forallb_forall, Forall_forall. split.
  - intros H c Hc. apply is_space_white, H. by apply list_elem_of_In.
  - intros H c Hc. apply is_space_white, H. by apply list_elem_of_In.
Qed.

(** X11: [get_post_title] never returns an empty or null title: its result
    is truthy. It is the title itself when the title is a string with a
    character that is not white space (the white space of Unicode, so a
    title of no-break spaces does not count), and otherwise the social title
    when that is truthy and the fixed message when it is not. *)
Theorem get_post_title_truthy (title social_title : BearcaveText.json) :
  let r := BearcaveText.get_post_title title social_title in
  let fallback := if BearcaveText.json_truthy social_title then social_title
                  else BearcaveText.JStr BearcaveText.NO_TITLE in
  BearcaveText.json_truthy r = true
  ∧ (∀ t, title = BearcaveText.JStr t →
       Exists (λ c, c ∉ white_space) (Hedgeye.code_points t) → r = title)
  ∧ (∀ t, title = BearcaveText.JStr t →
       Forall (λ c, c ∈ white_space) (Hedgeye.code_points t) → r = fallback)
  ∧ ((∀ t, title ≠ BearcaveText.JStr t) → r = fallback).
Proof.
  intros r fallback.
  assert (BearcaveText.json_truthy fallback = true) as Hfallback.
  { subst fallback. destruct (BearcaveText.json_truthy social_title) eqn:Hs; [done|].
    by vm_compute. }
  assert (∀ t, title = BearcaveText.JStr t →
            r = if BearcaveText.blank t then fallback else title) as Hr.
  { by intros t ->. }
  split_and!.
  - destruct title as [| b | n | t]; try done.
    rewrite (Hr t eq_refl). destruct (BearcaveText.blank t) eqn:Hb; [done|].
    simpl. apply bool_decide_eq_true. intros ->. by vm_compute in Hb.
  - intros t Ht Hex. rewrite (Hr t Ht).
    destruct (BearcaveText.blank t) eqn:Hb; [|done].
    apply blank_spec in Hb. apply Exists_exists in Hex as (c & Hc & Hn).
    rewrite Forall_forall in Hb. by destruct Hn; apply Hb.
  - intros t Ht Hall. rewrite (Hr t Ht). by apply blank_spec in Hall as ->.
  - intros Hns. destruct title as [| b | n | t]; try done. by destruct (Hns t).
Qed.

(** A title of two no-break spaces (U+00A0, bytes 194 160) is blank: the
    social title is used. *)
Example get_post_title_no_break_spaces :
  BearcaveText.get_post_title
    (BearcaveText.JStr
       (String.string_of_list_ascii (ascii_of_nat <$> [194; 160; 194; 160]%nat)))
    (BearcaveText.JStr "Acme (ACME)")
  = BearcaveText.JStr "Acme (ACME)".
Proof. reflexivity. Qed.

(** ** No post is alerted twice (bearcave) *)
Section ExactlyOnce.
Import Bearcave.

Lemma omap_sublist {A B} (f : A → option B) (l1 l2 : list A) :
  l1 `sublist_of` l2 → omap f l1 `sublist_of` omap f l2.
Proof.
  induction 1 as [|x l1 l2 _ IH|x l1 l2 _ IH]; simpl.
  - constructor.
  - destruct (f x); [by apply sublist_skip|done].
  - destruct (f x); [by apply sublist_cons|done].
Qed.

Lemma detect_identified seen posts p :
  p ∈ detect seen posts →
  ∃ u, identifier p = Some u ∧ canonical_url p = Some u ∧ (u ∉ seen).
Proof.
  unfold detect. intros [Habs _]%list_elem_of_filter.
  unfold absent, identifier in *.
  destruct (canonical_url p) as [u|]; [|done].
  case_bool_decide; [done|]. apply bool_decide_eq_true in Habs. eauto.
Qed.

Lemma alerts_Fetch l t : alerts (l ++ [Fetch t]) = alerts l.
Proof. rewrite alerts_app. simpl. apply app_nil_r. Qed.

Lemma inner_loop_alerts closesAt env w :
  Forall (λ e, NoDup (omap identifier e.2)) env →
  ∃ rest,
    alerts (log (inner_loop closesAt env w)) = alerts (log w) ++ rest
    ∧ NoDup (omap identifier rest)
    ∧ (∀ p, p ∈ rest →
         ∃ u, identifier p = Some u ∧ (u ∉ processed_urls w)
              ∧ u ∈ processed_urls (inner_loop closesAt env w))
    ∧ processed_urls w ⊆ processed_urls (inner_loop closesAt env w).
Proof.
  revert w. induction env as [|[now posts] env IH]; intros w Hall; simpl.
  - exists []. rewrite app_nil_r. split_and!; [done|constructor|by intros ? ?%elem_of_nil|done].
  - apply Forall_cons in Hall as [Hposts Hall]. simpl in Hposts.
    case_bool_decide as Hclosed.
    { exists []. rewrite app_nil_r.
      split_and!; [done|constructor|by intros ? ?%elem_of_nil|done]. }
    set (w1 := mk (processed_urls w) (disk w) (log w ++ [Fetch now])).
    set (w2 := iteration posts w1).
    destruct (IH w2 Hall) as (rest & Hal & Hnd & Hrest & Hmono).
    assert (alerts (log w2) = alerts (log w) ++ detect (processed_urls w) posts) as Hal2.
    { subst w2. rewrite iteration_alerts. subst w1. cbn [log processed_urls].
      by rewrite alerts_Fetch, new_posts_detect. }
    assert (processed_urls w2
            = processed_urls w ∪ ids (detect (processed_urls w) posts)) as Hp2.
    { subst w2. rewrite iteration_processed. subst w1. cbn [processed_urls].
      by rewrite new_posts_detect. }
    assert (∀ p, p ∈ detect (processed_urls w) posts →
              ∃ u, identifier p = Some u ∧ (u ∉ processed_urls w)
                   ∧ u ∈ processed_urls w2) as Hnew.
    { intros p Hin. destruct (detect_identified _ _ _ Hin) as (u & Hid & Hurl & Hu).
      exists u. split_and!; [done|done|]. rewrite Hp2. apply elem_of_union_r.
      unfold ids. apply elem_of_list_to_set, list_elem_of_omap. eauto. }
    exists (detect (processed_urls w) posts ++ rest). split_and!.
    + by rewrite Hal, Hal2, app_assoc.
    + rewrite omap_app. apply NoDup_app. split_and!; [|  |done].
      * eapply sublist_NoDup; [exact Hposts|]. apply omap_sublist, sublist_filter.
      * intros u (p & Hin & Hid)%list_elem_of_omap (q & Hq & Hqid)%list_elem_of_omap.
        destruct (Hnew p Hin) as (u1 & Hid1 & _ & Hin2).
        destruct (Hrest q Hq) as (u2 & Hid2 & Hnot & _).
        congruence.
    + intros p [Hin | Hin]%elem_of_app.
      * destruct (Hnew p Hin) as (u & Hid & Hu & Hin2). exists u.
        split_and!; [done|done|]. by apply Hmono.
      * destruct (Hrest p Hin) as (u & Hid & Hu & Hin2). exists u.
        split_and!; [done| |done]. intros Hold. apply Hu. rewrite Hp2.
        by apply elem_of_union_l.
    + etrans; [|exact Hmono]. rewrite Hp2. apply union_subseteq_l.
Qed.

End ExactlyOnce.

(** X12: over a whole window of the bearcave loop, whatever is fetched and
    however often, every alerted post has an identifier that was not in the
    seen-set at the start and is in it at the end, the seen-set only grows,
    and no identifier is alerted twice, provided no single fetched list names
    the same identifier twice. *)
Theorem no_post_alerted_twice (closesAt : Z) (env : list (Z * list Bearcave.post))
    (w : Bearcave.world) :
  Forall (λ e, NoDup (omap identifier e.2)) env →
  Bearcave.alerts (Bearcave.log w) = [] →
  let w' := Bearcave.inner_loop closesAt env w in
  NoDup (omap identifier (Bearcave.alerts (Bearcave.log w')))
  ∧ (∀ p, p ∈ Bearcave.alerts (Bearcave.log w') →
       ∃ u, identifier p = Some u ∧ (u ∉ Bearcave.processed_urls w)
            ∧ u ∈ Bearcave.processed_urls w')
  ∧ Bearcave.processed_urls w ⊆ Bearcave.processed_urls w'.
Proof.
  intros Hall Hlog w'.
  destruct (inner_loop_alerts closesAt env w Hall) as (rest & Hal & Hnd & Hrest & Hmono).
  fold w' in Hal, Hrest, Hmono. rewrite Hlog in Hal. simpl in Hal. rewrite Hal.
  by split_and!.
Qed.

(** A witness for [no_post_alerted_twice]: the same two posts fetched
    three times. *)
Lemma no_post_alerted_twice_witness :
  let post u := Bearcave.mk_post (Some u) "t" in
  let env := [(1, [post "u1"; post "u2"]); (2, [post "u1"; post "u2"]);
              (3, [post "u2"; post "u3"])] in
  NoDup (omap identifier (Bearcave.alerts (Bearcave.log
           (Bearcave.inner_loop 10 env (Bearcave.mk ∅ Missing []))))).
Proof.
  intros post env.
  refine (proj1 (no_post_alerted_twice 10 env (Bearcave.mk ∅ Missing []) _ eq_refl)).
  subst env. repeat constructor; simpl; set_solver.
Defined.

(** The same identifier twice in one fetched list is alerted twice. *)
Example duplicate_in_one_fetch :
  let post := Bearcave.mk_post (Some "u1") "t" in
  Bearcave.alerts (Bearcave.log (Bearcave.iteration [post; post] (Bearcave.mk ∅ Missing [])))
  = [post; post].
Proof. by vm_compute. Qed.

(** ** Token refreshes and alerts of the IBD scraper *)
Section IbdRefresh.
Import Ibd.

Lemma fetch_trades_on_other code gs ps rq tf token :
  code ≠ 426%nat →
  fetch_trades_on (Status code :: gs) ps rq tf token
  = (None, mk_net gs ps (rq ++ [Get token]) tf).
Proof.
  intros Hne. simpl.
  do 426 (destruct code as [|code]; [done|]).
  destruct code; [by destruct Hne|done].
Qed.

Lemma fetch_trades_on_success gs ps rq tf token trades n' :
  fetch_trades_on gs ps rq tf token = (Some trades, n') →
  ∃ tokens,
    gs = replicate (length tokens) (Status 426) ++ Ok200 trades :: gets n'
    ∧ ps = (Some <$> tokens) ++ posts n'
    ∧ requests n' = rq ++ refresh_requests token tokens
    ∧ Forall (λ t, t ≠ EmptyString) tokens
    ∧ token_file n' = match last tokens with Some t => Written t | None => tf end.
Proof.
  revert ps rq tf token. induction gs as [|r gs IH]; intros ps rq tf token; [done|].
  destruct r as [ts | code |]; [| |done].
  - simpl. intros [= <- <-]. exists []. simpl. by split_and!.
  - destruct (decide (code = 426%nat)) as [->|Hne];
      [|by rewrite fetch_trades_on_other].
    change (fetch_trades_on (Status 426 :: gs) ps rq tf token)
      with (let '(new_token, n1) := get_new_token (mk_net gs ps (rq ++ [Get token]) tf) in
            match new_token with
            | Some t =>
                if bool_decide (t ≠ EmptyString)
                then fetch_trades_on gs (posts n1) (requests n1) (token_file n1) t
                else (None, n1)
            | None => (None, n1)
            end).
    unfold get_new_token. cbn [posts gets requests token_file].
    destruct ps as [|[t|] ps']; [done| |done].
    case_bool_decide as Ht; [|done]. cbn [posts gets requests token_file].
    intros (tokens & -> & -> & Hrq & Hall & Htf)%IH.
    exists (t :: tokens). split_and!; [done|done| |by constructor|].
    + rewrite Hrq. unfold refresh_requests. simpl. by rewrite <- !app_assoc.
    + rewrite Htf. rewrite last_cons. by destruct (last tokens).
Qed.

(** Whatever the outcome, a call consumes a prefix of the answers. *)
Lemma fetch_trades_on_suffix gs ps rq tf token :
  ∃ pre, gs = pre ++ gets (fetch_trades_on gs ps rq tf token).2.
Proof.
  revert ps rq tf token. induction gs as [|r gs IH]; intros ps rq tf token.
  - by exists [].
  - destruct r as [ts | code |]; [by exists [Ok200 ts] | | by exists [NetError]].
    destruct (decide (code = 426%nat)) as [->|Hne];
      [|rewrite fetch_trades_on_other by done; by exists [Status code]].
    change (fetch_trades_on (Status 426 :: gs) ps rq tf token)
      with (let '(new_token, n1) := get_new_token (mk_net gs ps (rq ++ [Get token]) tf) in
            match new_token with
            | Some t =>
                if bool_decide (t ≠ EmptyString)
                then fetch_trades_on gs (posts n1) (requests n1) (token_file n1) t
                else (None, n1)
            | None => (None, n1)
            end).
    unfold get_new_token. cbn [posts gets requests token_file].
    destruct ps as [|[t|] ps']; [by exists [Status 426] | | by exists [Status 426]].
    case_bool_decide as Ht; [|by exists [Status 426]].
    cbn [posts gets requests token_file].
    destruct (IH ps' ((rq ++ [Get token]) ++ [PostToken]) (Written t) t) as [pre Hpre].
    exists (Status 426 :: pre). simpl. by rewrite <- Hpre.
Qed.

Lemma alerts_Call l t : alerts (l ++ [Call t]) = alerts l.
Proof. rewrite trade_alerts_app. simpl. apply app_nil_r. Qed.

Lemma ibd_iteration_network data w : network (iteration data w) = network w.
Proof.
  destruct data as [trades|]; [|done]. rewrite trades_iteration_complete.
  by destruct (new_trades (processed_trades w) trades).
Qed.

Lemma ibd_inner_loop_alerts closesAt token clock w :
  Forall distinct_ids (gets (network w)) →
  ∃ rest,
    alerts (log (inner_loop closesAt token clock w)) = alerts (log w) ++ rest
    ∧ NoDup ((λ t, str (id t)) <$> rest)
    ∧ (∀ t, t ∈ rest →
         (str (id t) ∉ processed_trades w)
         ∧ str (id t) ∈ processed_trades (inner_loop closesAt token clock w))
    ∧ processed_trades w ⊆ processed_trades (inner_loop closesAt token clock w).
Proof.
  revert w. induction clock as [|now clock IH]; intros w Hall; simpl.
  - exists []. rewrite app_nil_r. split_and!; [done|constructor|by intros ? ?%elem_of_nil|done].
  - case_bool_decide as Hclosed.
    { exists []. rewrite app_nil_r.
      split_and!; [done|constructor|by intros ? ?%elem_of_nil|done]. }
    destruct (fetch_trades (network w) token) as [data n'] eqn:Hf.
    set (w1 := mk (processed_trades w) (disk w) (log w ++ [Call token]) n').
    set (w2 := iteration data w1).
    assert (Forall distinct_ids (gets n')) as Hall'.
    { unfold fetch_trades in Hf.
      destruct (fetch_trades_on_suffix (gets (network w)) (posts (network w))
                  (requests (network w)) (token_file (network w)) token) as [pre Hpre].
      rewrite Hf in Hpre. simpl in Hpre. rewrite Hpre in Hall.
      by apply Forall_app in Hall as [_ ?]. }
    assert (network w2 = n') as Hn2 by (subst w2; by rewrite ibd_iteration_network).
    destruct (IH w2) as (rest & Hal & Hnd & Hrest & Hmono); [by rewrite Hn2|].
    destruct data as [trades|].
    2: { exists rest. subst w2 w1. simpl in *. rewrite alerts_Call in Hal.
         by split_and!. }
    set (new := new_trades (processed_trades w) trades).
    assert (NoDup ((λ t, str (id t)) <$> trades)) as Hdistinct.
    { unfold fetch_trades in Hf.
      apply fetch_trades_on_success in Hf as (tokens & Hg & _).
      rewrite Hg in Hall. apply Forall_app in Hall as [_ Hall].
      by apply Forall_cons in Hall as [? _]. }
    assert (alerts (log w2) = alerts (log w) ++ new
            ∧ processed_trades w2 = processed_trades w ∪ trade_ids new) as [Hal2 Hp2].
    { subst w2. rewrite trades_iteration_complete. subst w1.
      cbn [processed_trades log disk network]. fold new.
      destruct new as [|t ts] eqn:Hnew.
      - cbn [log processed_trades]. rewrite alerts_Call, app_nil_r. split; [done|].
        unfold trade_ids. simpl. by rewrite (right_id_L ∅ (∪)).
      - cbv beta iota zeta. cbn [log processed_trades].
        rewrite !trade_alerts_app, trade_alerts_Alert. simpl.
        by rewrite ?app_nil_r. }
    assert (∀ t, t ∈ new → (str (id t) ∉ processed_trades w)
                           ∧ str (id t) ∈ processed_trades w2) as Hnewp.
    { intros t Hin. split.
      - subst new. unfold new_trades in Hin. by apply list_elem_of_filter in Hin as [? _].
      - rewrite Hp2. apply elem_of_union_r. unfold trade_ids.
        apply elem_of_list_to_set, list_elem_of_fmap. eauto. }
    exists (new ++ rest). split_and!.
    + by rewrite Hal, Hal2, app_assoc.
    + rewrite fmap_app. apply NoDup_app. split_and!; [| |done].
      * eapply sublist_NoDup; [exact Hdistinct|]. apply fmap_sublist, sublist_filter.
      * intros u (t & -> & Hin)%list_elem_of_fmap (q & Hq & Hqin)%list_elem_of_fmap.
        destruct (Hnewp t Hin) as [_ Hin2]. destruct (Hrest q Hqin) as [Hnot _].
        rewrite Hq in Hin2. done.
    + intros t [Hin | Hin]%elem_of_app.
      * destruct (Hnewp t Hin) as [Hu Hin2]. split; [done|]. by apply Hmono.
      * destruct (Hrest t Hin) as [Hu Hin2]. split; [|done].
        intros Hold. apply Hu. rewrite Hp2. by apply elem_of_union_l.
    + etrans; [|exact Hmono]. rewrite Hp2. apply union_subseteq_l.
Qed.

End IbdRefresh.

(** X13: a [fetch_trades] call that returns trades met some number of HTTP
    426 answers, each followed by a token request that gave a non-empty token,
    and then an HTTP 200 answer, whose trades it returns; it sent its first
    GET with the caller's token and, after every token request, one GET with
    the token just obtained; the token file ends holding the last token
    obtained, or is untouched when there was no 426. *)
Theorem fetch_trades_success (n n' : Ibd.net) (token : string) (trades : list Ibd.trade) :
  Ibd.fetch_trades n token = (Some trades, n') →
  ∃ tokens,
    Ibd.gets n = replicate (length tokens) (Ibd.Status 426) ++ Ibd.Ok200 trades :: Ibd.gets n'
    ∧ Ibd.posts n = (Some <$> tokens) ++ Ibd.posts n'
    ∧ Ibd.requests n' = Ibd.requests n ++ refresh_requests token tokens
    ∧ Forall (λ t, t ≠ EmptyString) tokens
    ∧ Ibd.token_file n'
      = match last tokens with Some t => Written t | None => Ibd.token_file n end.
Proof. unfold Ibd.fetch_trades. apply fetch_trades_on_success. Qed.

(** A witness for [fetch_trades_success]: two expired tokens in a row. *)
Lemma fetch_trades_success_witness :
  let n := Ibd.mk_net [Ibd.Status 426; Ibd.Status 426; Ibd.Ok200 []; Ibd.Status 500]
             [Some "T1"; Some "T2"; Some "T3"] [] Missing in
  ∃ tokens,
    Ibd.requests (Ibd.fetch_trades n "T0").2 = refresh_requests "T0" tokens
    ∧ Ibd.token_file (Ibd.fetch_trades n "T0").2
      = match last tokens with Some t => Written t | None => Missing end.
Proof.
  intros n.
  destruct (fetch_trades_success n (Ibd.fetch_trades n "T0").2 "T0" [] eq_refl)
    as (tokens & _ & _ & Hrq & _ & Htf).
  exists tokens. split; [exact Hrq | exact Htf].
Defined.

(** X14: over a whole window of the IBD loop, whatever the server answers,
    every alerted trade has an id that was not in the seen-set at the start
    and is in it at the end, the seen-set only grows, and no id is alerted
    twice, provided no single HTTP 200 answer lists the same id twice. *)
Theorem no_trade_alerted_twice (closesAt : Z) (token : string) (clock : list Z)
    (w : Ibd.world) :
  Forall distinct_ids (Ibd.gets (Ibd.network w)) →
  Ibd.alerts (Ibd.log w) = [] →
  let w' := Ibd.inner_loop closesAt token clock w in
  NoDup ((λ t, Ibd.str (Ibd.id t)) <$> Ibd.alerts (Ibd.log w'))
  ∧ (∀ t, t ∈ Ibd.alerts (Ibd.log w') →
       (Ibd.str (Ibd.id t) ∉ Ibd.processed_trades w)
       ∧ Ibd.str (Ibd.id t) ∈ Ibd.processed_trades w')
  ∧ Ibd.processed_trades w ⊆ Ibd.processed_trades w'.
Proof.
  intros Hall Hlog w'.
  destruct (ibd_inner_loop_alerts closesAt token clock w Hall)
    as (rest & Hal & Hnd & Hrest & Hmono).
  fold w' in Hal, Hrest, Hmono. rewrite Hlog in Hal. simpl in Hal. rewrite Hal.
  by split_and!.
Qed.

(** A witness for [no_trade_alerted_twice]: the same trade listed in two
    successive answers. *)
Lemma no_trade_alerted_twice_witness :
  let t1 := Ibd.mk_trade 1 "AAA" in
  let t2 := Ibd.mk_trade 2 "BBB" in
  let n := Ibd.mk_net [Ibd.Ok200 [t1]; Ibd.Status 500; Ibd.Ok200 [t2; t1]] [] [] Missing in
  NoDup ((λ t, Ibd.str (Ibd.id t)) <$>
         Ibd.alerts (Ibd.log (Ibd.inner_loop 10 "T0" [1; 2; 3] (Ibd.mk ∅ Missing [] n)))).
Proof.
  intros t1 t2 n.
  refine (proj1 (no_trade_alerted_twice 10 "T0" [1; 2; 3] (Ibd.mk ∅ Missing [] n) _ eq_refl)).
  subst n. cbn [Ibd.network Ibd.gets].
  assert ((λ t, Ibd.str (Ibd.id t)) <$> [t2; t1] = ["2"; "1"]) as Hs
    by (vm_compute; reflexivity).
  apply Forall_cons. split; [apply NoDup_singleton|].
  apply Forall_cons. split; [done|].
  apply Forall_cons. split; [|done].
  unfold distinct_ids. rewrite Hs.
  apply NoDup_cons. split; [|apply NoDup_singleton].
  intros Hin. apply list_elem_of_singleton in Hin. discriminate.
Defined.

(** ** Exclusions across a restart (hedgeye) *)

(** X15: a process started after [mark_rate_limited] has completed reads the
    exclusion back from the files: the new proxy manager does not return the
    marked proxy on any call before the mark time plus 15 minutes, and the
    scheduler built on the reloaded account set never selects or runs the
    marked account. *)
Theorem exclusions_survive_restart (pm : ProxyManager.t) (p : string) (T : Z)
    (calls : list (Z * nat)) (am : AccountManager.t) (email : string)
    (pm0 : ProxyManager.t) (ops : list Hedgeye.op) :
  Forall (λ c, c.1 < T + RATE_LIMIT_US) calls →
  ∃ pm' rl',
    ProxyManager.__init__ (ProxyManager.proxies pm)
      (ProxyManager.disk (ProxyManager.mark_rate_limited T p pm)) = Return pm'
    ∧ Forall (λ r, r ≠ Return p) (acquire_all calls pm').2
    ∧ AccountManager._load_rate_limited
        (AccountManager.disk (AccountManager.mark_rate_limited email am)) = Return rl'
    ∧ let w := Hedgeye.run ops
                 (Hedgeye.start pm0 (AccountManager.accounts am) rl'
                    (AccountManager.disk (AccountManager.mark_rate_limited email am))) in
      (email ∉ held w) ∧ (email ∉ (AccountManager.available (Hedgeye.am w)).*1).
Proof.
  intros Hcalls.
  exists (ProxyManager.mk (ProxyManager.proxies pm)
            (<[p := T]> (ProxyManager.rate_limited pm))
            (Written (<[p := T]> (ProxyManager.rate_limited pm)))),
         (AccountManager.rate_limited am ∪ {[email]}).
  split_and!; [done | | done |].
  - eapply acquire_all_excluded; [|done]. apply lookup_insert_eq.
  - intros w.
    destruct (run_rate_limited_out ops
                (Hedgeye.start pm0 (AccountManager.accounts am)
                   (AccountManager.rate_limited am ∪ {[email]})
                   (AccountManager.disk (AccountManager.mark_rate_limited email am)))
                email) as [Hrl Hh].
    + simpl. set_solver.
    + unfold held. simpl. set_solver.
    + split; [done|].
      intros (acc & -> & Hin)%list_elem_of_fmap. apply elem_of_available in Hin. tauto.
Qed.

(** A witness for [exclusions_survive_restart]. *)
Lemma exclusions_survive_restart_witness :
  ∃ pm', ProxyManager.__init__ ["p1"; "p2"]
           (ProxyManager.disk (ProxyManager.mark_rate_limited 100 "p1"
              (ProxyManager.mk ["p1"; "p2"] ∅ Missing))) = Return pm'
    ∧ Forall (λ r, r ≠ Return "p1") (acquire_all [(200, 0%nat); (300, 2%nat)] pm').2.
Proof.
  destruct (exclusions_survive_restart (ProxyManager.mk ["p1"; "p2"] ∅ Missing) "p1" 100
              [(200, 0%nat); (300, 2%nat)]
              (AccountManager.mk [("a@x.y", "pa")] ∅ ∅ Missing) "a@x.y"
              (ProxyManager.mk ["p1"; "p2"] ∅ Missing) [])
    as (pm' & rl' & Hinit & Hcalls & _).
  - repeat constructor; simpl; unfold RATE_LIMIT_US; lia.
  - exists pm'. split; [exact Hinit | exact Hcalls].
Defined.

(** ** The sampling oracle *)

Lemma sample_ext {A} (pool : list A) k rnd rnd' :
  (∀ i, (i < k)%nat → rnd i = rnd' i) → sample pool k rnd = sample pool k rnd'.
Proof.
  revert pool. induction k as [|k IH]; intros pool Hext; [done|]. simpl.
  rewrite <- (Hext k) by lia. destruct (pool !! _); [|done].
  f_equal. apply IH. intros i Hi. apply Hext. lia.
Qed.

(** Every ordered selection of distinct positions of the pool is the outcome
    of [sample] for some oracle. *)
Lemma sample_any {A} (pool l : list A) :
  l ⊆+ pool → ∃ rnd, sample pool (length l) rnd = l.
Proof.
  revert pool. induction l as [|x l IH]; intros pool Hsub; [by exists (λ _, 0%nat)|].
  assert (x ∈ pool) as Hx by (eapply elem_of_submseteq; [left|done]).
  apply list_elem_of_lookup in Hx as [j Hj].
  assert (l ⊆+ delete j pool) as Hsub'.
  { apply (submseteq_app_inv_l _ _ [x]). simpl.
    by rewrite <- (delete_Permutation pool j x Hj). }
  destruct (IH _ Hsub') as [rnd' Hrnd'].
  exists (λ i, if decide (i = length l) then j else rnd' i). simpl.
  rewrite decide_True by done.
  rewrite Nat.mod_small by (by eapply lookup_lt_Some). rewrite Hj. f_equal.
  trans (sample (delete j pool) (length l) rnd'); [|done].
  apply sample_ext. intros i Hi. rewrite decide_False; [done|lia].
Qed.

(** ** The daily reset and the tasks still running at the close *)
Section DailyReset.
Import Hedgeye.

Lemma end_of_day_eligible w : all_eligible w (end_of_day w).
Proof.
  destruct w as [[accs arl run ad] [ps prl pd] pend fl].
  unfold all_eligible. simpl. split_and!; try done.
  - by destruct pd.
  - by destruct ad.
  - unfold ProxyManager.available_proxies. simpl. apply filter_all. set_solver.
  - unfold AccountManager.available. simpl. apply filter_all. set_solver.
Qed.

(** A task that ends without a rate-limit signal leaves the exclusions and
    the files alone; after the reset its release finds nothing to remove. *)
Lemma finish_quiet_eligible w0 w i :
  all_eligible w0 w → all_eligible w0 (step (Finish i None) w).
Proof.
  intros Hw. simpl. destruct (in_flight w !! i) as [[email proxy]|]; [|done].
  destruct Hw as (H1 & H2 & H3 & H4 & H5 & H6 & H7).
  unfold AccountManager.release_account. case_bool_decide as Hin; [set_solver|].
  by unfold all_eligible.
Qed.

Lemma finish_nothing w i rl : in_flight w = [] → step (Finish i rl) w = w.
Proof. intros Hf. simpl. by rewrite Hf. Qed.

Lemma next_window_start_cons e ends w :
  next_window_start (e :: ends) w
  = run ((λ e, Finish e.1 e.2) <$> ends) (step (Finish e.1 e.2) (end_of_day w)).
Proof. done. Qed.

Lemma run_quiet_eligible w0 ends w :
  Forall (λ e : nat * option Z, e.2 = None) ends → all_eligible w0 w →
  all_eligible w0 (run ((λ e, Finish e.1 e.2) <$> ends) w).
Proof.
  intros Hends. revert w. induction Hends as [|[i rl] ends Hrl _ IH]; intros w Hw; [done|].
  simpl in Hrl. subst rl. cbn [fmap list_fmap run foldl]. apply IH.
  by apply finish_quiet_eligible.
Qed.

Lemma run_nothing ends w :
  in_flight w = [] → run ((λ e, Finish e.1 e.2) <$> ends) w = w.
Proof.
  intros Hf. induction ends as [|[i rl] ends IH]; [done|].
  cbn [fmap list_fmap run foldl]. rewrite finish_nothing by done. apply IH.
Qed.

Lemma run_rate_limited_mono ops w e :
  e ∈ AccountManager.rate_limited (am w) →
  e ∈ AccountManager.rate_limited (am (run ops w)).
Proof.
  revert w. induction ops as [|o ops IH]; intros w He; [done|].
  cbn [run foldl]. apply IH. by apply step_rate_limited_mono.
Qed.

(** What a task that ends on a rate-limit signal after the reset leaves. *)
Lemma finish_after_reset w i email proxy now :
  in_flight w !! i = Some (email, proxy) →
  let w1 := step (Finish i (Some now)) (end_of_day w) in
  ProxyManager.rate_limited (pm w1) = {[proxy := now]}
  ∧ ProxyManager.disk (pm w1) = Written {[proxy := now]}
  ∧ AccountManager.rate_limited (am w1) = {[email]}
  ∧ AccountManager.disk (am w1) = Written {[email]}.
Proof.
  intros Hi. cbn [step end_of_day in_flight]. rewrite Hi.
  unfold AccountManager.release_account, AccountManager.mark_rate_limited,
    AccountManager.clear_rate_limits. cbn.
  rewrite bool_decide_eq_false_2 by set_solver. cbn.
  assert ((∅ : gset string) ∪ {[email]} = {[email]}) as -> by set_solver.
  done.
Qed.

End DailyReset.

(** C7 (as amended): the end-of-day reset empties both exclusion collections
    and the running set and removes both exclusion files, so right after it
    every proxy and every account is a candidate. The next window starts in
    that state when no task is still running at the close, or when the tasks
    that end before the next open bring no rate-limit signal. A task that is
    still running at the close is not cancelled: if it ends on a rate-limit
    signal after the reset, it marks its proxy and its account again, both
    files are written again, and whatever else happens before and during the
    next window the account is not a candidate. *)
Theorem daily_reset (w : Hedgeye.sched) :
  let w' := Hedgeye.end_of_day w in
  ProxyManager.rate_limited (Hedgeye.pm w') = ∅
  ∧ AccountManager.rate_limited (Hedgeye.am w') = ∅
  ∧ AccountManager.currently_running (Hedgeye.am w') = ∅
  ∧ exists_ (ProxyManager.disk (Hedgeye.pm w')) = false
  ∧ exists_ (AccountManager.disk (Hedgeye.am w')) = false
  ∧ ProxyManager._load_rate_limited (ProxyManager.disk (Hedgeye.pm w')) = Return ∅
  ∧ AccountManager._load_rate_limited (AccountManager.disk (Hedgeye.am w')) = Return ∅
  ∧ ProxyManager.available_proxies (Hedgeye.pm w') = ProxyManager.proxies (Hedgeye.pm w)
  ∧ AccountManager.available (Hedgeye.am w') = AccountManager.accounts (Hedgeye.am w)
  ∧ (∀ ends,
       Hedgeye.in_flight w = [] ∨ Forall (λ e : nat * option Z, e.2 = None) ends →
       all_eligible w (next_window_start ends w))
  ∧ (∀ i email proxy now ends ops,
       Hedgeye.in_flight w !! i = Some (email, proxy) →
       let w1 := next_window_start [(i, Some now)] w in
       let w2 := Hedgeye.run ops (next_window_start ((i, Some now) :: ends) w) in
       ProxyManager.rate_limited (Hedgeye.pm w1) = {[proxy := now]}
       ∧ ProxyManager.disk (Hedgeye.pm w1) = Written {[proxy := now]}
       ∧ AccountManager.rate_limited (Hedgeye.am w1) = {[email]}
       ∧ AccountManager.disk (Hedgeye.am w1) = Written {[email]}
       ∧ email ∈ AccountManager.rate_limited (Hedgeye.am w2)
       ∧ (email ∉ (AccountManager.available (Hedgeye.am w2)).*1)).
Proof.
  intros w'.
  destruct (end_of_day_eligible w) as (H1 & H2 & H3 & H4 & H5 & H6 & H7). fold w' in H1, H2, H3, H4, H5, H6, H7.
  split_and!; try done.
  - destruct (ProxyManager.disk (Hedgeye.pm w')); done.
  - destruct (AccountManager.disk (Hedgeye.am w')); done.
  - intros ends [Hf | Hends].
    + unfold next_window_start. rewrite run_nothing by done. apply end_of_day_eligible.
    + unfold next_window_start. apply run_quiet_eligible; [done|apply end_of_day_eligible].
  - intros i email proxy now ends ops Hi w1 w2.
    destruct (finish_after_reset w i email proxy now Hi) as (Hp & Hpd & Ha & Had).
    assert (email ∈ AccountManager.rate_limited (Hedgeye.am w2)) as Hin.
    { subst w2. rewrite next_window_start_cons. do 2 apply run_rate_limited_mono.
      cbn [fst snd]. rewrite Ha. set_solver. }
    split_and!; try done.
    intros (acc & -> & Hacc)%list_elem_of_fmap. apply elem_of_available in Hacc. tauto.
Qed.

(** A witness for [daily_reset]: two accounts, one of them running at the
    close; its task ends without a signal before the open, and the next
    window starts with both accounts and the proxy as candidates. *)
Lemma daily_reset_witness :
  let w := Hedgeye.run [Hedgeye.Acquire (λ _, 0%nat); Hedgeye.Launch 0 0]
             (Hedgeye.start (ProxyManager.mk ["p1"] ∅ Missing)
                [("a@x.y", "pa"); ("b@x.y", "pb")] {["b@x.y"]} Missing) in
  all_eligible w (next_window_start [(0%nat, None)] w).
Proof.
  intros w.
  refine (proj1 (proj2 (proj2 (proj2 (proj2 (proj2 (proj2 (proj2 (proj2 (proj2
            (daily_reset w)))))))))) [(0%nat, None)] _).
  right. by repeat constructor.
Defined.

(** C7, counterexample: one account and one proxy; the account's task is
    running at the close. The reset runs, then the task ends on a rate-limit
    signal (at time 7): the next window starts with the account and the
    proxy excluded and with both exclusion files on disk. The proxy entry
    expires 15 minutes after the signal; the account entry does not. *)
Lemma reset_undone_by_running_task :
  let w := Hedgeye.run [Hedgeye.Acquire (λ _, 0%nat); Hedgeye.Launch 0 0]
             (Hedgeye.start (ProxyManager.mk ["p1"] ∅ Missing)
                [("a@x.y", "pa")] ∅ Missing) in
  let w2 := next_window_start [(0%nat, Some 7)] w in
  Hedgeye.in_flight w = [("a@x.y", "p1")]
  ∧ AccountManager.available (Hedgeye.am w2) = []
  ∧ ProxyManager.available_proxies (Hedgeye.pm w2) = []
  ∧ exists_ (AccountManager.disk (Hedgeye.am w2)) = true
  ∧ exists_ (ProxyManager.disk (Hedgeye.pm w2)) = true
  ∧ ¬ all_eligible w w2.
Proof.
  intros w w2.
  assert (Hedgeye.in_flight w = [("a@x.y", "p1")]) as Hf by by vm_compute.
  assert (Hedgeye.in_flight w !! 0%nat = Some ("a@x.y", "p1")) as Hi by by rewrite Hf.
  destruct (finish_after_reset w 0 "a@x.y" "p1" 7 Hi) as (Hp & Hpd & Ha & Had).
  change (Hedgeye.step (Hedgeye.Finish 0 (Some 7)) (Hedgeye.end_of_day w)) with w2
    in Hp, Hpd, Ha, Had.
  assert (AccountManager.accounts (Hedgeye.am w2) = [("a@x.y", "pa")]) as Haccs by done.
  assert (ProxyManager.proxies (Hedgeye.pm w2) = ["p1"]) as Hps by done.
  assert (AccountManager.available (Hedgeye.am w2) = []) as Hav.
  { unfold AccountManager.available. rewrite Haccs, Ha.
    rewrite filter_cons_False; [done|]. simpl. set_solver. }
  clearbody w2 w.
  split; [done|]. split; [done|]. split; [|split; [|split]].
  - unfold ProxyManager.available_proxies. rewrite Hps, Hp.
    rewrite filter_cons_False; [done|]. simpl. rewrite dom_singleton_L. set_solver.
  - by rewrite Had.
  - by rewrite Hpd.
  - intros (_ & Hrl & _). rewrite Ha in Hrl. set_solver.
Qed.
